(** * WechatAudioPlayer: a shallow embedding of the player life cycle

    The development follows [src/core/WechatAudioPlayer.ts] and
    [src/types/index.ts]:

    - JavaScript numbers are IEEE-754 binary64 values, taken here as Rocq's
      primitive floats, so that [NaN] and the infinities behave under [<]
      and [>] as they do in the source;
    - strings are given in UTF-8; [toLowerCase] lower-cases the ASCII
      letters, U+0130 and U+212A as JavaScript does, and takes the lower
      case of every other character from the Unicode tables, which are a
      parameter; the [i] flag of a regular expression without the [u] flag
      never equates an ASCII letter with another character;
    - the listener registry [Map<keyof PlayerEvents, Set<Function>>] is a
      [gmap] from event names to insertion-ordered duplicate-free lists;
    - the methods of the class are written in a state-and-exception monad
      over the fields of the class, with [try ... catch] as a combinator;
    - the audio engine, the console and the registered listeners are the
      outside world: what the engine answers to each call is an argument
      of the method that makes the call, and what the player says to the
      world (emitted events, listener calls, engine calls, console lines)
      is the trace of the run, oldest first;
    - [initialize] is followed up to its first [await]; what the event loop
      runs afterwards (engine events, the load timer, the [complete]
      listener) are inputs of the transition system [step];
    - a listener is run in two ways: as an observer, which returns or
      throws, in the methods of the class as they are written first; and,
      in [Live], as a function of the host application that calls the
      public methods of the player before it returns, where the methods
      are written out again and a completion reaches the player through
      the listener that [play()] attached to the handle.

    The first part holds the definitions, the second the lemmas on them,
    the third the claims C1 to C10 in order, the last further properties
    of the code. *)

From Stdlib Require Import Floats ZArith Ascii String List Bool Lia.
From Stdlib Require DecimalString.
From stdpp Require Import base decidable countable gmap strings list.
Import ListNotations.

Local Open Scope string_scope.
Local Open Scope list_scope.

(** ** JavaScript values *)

Module Js.

(** An [Error] object, identified by its [message]. *)
Record Error := mkError { message : string }.

(** The values a dynamically typed argument can hold. *)
Inductive value :=
| VUndefined
| VNull
| VBool (b : bool)
| VNumber (x : float)
| VString (s : string)
| VObject.

(** [typeof v === 'number'] *)
Definition is_number (v : value) : bool :=
  match v with VNumber _ => true | _ => false end.

(** [typeof v === 'string'] *)
Definition is_string (v : value) : bool :=
  match v with VString _ => true | _ => false end.

(** [!v]: the falsy values are [undefined], [null], [false], [0], [-0],
    [NaN] and the empty string. *)
Definition falsy (v : value) : bool :=
  match v with
  | VUndefined | VNull => true
  | VBool b => negb b
  | VNumber x => PrimFloat.is_zero x || PrimFloat.is_nan x
  | VString s => match s with EmptyString => true | _ => false end
  | VObject => false
  end.

(** [v === s] for a string [s]: no coercion. *)
Definition strict_eq_string (v : value) (s : string) : bool :=
  match v with VString t => String.eqb t s | _ => false end.

(** [a ?? b] *)
Definition nullish {A} (a : option A) (b : A) : A :=
  match a with Some x => x | None => b end.

(** The result of a call: it returns, or it throws. *)
Inductive outcome (A : Type) :=
| Returns (a : A)
| Throws (e : Error).
Arguments Returns {A} a.
Arguments Throws {A} e.

End Js.

Notation "a ?? b" := (Js.nullish a b) (at level 45, right associativity).

(** ** Strings and the regular expressions of the environment detector *)

Module Text.

Definition is_upper (c : ascii) : bool :=
  let n := nat_of_ascii c in (65 <=? n)%nat && (n <=? 90)%nat.

Definition lower_ascii (c : ascii) : ascii :=
  if is_upper c then ascii_of_nat (nat_of_ascii c + 32) else c.

(** Strings are given in UTF-8: a character below U+0080 is one byte below
    128; any other character is a lead byte and the continuation bytes
    (128 to 191) that follow it. *)
Definition is_ascii (c : ascii) : bool := (nat_of_ascii c <? 128)%nat.

Definition is_continuation (c : ascii) : bool :=
  let n := nat_of_ascii c in (128 <=? n)%nat && (n <? 192)%nat.

Definition starts_with_continuation (s : string) : bool :=
  match s with
  | String c _ => is_continuation c
  | EmptyString => false
  end.

Fixpoint all_high (s : string) : bool :=
  match s with
  | EmptyString => true
  | String c r => negb (is_ascii c) && all_high r
  end.

(** The characters of a string, each with its bytes. *)
Fixpoint chars (s : string) : list string :=
  match s with
  | EmptyString => []
  | String c r =>
      if is_ascii c then String c EmptyString :: chars r
      else
        match chars r with
        | g :: gs =>
            if starts_with_continuation g then String c g :: gs
            else String c EmptyString :: g :: gs
        | [] => [String c EmptyString]
        end
  end.

Fixpoint join (l : list string) : string :=
  match l with
  | [] => EmptyString
  | g :: gs => g +:+ join gs
  end.

(** U+0130, capital I with dot above: its lower case is [i] followed by
    U+0307, the combining dot above. *)
Definition dotted_capital_I : string :=
  String (ascii_of_nat 196) (String (ascii_of_nat 176) EmptyString).

Definition combining_dot : string :=
  String (ascii_of_nat 204) (String (ascii_of_nat 135) EmptyString).

(** U+212A, the Kelvin sign: its lower case is [k]. *)
Definition kelvin_sign : string :=
  String (ascii_of_nat 226)
    (String (ascii_of_nat 132) (String (ascii_of_nat 170) EmptyString)).

(** The lower case of the other characters above U+007F, as the Unicode
    tables give it for a character between what precedes and what follows
    it (the final sigma depends on both). No such character has an ASCII
    letter in its lower case, and none has an empty one. *)
Record Unicode := {
  lower_other : string -> string -> string -> string;
  lower_other_high :
    forall before c after,
      all_high c = true -> c <> EmptyString ->
      all_high (lower_other before c after) = true /\
      lower_other before c after <> EmptyString
}.

Fixpoint lower_bytes (s : string) : string :=
  match s with
  | EmptyString => EmptyString
  | String c r => String (lower_ascii c) (lower_bytes r)
  end.

(** The lower case of one character. *)
Definition lower_char (U : Unicode) (before c after : string) : string :=
  if negb (all_high c) then lower_bytes c
  else if String.eqb c dotted_capital_I then String "i"%char combining_dot
  else if String.eqb c kelvin_sign then String "k"%char EmptyString
  else lower_other U before c after.

Fixpoint lower_chars (U : Unicode) (before : string) (gs : list string)
  : string :=
  match gs with
  | [] => EmptyString
  | g :: rest =>
      lower_char U before g (join rest) +:+ lower_chars U (before +:+ g) rest
  end.

(** [s.toLowerCase()] *)
Definition toLowerCase (U : Unicode) (s : string) : string :=
  lower_chars U EmptyString (chars s).

(** Tables that leave the other characters as they are. *)
Definition plain : Unicode.
Proof.
  refine {| lower_other := fun _ c _ => c |}.
  intros _ c _ H Hne. now split.
Defined.

(** A literal matched at the start of [s], ignoring case. *)
Fixpoint starts_with_i (lit s : string) : bool :=
  match lit, s with
  | EmptyString, _ => true
  | String a lit', String b s' =>
      Ascii.eqb (lower_ascii a) (lower_ascii b) && starts_with_i lit' s'
  | String _ _, EmptyString => false
  end.

(** A literal matched somewhere in [s], ignoring case. *)
Fixpoint search_i (lit s : string) : bool :=
  starts_with_i lit s ||
  match s with
  | EmptyString => false
  | String _ s' => search_i lit s'
  end.

(** [/a|b|c/i.test(s)]: the regular expressions of the detector are
    alternations of literals. *)
Definition test_i (alternatives : list string) (s : string) : bool :=
  existsb (fun lit => search_i lit s) alternatives.

(** A literal matched at the start of [s], case-sensitively; the rest of
    [s] is returned. *)
Fixpoint strip_prefix (lit s : string) : option string :=
  match lit, s with
  | EmptyString, _ => Some s
  | String a lit', String b s' =>
      if Ascii.eqb a b then strip_prefix lit' s' else None
  | String _ _, EmptyString => None
  end.

Definition is_digit (c : ascii) : bool :=
  let n := nat_of_ascii c in (48 <=? n)%nat && (n <=? 57)%nat.

(** The longest run of digits at the start of [s], and what follows. *)
Fixpoint digits (s : string) : string * string :=
  match s with
  | String c r =>
      if is_digit c then let '(d, rest) := digits r in (String c d, rest)
      else (EmptyString, s)
  | EmptyString => (EmptyString, EmptyString)
  end.

Definition dot : ascii := "."%char.

(** [\d+\.\d+\.\d+] matched at the start of [s]. A run of digits is never
    followed by a digit, so the greedy runs need no backtracking. *)
Definition dotted_version (s : string) : option string :=
  let '(a, r1) := digits s in
  match a, r1 with
  | String _ _, String c1 r1' =>
      if Ascii.eqb c1 dot then
        let '(b, r2) := digits r1' in
        match b, r2 with
        | String _ _, String c2 r2' =>
            if Ascii.eqb c2 dot then
              let '(c, _) := digits r2' in
              match c with
              | String _ _ => Some (a +:+ "." +:+ b +:+ "." +:+ c)
              | EmptyString => None
              end
            else None
        | _, _ => None
        end
      else None
  | _, _ => None
  end.

(** [s.match(/micromessenger\/(\d+\.\d+\.\d+)/)], first capture group of
    the leftmost match. *)
Fixpoint match_version (s : string) : option string :=
  match
    match strip_prefix "micromessenger/" s with
    | Some rest => dotted_version rest
    | None => None
    end
  with
  | Some v => Some v
  | None =>
      match s with
      | EmptyString => None
      | String _ s' => match_version s'
      end
  end.

(** Two bytes that are the same, or the two cases of one of the letters A
    to Z. *)
Definition same_letter (a b : ascii) : Prop :=
  let x := nat_of_ascii a in
  let y := nat_of_ascii b in
  x = y \/
  (65 <= x <= 90 /\ y = x + 32)%nat \/
  (65 <= y <= 90 /\ x = y + 32)%nat.

(** [tok] occurs in [s] without regard to the case of the letters A to Z:
    some factor of [s] is [tok] letter for letter. *)
Definition occurs (tok s : string) : Prop :=
  exists pre mid post,
    s = pre +:+ mid +:+ post /\
    Forall2 same_letter (list_ascii_of_string mid) (list_ascii_of_string tok).

End Text.

(** ** Readings of a string *)

(** A character is one byte below 128, or bytes that are all above. *)
Definition character (g : string) : Prop :=
  (exists c, g = String c "" /\ Text.is_ascii c = true) \/
  (Text.all_high g = true /\ g <> "").

(** A token of the detector: ASCII letters, [k] not among them. *)
Definition token_byte (a : ascii) : bool :=
  Text.is_ascii a && negb (Ascii.eqb (Text.lower_ascii a) "k"%char).

(** A string of such bytes. *)
Fixpoint token (tok : string) : bool :=
  match tok with
  | EmptyString => true
  | String a r => token_byte a && token r
  end.

(** A byte that no byte of a token matches. *)
Definition foreign (x : ascii) : Prop :=
  forall a, token_byte a = true ->
    Ascii.eqb (Text.lower_ascii a) (Text.lower_ascii x) = false.

(** A string of such bytes. *)
Fixpoint foreign_bytes (u : string) : Prop :=
  match u with
  | EmptyString => True
  | String x r => foreign x /\ foreign_bytes r
  end.

(** ** Environment detection ([EnvironmentInfo], [detectEnvironment]) *)

Module BrowserType.
Inductive t := weixin | safari | chrome | firefox | other.
End BrowserType.

Record EnvironmentInfo := {
  isWeixin : bool;
  isIOS : bool;
  isAndroid : bool;
  isHTTPS : bool;
  userAgent : string;
  weixinVersion : option string;
  supportsAutoplay : bool;
  browserType : BrowserType.t
}.

(** [navigatorUserAgent] is [navigator.userAgent], [protocol] is
    [location.protocol], [U] the tables behind [toLowerCase]. *)
Definition detectEnvironment (U : Text.Unicode)
  (navigatorUserAgent protocol : string) : EnvironmentInfo :=
  let userAgent := Text.toLowerCase U navigatorUserAgent in
  let isWeixin := Text.test_i ["micromessenger"] userAgent in
  let isIOS := Text.test_i ["iphone"; "ipad"; "ipod"] userAgent in
  let isAndroid := Text.test_i ["android"] userAgent in
  let isHTTPS := String.eqb protocol "https:" in
  let browserType :=
    if isWeixin then BrowserType.weixin
    else if Text.test_i ["safari"] userAgent
            && negb (Text.test_i ["chrome"; "chromium"; "edge"] userAgent)
         then BrowserType.safari
    else if Text.test_i ["chrome"; "chromium"] userAgent then BrowserType.chrome
    else if Text.test_i ["firefox"] userAgent then BrowserType.firefox
    else BrowserType.other in
  let weixinVersion :=
    if isWeixin then Text.match_version userAgent else None in
  {| isWeixin := isWeixin;
     isIOS := isIOS;
     isAndroid := isAndroid;
     isHTTPS := isHTTPS;
     userAgent := userAgent;
     weixinVersion := weixinVersion;
     supportsAutoplay := isWeixin;
     browserType := browserType |}.

(** The browser type that the order of the tests gives, for a way [has] of
    telling whether a token is there: the first of these that applies. *)
Definition first_match (has : string -> Prop) (b : BrowserType.t) : Prop :=
  let is_weixin := has "micromessenger" in
  let is_safari :=
    has "safari" /\ ~ (has "chrome" \/ has "chromium" \/ has "edge") in
  let is_chrome := has "chrome" \/ has "chromium" in
  let is_firefox := has "firefox" in
  match b with
  | BrowserType.weixin => is_weixin
  | BrowserType.safari => ~ is_weixin /\ is_safari
  | BrowserType.chrome => ~ is_weixin /\ ~ is_safari /\ is_chrome
  | BrowserType.firefox =>
      ~ is_weixin /\ ~ is_safari /\ ~ is_chrome /\ is_firefox
  | BrowserType.other =>
      ~ is_weixin /\ ~ is_safari /\ ~ is_chrome /\ ~ is_firefox
  end.

(** ** The types of [src/types/index.ts] *)

Module PlayerState.
Inductive t := idle | loading | ready | playing | paused | stopped | error.

#[global] Instance eq_dec : EqDecision t.
Proof. solve_decision. Defined.

(** [a === b] on states. *)
Definition eqb (a b : t) : bool := bool_decide (a = b).
End PlayerState.

(** The keys of [PlayerEvents]. *)
Module Ev.
Inductive name :=
| ready | play | pause | stop | ended
| volumechange | timeupdate | progress | error | statechange.

#[global] Instance eq_dec : EqDecision name.
Proof. solve_decision. Defined.

Definition code (e : name) : positive :=
  match e with
  | ready => 1 | play => 2 | pause => 3 | stop => 4 | ended => 5
  | volumechange => 6 | timeupdate => 7 | progress => 8 | error => 9
  | statechange => 10
  end%positive.

Definition decode (p : positive) : option name :=
  match p with
  | 1 => Some ready | 2 => Some play | 3 => Some pause | 4 => Some stop
  | 5 => Some ended | 6 => Some volumechange | 7 => Some timeupdate
  | 8 => Some progress | 9 => Some error | 10 => Some statechange
  | _ => None
  end%positive.

#[global] Instance countable : Countable name.
Proof.
  refine (inj_countable code decode _). intros e. destruct e; reflexivity.
Defined.
End Ev.

(** The callback slots of [WechatAudioConfig]. *)
Inductive Slot :=
| onReady | onPlay | onPause | onStop | onEnded
| onError | onVolumeChange | onTimeUpdate.

(** Function objects. [Noop s] is the arrow function [() => {}] that the
    constructor writes as the default of slot [s]; [Fn id raises] is a
    function of the host application, known by its identity, and [raises]
    tells whether a call of it throws. What else a call does is said where
    the listener is called: nothing in [notify], which takes it as an
    observer, and what the host application says in [Live.calls]. *)
Inductive Listener :=
| Noop (s : Slot)
| Fn (id : nat) (raises : bool).

#[global] Instance Slot_eq_dec : EqDecision Slot.
Proof. solve_decision. Defined.

#[global] Instance Listener_eq_dec : EqDecision Listener.
Proof. solve_decision. Defined.

Definition raises (l : Listener) : bool :=
  match l with Noop _ => false | Fn _ r => r end.

(** [SoundInstance]: a handle is known by its identity. *)
Definition SoundInstance := nat.

(** The arguments an event carries ([PlayerEvents[T]]). *)
Inductive Arg :=
| AState (s : PlayerState.t)
| ANumber (x : float)
| AError (e : Js.Error).

(** [AudioLoadOptions], [WeixinConfig] and [WechatAudioConfig] as the caller
    writes them: an absent key is [None]. *)
Module Raw.
Record AudioLoadOptions := {
  id : option string;
  preload : option bool;
  formats : option (list string);
  timeout : option float
}.

Record JssdkConfig := {
  appId : string;
  timestamp : string;
  nonceStr : string;
  signature : string;
  jsApiList : option (list string);
  jssdkDebug : option bool
}.

Record WeixinConfig := {
  enableJSSDK : option bool;
  jssdkConfig : option JssdkConfig
}.

Record WechatAudioConfig := {
  src : Js.value;
  autoplay : option bool;
  loop : option bool;
  volume : option float;
  muted : option bool;
  loadOptions : option AudioLoadOptions;
  weixinConfig : option WeixinConfig;
  debug : option bool;
  soundjsCDN : option string;
  callback : Slot -> option Listener
}.

(** [{ src }]: every other key is absent. *)
Definition only_src (s : Js.value) : WechatAudioConfig :=
  {| src := s; autoplay := None; loop := None; volume := None;
     muted := None; loadOptions := None; weixinConfig := None;
     debug := None; soundjsCDN := None; callback := fun _ => None |}.
End Raw.

(** [Required<WechatAudioConfig>], the resolved configuration. *)
Module Cfg.
Record LoadOptions := {
  id : string;
  preload : bool;
  formats : list string;
  timeout : float
}.

Record WeixinConfig := {
  enableJSSDK : bool;
  jssdkConfig : option Raw.JssdkConfig
}.

Record t := {
  src : string;
  autoplay : bool;
  loop : bool;
  volume : float;
  muted : bool;
  loadOptions : LoadOptions;
  weixinConfig : WeixinConfig;
  debug : bool;
  soundjsCDN : string;
  onReady : Listener;
  onPlay : Listener;
  onPause : Listener;
  onStop : Listener;
  onEnded : Listener;
  onError : Listener;
  onVolumeChange : Listener;
  onTimeUpdate : Listener
}.

Definition with_volume (v : float) (c : t) : t :=
  {| src := src c; autoplay := autoplay c; loop := loop c; volume := v;
     muted := muted c; loadOptions := loadOptions c;
     weixinConfig := weixinConfig c; debug := debug c;
     soundjsCDN := soundjsCDN c; onReady := onReady c; onPlay := onPlay c;
     onPause := onPause c; onStop := onStop c; onEnded := onEnded c;
     onError := onError c; onVolumeChange := onVolumeChange c;
     onTimeUpdate := onTimeUpdate c |}.

Definition with_muted (m : bool) (c : t) : t :=
  {| src := src c; autoplay := autoplay c; loop := loop c;
     volume := volume c; muted := m; loadOptions := loadOptions c;
     weixinConfig := weixinConfig c; debug := debug c;
     soundjsCDN := soundjsCDN c; onReady := onReady c; onPlay := onPlay c;
     onPause := onPause c; onStop := onStop c; onEnded := onEnded c;
     onError := onError c; onVolumeChange := onVolumeChange c;
     onTimeUpdate := onTimeUpdate c |}.

Definition with_loop (l : bool) (c : t) : t :=
  {| src := src c; autoplay := autoplay c; loop := l; volume := volume c;
     muted := muted c; loadOptions := loadOptions c;
     weixinConfig := weixinConfig c; debug := debug c;
     soundjsCDN := soundjsCDN c; onReady := onReady c; onPlay := onPlay c;
     onPause := onPause c; onStop := onStop c; onEnded := onEnded c;
     onError := onError c; onVolumeChange := onVolumeChange c;
     onTimeUpdate := onTimeUpdate c |}.
End Cfg.

(** ** What the player says to the outside world *)

(** Calls made on [SoundJSBundle], on [window.createjs.Sound] and on sound
    instances. *)
Inductive EngineCall :=
| BundleInitialize
| SoundOn (event : string)
| SoundOff (event : string)
| SoundPlay (id : string) (loop : Z) (volume : float)
| SoundRemoveSound (id : string)
| InstanceStop (h : SoundInstance)
| InstancePause (h : SoundInstance)
| InstanceDestroy (h : SoundInstance)
| InstanceSetVolume (h : SoundInstance) (volume : float)
| InstanceOn (h : SoundInstance) (event : string).

Module Console.
Inductive level := debug | info | warn | error.

(** The lines the class writes, with the values they are rendered from. *)
Inductive text :=
| Initializing
| LoadingSoundJS
| SoundJSInitialized (version : string)
| AudioLoaded
| AutoplayFailed (e : Js.Error)
| StartingPlayback
| PlaybackStarted
| AudioPaused
| FailedToPause (e : Js.Error)
| AudioStopped
| FailedToStop (e : Js.Error)
| FailedToSetVolume (e : Js.Error)
| VolumeSet (volume : float)
| FailedToSetMuted (e : Js.Error)
| Muted (muted : bool)
| Loop (loop : bool)
| Destroying
| Destroyed
| ErrorDuringDestroy (e : Js.Error)
| StateChanged (oldState newState : PlayerState.t)
| ListenerError (event : Ev.name) (l : Listener)
| PlaybackCompleted
| FailedToSetupEvents (e : Js.Error)
| PlayerError (e : Js.Error).

Definition is_debug (l : level) : bool :=
  match l with debug => true | _ => false end.
End Console.

Inductive Output :=
| Emitted (event : Ev.name) (args : list Arg)
    (** a call [this.emit(event, ...args)] *)
| Delivered (l : Listener) (event : Ev.name) (args : list Arg)
    (** a listener called by [emit] *)
| Called (c : EngineCall)
| Logged (l : Console.level) (t : Console.text).

(** ** The fields of the class *)

Record Player := {
  config : Cfg.t;
  state : PlayerState.t;
  soundInstance : option SoundInstance;
  audioId : string;
  destroyed : bool;
  eventListeners : gmap Ev.name (list Listener);
  environmentInfo : EnvironmentInfo;
  audioLoaded : bool;
  weixinReady : bool
}.

Definition with_config (f : Cfg.t -> Cfg.t) (p : Player) : Player :=
  {| config := f (config p); state := state p;
     soundInstance := soundInstance p; audioId := audioId p;
     destroyed := destroyed p; eventListeners := eventListeners p;
     environmentInfo := environmentInfo p; audioLoaded := audioLoaded p;
     weixinReady := weixinReady p |}.

Definition with_state (s : PlayerState.t) (p : Player) : Player :=
  {| config := config p; state := s;
     soundInstance := soundInstance p; audioId := audioId p;
     destroyed := destroyed p; eventListeners := eventListeners p;
     environmentInfo := environmentInfo p; audioLoaded := audioLoaded p;
     weixinReady := weixinReady p |}.

Definition with_soundInstance (h : option SoundInstance) (p : Player)
  : Player :=
  {| config := config p; state := state p;
     soundInstance := h; audioId := audioId p;
     destroyed := destroyed p; eventListeners := eventListeners p;
     environmentInfo := environmentInfo p; audioLoaded := audioLoaded p;
     weixinReady := weixinReady p |}.

Definition with_destroyed (d : bool) (p : Player) : Player :=
  {| config := config p; state := state p;
     soundInstance := soundInstance p; audioId := audioId p;
     destroyed := d; eventListeners := eventListeners p;
     environmentInfo := environmentInfo p; audioLoaded := audioLoaded p;
     weixinReady := weixinReady p |}.

Definition with_eventListeners (m : gmap Ev.name (list Listener))
  (p : Player) : Player :=
  {| config := config p; state := state p;
     soundInstance := soundInstance p; audioId := audioId p;
     destroyed := destroyed p; eventListeners := m;
     environmentInfo := environmentInfo p; audioLoaded := audioLoaded p;
     weixinReady := weixinReady p |}.

Definition with_audioLoaded (b : bool) (p : Player) : Player :=
  {| config := config p; state := state p;
     soundInstance := soundInstance p; audioId := audioId p;
     destroyed := destroyed p; eventListeners := eventListeners p;
     environmentInfo := environmentInfo p; audioLoaded := b;
     weixinReady := weixinReady p |}.

(** ** The monad of the methods

    A method runs from the fields of the class to an outcome, the fields
    afterwards, and what it said to the world, oldest first. *)

Record Run (A : Type) := mkRun {
  result : Js.outcome A;
  after : Player;
  trace : list Output
}.
Arguments mkRun {A} result after trace.
Arguments result {A} r.
Arguments after {A} r.
Arguments trace {A} r.

Definition M (A : Type) : Type := Player -> Run A.

#[global] Instance M_ret : MRet M :=
  fun A a p => mkRun (Js.Returns a) p [].

(** [r], said after [t]. *)
Definition after_saying {A} (t : list Output) (r : Run A) : Run A :=
  mkRun (result r) (after r) (t ++ trace r).
Arguments after_saying {A} t !r /.

#[global] Instance M_bind : MBind M :=
  fun A B k m p =>
    match m p with
    | mkRun (Js.Returns a) p' t => after_saying t (k a p')
    | mkRun (Js.Throws e) p' t => mkRun (Js.Throws e) p' t
    end.

Definition throw {A} (e : Js.Error) : M A :=
  fun p => mkRun (Js.Throws e) p [].

(** [try { body } catch (error) { handler }] *)
Definition try_catch {A} (body : M A) (handler : Js.Error -> M A) : M A :=
  fun p =>
    match body p with
    | mkRun (Js.Returns a) p' t => mkRun (Js.Returns a) p' t
    | mkRun (Js.Throws e) p' t => after_saying t (handler e p')
    end.

Definition get : M Player := fun p => mkRun (Js.Returns p) p [].

Definition modify (f : Player -> Player) : M unit :=
  fun p => mkRun (Js.Returns tt) (f p) [].

Definition say (o : Output) : M unit :=
  fun p => mkRun (Js.Returns tt) p [o].

(** A call into the engine, with the engine's answer. *)
Definition call {A} (c : EngineCall) (answer : Js.outcome A) : M A :=
  fun p => mkRun answer p [Called c].

Definition skip : M unit := mret tt.

(** ** Private methods *)

(** [log(level, message, ...args)] *)
Definition log (level : Console.level) (message : Console.text) : M unit :=
  p ← get;
  if negb (Cfg.debug (config p)) && Console.is_debug level then skip
  else say (Logged level message).

(** One turn of [listeners.forEach] in [emit]: the listener is called
    inside its own [try]. *)
Definition notify (event : Ev.name) (args : list Arg) (l : Listener)
  : M unit :=
  say (Delivered l event args);;
  if raises l then log Console.error (Console.ListenerError event l)
  else skip.

Fixpoint forEach {A} (f : A -> M unit) (l : list A) : M unit :=
  match l with
  | [] => skip
  | x :: l' => f x;; forEach f l'
  end.

(** [emit(event, ...args)] *)
Definition emit (event : Ev.name) (args : list Arg) : M unit :=
  say (Emitted event args);;
  p ← get;
  match eventListeners p !! event with
  | Some listeners => forEach (notify event args) listeners
  | None => skip
  end.

(** [setState(newState)] *)
Definition setState (newState : PlayerState.t) : M unit :=
  p ← get;
  if negb (PlayerState.eqb (state p) newState) then
    let oldState := state p in
    modify (with_state newState);;
    emit Ev.statechange [AState newState];;
    log Console.debug (Console.StateChanged oldState newState)
  else skip.

(** [handleError(error)] *)
Definition handleError (error : Js.Error) : M unit :=
  setState PlayerState.error;;
  emit Ev.error [AError error];;
  log Console.error (Console.PlayerError error).

(** The listener that [setupSoundInstanceEvents] attaches to ['complete']. *)
Definition onComplete : M unit :=
  p ← get;
  if negb (Cfg.loop (config p)) then
    setState PlayerState.stopped;;
    emit Ev.ended [];;
    log Console.info Console.PlaybackCompleted
  else skip.

(** [setupSoundInstanceEvents()]; [subscribed] is the engine's answer to
    [soundInstance.on('complete', ...)]. *)
Definition setupSoundInstanceEvents (subscribed : Js.outcome unit)
  : M unit :=
  p ← get;
  match soundInstance p with
  | None => skip
  | Some h =>
      try_catch
        (call (InstanceOn h "complete") subscribed)
        (fun error => log Console.error (Console.FailedToSetupEvents error))
  end.

(** ** Public methods *)

(** [on(event, listener)]: [Set.add] keeps the first insertion. *)
Definition on (event : Ev.name) (listener : Listener) : M unit :=
  modify (fun p =>
    let listeners := default [] (eventListeners p !! event) in
    let listeners' :=
      if bool_decide (listener ∈ listeners) then listeners
      else listeners ++ [listener] in
    with_eventListeners (<[event := listeners']> (eventListeners p)) p).

(** [off(event, listener)] *)
Definition off (event : Ev.name) (listener : Listener) : M unit :=
  modify (fun p =>
    match eventListeners p !! event with
    | Some listeners =>
        let listeners' :=
          filter (fun l => l ≠ listener) listeners in
        match listeners' with
        | [] => with_eventListeners (delete event (eventListeners p)) p
        | _ => with_eventListeners
                 (<[event := listeners']> (eventListeners p)) p
        end
    | None => p
    end).

(** What the engine answers during one [play()]. *)
Record PlayEnv := {
  sound : bool;
      (** [window.createjs?.Sound] is there *)
  stopped : Js.outcome unit;
      (** answer to [soundInstance.stop()] on the previous handle *)
  created : Js.outcome (option SoundInstance);
      (** answer to [Sound.play(audioId, playOptions)] *)
  subscribed : Js.outcome unit
      (** answer to [soundInstance.on('complete', ...)] *)
}.

(** [play()]; the promise is fulfilled on [Returns], rejected on [Throws]. *)
Definition play (env : PlayEnv) : M unit :=
  p ← get;
  if destroyed p then throw (Js.mkError "Player has been destroyed")
  else if negb (audioLoaded p) then throw (Js.mkError "Audio not loaded yet")
  else if negb (sound env) then throw (Js.mkError "SoundJS not available")
  else
    try_catch
      (log Console.info Console.StartingPlayback;;
       match soundInstance p with
       | Some h => call (InstanceStop h) (stopped env)
       | None => skip
       end;;
       let loop := if Cfg.loop (config p) then (-1)%Z else 0%Z in
       let volume :=
         if Cfg.muted (config p) then 0%float else Cfg.volume (config p) in
       h ← call (SoundPlay (audioId p) loop volume) (created env);
       modify (with_soundInstance h);;
       match h with
       | None => throw (Js.mkError "Failed to create sound instance")
       | Some _ =>
           setupSoundInstanceEvents (subscribed env);;
           setState PlayerState.playing;;
           emit Ev.play [];;
           log Console.info Console.PlaybackStarted
       end)
      (fun err => handleError err;; throw err).

(** [pause()]; [paused] is the engine's answer to [soundInstance.pause()]. *)
Definition pause (paused : Js.outcome unit) : M unit :=
  p ← get;
  match destroyed p, soundInstance p with
  | false, Some h =>
      try_catch
        (call (InstancePause h) paused;;
         setState PlayerState.paused;;
         emit Ev.pause [];;
         log Console.info Console.AudioPaused)
        (fun error => log Console.error (Console.FailedToPause error))
  | _, _ => skip
  end.

(** [stop()]; [stopped] is the engine's answer to [soundInstance.stop()]. *)
Definition stop (stopped : Js.outcome unit) : M unit :=
  p ← get;
  match destroyed p, soundInstance p with
  | false, Some h =>
      try_catch
        (call (InstanceStop h) stopped;;
         setState PlayerState.stopped;;
         emit Ev.stop [];;
         log Console.info Console.AudioStopped)
        (fun error => log Console.error (Console.FailedToStop error))
  | _, _ => skip
  end.

(** The guard of [setVolume]:
    [typeof volume !== 'number' || volume < 0 || volume > 1]. *)
Definition volume_rejected (volume : Js.value) : bool :=
  negb (Js.is_number volume) ||
  match volume with
  | Js.VNumber x => (x <? 0)%float || (1 <? x)%float
  | _ => false
  end.

(** The number held by a value that passed the guard. *)
Definition as_number (volume : Js.value) : float :=
  match volume with Js.VNumber x => x | _ => nan end.

(** [setVolume(volume)]; [applied] is the engine's answer to
    [soundInstance.setVolume(volume)]. *)
Definition setVolume (volume : Js.value) (applied : Js.outcome unit)
  : M unit :=
  if volume_rejected volume
  then throw (Js.mkError "Volume must be a number between 0 and 1")
  else
    let x := as_number volume in
    modify (with_config (Cfg.with_volume x));;
    p ← get;
    match soundInstance p, Cfg.muted (config p) with
    | Some h, false =>
        try_catch
          (call (InstanceSetVolume h x) applied)
          (fun error => log Console.error (Console.FailedToSetVolume error))
    | _, _ => skip
    end;;
    emit Ev.volumechange [ANumber x];;
    log Console.debug (Console.VolumeSet x).

(** [getVolume()] *)
Definition getVolume (p : Player) : float := Cfg.volume (config p).

(** [setMuted(muted)] *)
Definition setMuted (muted : bool) (applied : Js.outcome unit) : M unit :=
  modify (with_config (Cfg.with_muted muted));;
  p ← get;
  match soundInstance p with
  | Some h =>
      let volume := if muted then 0%float else Cfg.volume (config p) in
      try_catch
        (call (InstanceSetVolume h volume) applied)
        (fun error => log Console.error (Console.FailedToSetMuted error))
  | None => skip
  end;;
  log Console.debug (Console.Muted muted).

(** [isMuted()] *)
Definition isMuted (p : Player) : bool := Cfg.muted (config p).

(** [setLoop(loop)] *)
Definition setLoop (loop : bool) : M unit :=
  modify (with_config (Cfg.with_loop loop));;
  log Console.debug (Console.Loop loop).

(** [isLoop()] *)
Definition isLoop (p : Player) : bool := Cfg.loop (config p).

(** What the engine answers during one [destroy()]. *)
Record DestroyEnv := {
  engine : bool;
      (** [window.createjs?.Sound] is there *)
  instanceStopped : Js.outcome unit;
      (** answer to [soundInstance.stop()] *)
  instanceDestroyed : Js.outcome unit;
      (** answer to [soundInstance.destroy()] *)
  soundRemoved : Js.outcome unit;
      (** answer to [Sound.removeSound(audioId)] *)
  fileloadOff : Js.outcome unit;
      (** answer to [Sound.off('fileload', ...)] *)
  fileerrorOff : Js.outcome unit
      (** answer to [Sound.off('fileerror', ...)] *)
}.

(** [destroy()] *)
Definition destroy (env : DestroyEnv) : M unit :=
  p ← get;
  if destroyed p then skip
  else
    log Console.info Console.Destroying;;
    try_catch
      (match soundInstance p with
       | Some h =>
           call (InstanceStop h) (instanceStopped env);;
           call (InstanceDestroy h) (instanceDestroyed env);;
           modify (with_soundInstance None)
       | None => skip
       end;;
       (if engine env && audioLoaded p
        then call (SoundRemoveSound (audioId p)) (soundRemoved env)
        else skip);;
       modify (with_eventListeners ∅);;
       (if engine env
        then call (SoundOff "fileload") (fileloadOff env);;
             call (SoundOff "fileerror") (fileerrorOff env)
        else skip);;
       setState PlayerState.idle;;
       modify (with_destroyed true);;
       log Console.info Console.Destroyed)
      (fun error => log Console.error (Console.ErrorDuringDestroy error)).

(** ** Engine events *)

(** [handleSoundLoad(event)]; [id] is [event.id], and [env] is what the
    engine answers to the [play()] of the autoplay. [play()] has no [await],
    so its body runs inside the handler; the console line of its [.catch]
    is placed right after it. *)
Definition handleSoundLoad (id : Js.value) (env : PlayEnv) : M unit :=
  p ← get;
  if Js.strict_eq_string id (audioId p) then
    modify (with_audioLoaded true);;
    setState PlayerState.ready;;
    log Console.info Console.AudioLoaded;;
    emit Ev.ready [];;
    if Cfg.autoplay (config p) then
      try_catch (play env)
        (fun error => log Console.warn (Console.AutoplayFailed error))
    else skip
  else skip.

(** [event.message || 'Unknown error'] *)
Definition message_or_unknown (message : option string) : string :=
  match message with
  | Some (String c s) => String c s
  | _ => "Unknown error"
  end.

(** [handleSoundError(event)]; [id] is [event.id], [message] is
    [event.message]. *)
Definition handleSoundError (id : Js.value) (message : option string)
  : M unit :=
  p ← get;
  if Js.strict_eq_string id (audioId p) then
    handleError
      (Js.mkError ("Audio load error: " +:+ message_or_unknown message))
  else skip.

(** The timer of [loadAudio]: when it fires before the load completed. *)
Definition loadTimeout : M unit :=
  p ← get;
  if negb (audioLoaded p) then handleError (Js.mkError "Audio load timeout")
  else skip.

(** ** Construction *)

(** The ambient values the constructor reads. *)
Record World := {
  now : N;
      (** [Date.now()] *)
  random36 : string;
      (** [Math.random().toString(36)] *)
  navigatorUserAgent : string;
  protocol : string;
  unicode : Text.Unicode;
      (** the tables behind [toLowerCase] *)
  bundle : Js.outcome string;
      (** [SoundJSBundle.initialize()] followed by [getVersion()] *)
  soundjs : bool;
      (** [window.createjs?.Sound] is there *)
  fileloadOn : Js.outcome unit;
      (** answer to [Sound.on('fileload', ...)] *)
  fileerrorOn : Js.outcome unit
      (** answer to [Sound.on('fileerror', ...)] *)
}.

Definition decimal (n : N) : string :=
  DecimalString.NilZero.string_of_uint (N.to_uint n).

(** [`audio_${Date.now()}_${Math.random().toString(36).substr(2, 9)}`] *)
Definition generated_id (w : World) : string :=
  "audio_" +:+ decimal (now w) +:+ "_" +:+ substring 2 9 (random36 w).

(** The number literal [0.8]: the binary64 value nearest to eight tenths. *)
Definition default_volume : float := 0x1.999999999999ap-1%float.

(** The object literal assigned to [this.config]. The spread of
    [config.loadOptions] and of [config.weixinConfig] lets each key that is
    present override the default written before it. *)
Definition merged (w : World) (src : string)
  (config : Raw.WechatAudioConfig) : Cfg.t :=
  let lo := Raw.loadOptions config in
  let wx := Raw.weixinConfig config in
  {| Cfg.src := src;
     Cfg.autoplay := Raw.autoplay config ?? false;
     Cfg.loop := Raw.loop config ?? false;
     Cfg.volume := Raw.volume config ?? default_volume;
     Cfg.muted := Raw.muted config ?? false;
     Cfg.loadOptions :=
       {| Cfg.id := (lo ≫= Raw.id) ?? generated_id w;
          Cfg.preload := (lo ≫= Raw.preload) ?? true;
          Cfg.formats := (lo ≫= Raw.formats) ?? ["mp3"; "ogg"; "wav"];
          Cfg.timeout := (lo ≫= Raw.timeout) ?? 10000%float |};
     Cfg.weixinConfig :=
       {| Cfg.enableJSSDK := (wx ≫= Raw.enableJSSDK) ?? false;
          Cfg.jssdkConfig := wx ≫= Raw.jssdkConfig |};
     Cfg.debug := Raw.debug config ?? false;
     Cfg.soundjsCDN :=
       Raw.soundjsCDN config
         ?? "https://code.createjs.com/1.0.0/soundjs.min.js";
     Cfg.onReady := Raw.callback config onReady ?? Noop onReady;
     Cfg.onPlay := Raw.callback config onPlay ?? Noop onPlay;
     Cfg.onPause := Raw.callback config onPause ?? Noop onPause;
     Cfg.onStop := Raw.callback config onStop ?? Noop onStop;
     Cfg.onEnded := Raw.callback config onEnded ?? Noop onEnded;
     Cfg.onError := Raw.callback config onError ?? Noop onError;
     Cfg.onVolumeChange :=
       Raw.callback config onVolumeChange ?? Noop onVolumeChange;
     Cfg.onTimeUpdate :=
       Raw.callback config onTimeUpdate ?? Noop onTimeUpdate |}.

(** [bindConfigCallbacks()] *)
Definition bindConfigCallbacks : M unit :=
  p ← get;
  on Ev.ready (Cfg.onReady (config p));;
  on Ev.play (Cfg.onPlay (config p));;
  on Ev.pause (Cfg.onPause (config p));;
  on Ev.stop (Cfg.onStop (config p));;
  on Ev.ended (Cfg.onEnded (config p));;
  on Ev.error (Cfg.onError (config p));;
  on Ev.volumechange (Cfg.onVolumeChange (config p));;
  on Ev.timeupdate (Cfg.onTimeUpdate (config p)).

(** [setupSoundJSEventListeners()] *)
Definition setupSoundJSEventListeners (w : World) : M unit :=
  if negb (soundjs w) then skip
  else
    call (SoundOn "fileload") (fileloadOn w);;
    call (SoundOn "fileerror") (fileerrorOn w).

(** [loadSoundJS()] *)
Definition loadSoundJS (w : World) : M unit :=
  log Console.info Console.LoadingSoundJS;;
  try_catch
    (version ← call BundleInitialize (bundle w);
     log Console.info (Console.SoundJSInitialized version);;
     setupSoundJSEventListeners w)
    (fun error =>
       throw (Js.mkError
                ("Failed to load SoundJS: Error: " +:+ Js.message error))).

(** [initialize()] up to its first suspension, [await this.loadSoundJS()].
    What follows runs from the event loop: a rejection of the awaited
    promise ends in [handleError]; otherwise the load is settled by
    [handleSoundLoad], [handleSoundError] or [loadTimeout]. *)
Definition initialize (w : World) : M (Js.outcome unit) :=
  setState PlayerState.loading;;
  log Console.info Console.Initializing;;
  try_catch
    (loadSoundJS w;; mret (Js.Returns tt))
    (fun error => mret (Js.Throws error)).

(** The field initialisers and the assignments of the constructor. *)
Definition fields (w : World) (src : string)
  (config : Raw.WechatAudioConfig) : Player :=
  let cfg := merged w src config in
  {| config := cfg;
     state := PlayerState.idle;
     soundInstance := None;
     audioId := Cfg.id (Cfg.loadOptions cfg);
     destroyed := false;
     eventListeners := ∅;
     environmentInfo :=
       detectEnvironment (unicode w) (navigatorUserAgent w) (protocol w);
     audioLoaded := false;
     weixinReady := false |}.

(** The constructor past its guard: the object as it is when [initialize]
    suspends, together with the pending outcome of [loadSoundJS]. *)
Definition construct (w : World) (src : string)
  (config : Raw.WechatAudioConfig) : Run (Js.outcome unit) :=
  (bindConfigCallbacks;; initialize w) (fields w src config).

(** [new WechatAudioPlayer(config)] *)
Definition constructor (w : World) (config : Raw.WechatAudioConfig)
  : Js.outcome (Run (Js.outcome unit)) :=
  if Js.falsy (Raw.src config) || negb (Js.is_string (Raw.src config))
  then Js.Throws
         (Js.mkError "Audio source (src) is required and must be a valid URL")
  else
    let src :=
      match Raw.src config with Js.VString s => s | _ => "" end in
    Js.Returns (construct w src config).

(** ** The player as a transition system *)

(** Everything that can happen to a constructed player: a call of a public
    method, or a callback run by the event loop. *)
Inductive Input :=
| DoPlay (env : PlayEnv)
| DoPause (paused : Js.outcome unit)
| DoStop (stopped : Js.outcome unit)
| DoSetVolume (volume : Js.value) (applied : Js.outcome unit)
| DoSetMuted (muted : bool) (applied : Js.outcome unit)
| DoSetLoop (loop : bool)
| DoOn (event : Ev.name) (listener : Listener)
| DoOff (event : Ev.name) (listener : Listener)
| DoDestroy (env : DestroyEnv)
| FileLoad (id : Js.value) (env : PlayEnv)
| FileError (id : Js.value) (message : option string)
| LoadTimeout
| Complete
| InitializeRejected (error : Js.Error).

Definition step (i : Input) : M unit :=
  match i with
  | DoPlay env => play env
  | DoPause paused => pause paused
  | DoStop stopped => stop stopped
  | DoSetVolume volume applied => setVolume volume applied
  | DoSetMuted muted applied => setMuted muted applied
  | DoSetLoop loop => setLoop loop
  | DoOn event listener => on event listener
  | DoOff event listener => off event listener
  | DoDestroy env => destroy env
  | FileLoad id env => handleSoundLoad id env
  | FileError id message => handleSoundError id message
  | LoadTimeout => loadTimeout
  | Complete => onComplete
  | InitializeRejected error => handleError error
  end.

(** The fields after a sequence of inputs, whatever each call returned. *)
Fixpoint run (inputs : list Input) (p : Player) : Run unit :=
  match inputs with
  | [] => mkRun (Js.Returns tt) p []
  | i :: rest =>
      let r := step i p in
      after_saying (trace r) (run rest (after r))
  end.

(** ** Reading a trace *)

Definition is_notification (o : Output) : bool :=
  match o with
  | Emitted _ _ | Delivered _ _ _ => true
  | Called _ | Logged _ _ => false
  end.

(** The calls of [emit] and the listener calls they made, in order. *)
Definition notifications (t : list Output) : list Output :=
  List.filter is_notification t.

(** The calls of [emit] alone, in order. *)
Fixpoint emissions (t : list Output) : list (Ev.name * list Arg) :=
  match t with
  | [] => []
  | Emitted event args :: t' => (event, args) :: emissions t'
  | _ :: t' => emissions t'
  end.

(** The arguments of the [statechange] emissions, in order. *)
Fixpoint announced (t : list Output) : list (list Arg) :=
  match t with
  | [] => []
  | Emitted Ev.statechange args :: t' => args :: announced t'
  | _ :: t' => announced t'
  end.

(** The listener calls that one [emit(event, ...args)] makes on [p]. *)
Definition deliveries (p : Player) (event : Ev.name) (args : list Arg)
  : list Output :=
  map (fun l => Delivered l event args)
      (default [] (eventListeners p !! event)).

(** [changes s l s']: [l] announces a walk from state [s] to state [s'];
    each entry carries one state and nothing else, and that state differs
    from the one before it. *)
Inductive changes
  : PlayerState.t -> list (list Arg) -> PlayerState.t -> Prop :=
| changes_nil s : changes s [] s
| changes_cons s x l s' :
    s <> x -> changes x l s' -> changes s ([AState x] :: l) s'.

(** The claim that a [statechange] of [setState newState] carries the state
    left behind as well as the new one. *)
Definition carries_old_and_new (p : Player) (newState : PlayerState.t)
  : Prop :=
  exists args,
    In (Emitted Ev.statechange args) (trace (setState newState p)) /\
    In (AState (state p)) args /\ In (AState newState) args.

(** The claim that a trace announces [playing] and, later, emits [play]. *)
Definition statechange_before_play (t : list Output) : Prop :=
  exists pre mid post,
    t = pre ++ Emitted Ev.statechange [AState PlayerState.playing]
            :: mid ++ Emitted Ev.play [] :: post.

(** The claim that a call is silently ignored: no field changes (state and
    configuration among them) and nothing is emitted. *)
Definition ignored (call : M unit) (p : Player) : Prop :=
  after (call p) = p /\ emissions (trace (call p)) = [].

(** A destroy whose teardown raises nothing. *)
Definition quiet (env : DestroyEnv) : Prop :=
  instanceStopped env = Js.Returns tt /\
  instanceDestroyed env = Js.Returns tt /\
  soundRemoved env = Js.Returns tt /\
  fileloadOff env = Js.Returns tt /\
  fileerrorOff env = Js.Returns tt.

(** A number that is finite and lies in the interval from 0 to 1. *)
Definition finite_in_unit_interval (x : float) : bool :=
  PrimFloat.is_finite x && (0 <=? x)%float && (x <=? 1)%float.

(** ** What the private methods say *)

(** What [log] writes on the console of [p]. *)
Definition logged (l : Console.level) (t : Console.text) (p : Player)
  : list Output :=
  if negb (Cfg.debug (config p)) && Console.is_debug l then []
  else [Logged l t].

(** What [emit] says after its own entry: each listener in turn, and the
    console line for a listener that raised. *)
Definition told (event : Ev.name) (args : list Arg) (p : Player)
  (l : Listener) : list Output :=
  Delivered l event args ::
  (if raises l then [Logged Console.error (Console.ListenerError event l)]
   else []).

(** What [emit(event, ...args)] says on [p]. *)
Definition emitting (event : Ev.name) (args : list Arg) (p : Player)
  : list Output :=
  Emitted event args ::
  concat (map (told event args p) (default [] (eventListeners p !! event))).

(** What [setState] says when the state changes. *)
Definition announcing (newState : PlayerState.t) (p : Player) : list Output :=
  emitting Ev.statechange [AState newState] (with_state newState p) ++
  logged Console.debug (Console.StateChanged (state p) newState)
         (with_state newState p).

(** What [setState(newState)] says on [p]. *)
Definition stating (newState : PlayerState.t) (p : Player) : list Output :=
  if bool_decide (state p = newState) then [] else announcing newState p.

(** ** Predicates on methods *)

(** [tracks m]: in any run of [m], the [statechange] emissions walk from the
    state before to the state after. *)
Definition tracks {A} (m : M A) : Prop :=
  forall p, changes (state p) (announced (trace (m p))) (state (after (m p))).

(** [preserves f m]: no run of [m] changes the reading [f] of the fields. *)
Definition preserves {A B} (f : Player -> B) (m : M A) : Prop :=
  forall p, f (after (m p)) = f p.

(** [never_throws m]: every run of [m] returns. *)
Definition never_throws {A} (m : M A) : Prop :=
  forall p, exists a, result (m p) = Js.Returns a.

(** ** The getters

    The getters read the fields and, for the times, the engine; they change
    nothing. What they ask the engine is returned beside their value. *)

Inductive EngineRead :=
| GetPosition (h : SoundInstance)
| GetDuration (h : SoundInstance).

(** [getCurrentTime()]; [position] is the engine's answer to
    [soundInstance.getPosition()]. *)
Definition getCurrentTime (position : Js.outcome float) (p : Player)
  : float * list EngineRead :=
  match soundInstance p with
  | None => (0%float, [])
  | Some h =>
      (match position with
       | Js.Returns x => (x / 1000)%float
       | Js.Throws _ => 0%float
       end,
       [GetPosition h])
  end.

(** [getDuration()]; [duration] is the engine's answer to
    [soundInstance.getDuration()]. *)
Definition getDuration (duration : Js.outcome float) (p : Player)
  : float * list EngineRead :=
  match soundInstance p with
  | None => (0%float, [])
  | Some h =>
      (match duration with
       | Js.Returns x => (x / 1000)%float
       | Js.Throws _ => 0%float
       end,
       [GetDuration h])
  end.

(** [PlayerStatus] *)
Module Status.
Record t := {
  state : PlayerState.t;
  isPlaying : bool;
  volume : float;
  muted : bool;
  loop : bool;
  currentTime : float;
  duration : float;
  loadProgress : float;
  environment : EnvironmentInfo
}.
End Status.

(** [getStatus()] *)
Definition getStatus (position duration : Js.outcome float) (p : Player)
  : Status.t * list EngineRead :=
  let '(currentTime, reads1) := getCurrentTime position p in
  let '(total, reads2) := getDuration duration p in
  ({| Status.state := state p;
      Status.isPlaying := PlayerState.eqb (state p) PlayerState.playing;
      Status.volume := Cfg.volume (config p);
      Status.muted := Cfg.muted (config p);
      Status.loop := Cfg.loop (config p);
      Status.currentTime := currentTime;
      Status.duration := total;
      Status.loadProgress := if audioLoaded p then 1%float else 0%float;
      Status.environment := environmentInfo p |},
   reads1 ++ reads2).

(** ** [SoundJSBundle] ([src/vendor/soundjs-bundle.ts])

    The class has one static field, [initialized]; its methods read
    [window.createjs]. *)

Module SoundJSBundle.

(** What [window.createjs] holds and answers. *)
Record Window := {
  Sound : bool;
      (** [window.createjs?.Sound] is there *)
  version : option string;
      (** [window.createjs.version] *)
  volumeSet : Js.outcome unit
      (** answer to [Sound.setVolume(0.8)] *)
}.

(** What the class does to the engine and to the console. *)
Inductive Effect :=
| SetAlternateExtensions (extensions : list string)
| SetVolume (x : float)
| Warn (e : Js.Error).

(** [isInitialized()] *)
Definition isInitialized (w : Window) (initialized : bool) : bool :=
  initialized && Sound w.

(** [configureSoundJS()]: what goes wrong is caught and warned about. *)
Definition configureSoundJS (w : Window) : list Effect :=
  if negb (Sound w) then []
  else
    SetAlternateExtensions ["mp3"; "ogg"; "wav"; "m4a"]
    :: SetVolume default_volume
    :: match volumeSet w with
       | Js.Returns _ => []
       | Js.Throws e => [Warn e]
       end.

(** [initialize()]: its outcome, the field afterwards, and its effects. *)
Definition initialize (w : Window) (initialized : bool)
  : Js.outcome unit * bool * list Effect :=
  if initialized then (Js.Returns tt, initialized, [])
  else if negb (Sound w) then
    let error :=
      Js.mkError
        "SoundJS not available: please ensure it is properly imported" in
    (Js.Throws
       (Js.mkError ("Failed to initialize SoundJS: " +:+ Js.message error)),
     initialized, [])
  else (Js.Returns tt, true, configureSoundJS w).

(** [window.createjs.version || '1.0.0'] *)
Definition version_or_default (v : option string) : string :=
  match v with
  | Some (String c s) => String c s
  | _ => "1.0.0"
  end.

(** [getVersion()] *)
Definition getVersion (w : Window) (initialized : bool) : string :=
  if negb (isInitialized w initialized) then "not-initialized"
  else version_or_default (version w).

(** [reset()] *)
Definition reset (initialized : bool) : bool := false.

(** What [loadSoundJS] gets from the bundle: [initialize()], then
    [getVersion()]. *)
Definition load (w : Window) (initialized : bool) : Js.outcome string :=
  match initialize w initialized with
  | (Js.Returns _, initialized', _) => Js.Returns (getVersion w initialized')
  | (Js.Throws e, _, _) => Js.Throws e
  end.

End SoundJSBundle.

(** ** More readings of a trace and of the fields *)

(** The engine calls, in order. *)
Fixpoint engine_calls (t : list Output) : list EngineCall :=
  match t with
  | [] => []
  | Called c :: t' => c :: engine_calls t'
  | _ :: t' => engine_calls t'
  end.

(** The console lines, in order. *)
Fixpoint console_lines (t : list Output)
  : list (Console.level * Console.text) :=
  match t with
  | [] => []
  | Logged l x :: t' => (l, x) :: console_lines t'
  | _ :: t' => console_lines t'
  end.

(** The listener calls, in order. *)
Fixpoint listener_calls (t : list Output)
  : list (Listener * Ev.name * list Arg) :=
  match t with
  | [] => []
  | Delivered l event args :: t' => (l, event, args) :: listener_calls t'
  | _ :: t' => listener_calls t'
  end.

(** The volumes the engine is told, by [Sound.play] or by
    [soundInstance.setVolume], in order. *)
Fixpoint told_volumes (t : list Output) : list float :=
  match t with
  | [] => []
  | Called (SoundPlay _ _ x) :: t' => x :: told_volumes t'
  | Called (InstanceSetVolume _ x) :: t' => x :: told_volumes t'
  | _ :: t' => told_volumes t'
  end.

(** [o] is a call [emit(event, ...)]. *)
Definition emits (event : Ev.name) (o : Output) : bool :=
  match o with
  | Emitted ev _ => bool_decide (ev = event)
  | _ => false
  end.

(** How often [event] is emitted in a trace. *)
Definition times_emitted (event : Ev.name) (t : list Output) : nat :=
  length (List.filter (emits event) t).

(** The functions of the host application among [ls]. *)
Definition host_functions (ls : list Listener) : list Listener :=
  List.filter (fun l => match l with Fn _ _ => true | Noop _ => false end)
    ls.

(** The volume the player means the engine to have: 0 when muted. *)
Definition effective_volume (p : Player) : float :=
  if Cfg.muted (config p) then 0%float else Cfg.volume (config p).

(** The listeners of [event], in the order they were added. *)
Definition listeners_of (p : Player) (event : Ev.name) : list Listener :=
  default [] (eventListeners p !! event).

(** A registry in which no event maps to an empty set and no listener is
    held twice for one event. *)
Definition registry_ok (p : Player) : Prop :=
  forall event ls,
    eventListeners p !! event = Some ls -> ls <> [] /\ NoDup ls.

(** A destroyed player holds no handle. *)
Definition handle_released (p : Player) : Prop :=
  destroyed p = true -> soundInstance p = None.

(** What is fixed at construction: the identifier, the environment, and
    every key of the configuration but [volume], [muted] and [loop]. *)
Definition fixed (p : Player) :=
  (audioId p, environmentInfo p,
   (Cfg.src (config p), Cfg.autoplay (config p), Cfg.loadOptions (config p),
    Cfg.weixinConfig (config p), Cfg.debug (config p),
    Cfg.soundjsCDN (config p)),
   (Cfg.onReady (config p), Cfg.onPlay (config p), Cfg.onPause (config p),
    Cfg.onStop (config p), Cfg.onEnded (config p), Cfg.onError (config p),
    Cfg.onVolumeChange (config p), Cfg.onTimeUpdate (config p))).

(** A non-empty run of decimal digits. *)
Definition digit_run (s : string) : Prop :=
  s <> "" /\
  Forall (fun c => Text.is_digit c = true) (list_ascii_of_string s).

(** Three runs of digits separated by dots. *)
Definition dotted_triple (v : string) : Prop :=
  exists a b c,
    v = a +:+ "." +:+ b +:+ "." +:+ c /\
    digit_run a /\ digit_run b /\ digit_run c.

(** The listeners that [bindConfigCallbacks] registers for an event: the
    callback of the configuration that goes with it. *)
Definition configured (cfg : Cfg.t) (event : Ev.name) : list Listener :=
  match event with
  | Ev.ready => [Cfg.onReady cfg]
  | Ev.play => [Cfg.onPlay cfg]
  | Ev.pause => [Cfg.onPause cfg]
  | Ev.stop => [Cfg.onStop cfg]
  | Ev.ended => [Cfg.onEnded cfg]
  | Ev.error => [Cfg.onError cfg]
  | Ev.volumechange => [Cfg.onVolumeChange cfg]
  | Ev.timeupdate => [Cfg.onTimeUpdate cfg]
  | Ev.progress | Ev.statechange => []
  end.

(** A destroyed player is neither playing nor paused. *)
Definition at_rest (p : Player) : Prop :=
  destroyed p = true ->
  state p <> PlayerState.playing /\ state p <> PlayerState.paused.

(** [tells_only v m]: run from fields whose effective volume is [v], [m]
    tells the engine no other volume than [v], leaves the effective volume
    at [v], and ends with a handle only if it had one or told a volume. *)
Definition tells_only {A} (v : float) (m : M A) : Prop :=
  forall p,
    effective_volume p = v ->
    Forall (fun x => x = v) (told_volumes (trace (m p))) /\
    effective_volume (after (m p)) = v /\
    (told_volumes (trace (m p)) = [] ->
     soundInstance (after (m p)) <> None -> soundInstance p <> None).

(** The volume told last, in the trace [t] of the whole life of [p], is the
    effective volume of [p], as far as [p] holds a handle. *)
Definition volume_in_sync (p : Player) (t : list Output) : Prop :=
  soundInstance p <> None ->
  last (told_volumes t) = Some (effective_volume p).

(** [keeps P m]: a run of [m] from fields that satisfy [P] ends in fields
    that satisfy [P]. *)
Definition keeps {A} (P : Player -> Prop) (m : M A) : Prop :=
  forall p, P p -> P (after (m p)).

(** ** Listeners that call the player back

    [emit] calls its listeners synchronously, so a listener of the host
    application can call the public methods of the player before it
    returns: the [onError] of the sound panel calls [destroy()], the
    [onEnded] of the playlist destroys the player on its way to the next
    track, and an [onReady] may call [setVolume]. The methods are written
    here once more, with such listeners: every [this.x] is read where the
    source reads it, and the handles on which [on('complete')] returned
    are kept, so that a completion reaches the player only through a
    listener it attached.

    Out of the model: a listener that does not return, and a listener
    that calls [on] or [off] of the player while an event is delivered
    ([Set.prototype.forEach] visits what is added meanwhile, so that a
    listener which adds a new one at each call keeps [emit] going for
    ever). The listeners of an event are then the ones the set holds when
    [emit] fetches it; [destroy] clears the map and leaves that set as it
    is. *)

Module Live.

(** A call of a public method made by a listener, with what the engine
    answers during it. *)
Inductive Callback :=
| CallPlay (env : PlayEnv)
| CallPause (paused : Js.outcome unit)
| CallStop (stopped : Js.outcome unit)
| CallSetVolume (volume : Js.value) (applied : Js.outcome unit)
| CallSetMuted (muted : bool) (applied : Js.outcome unit)
| CallSetLoop (loop : bool)
| CallDestroy (env : DestroyEnv).

(** What one call of a listener does: it returns, it throws, or it calls a
    method and goes on from what the call returned and from the fields as
    the getters then show them. *)
Inductive Script :=
| Return
| Throw
| Do (c : Callback) (next : Js.outcome unit -> Player -> Script).

(** The host application: what the [n]-th listener call of the player's
    life does, given the function called, its arguments, and the fields at
    that moment. A function [Fn id true] throws when its script is over. *)
Definition Host : Type := nat -> Listener -> list Arg -> Player -> Script.

(** The player, the handles that carry a ['complete'] listener of the
    player (one entry for each [on('complete')] that returned), and the
    number of listener calls made so far. *)
Record Stage := {
  self : Player;
  attached : list SoundInstance;
  clock : nat
}.

Definition with_self (p : Player) (s : Stage) : Stage :=
  {| self := p; attached := attached s; clock := clock s |}.

Definition with_attached (hs : list SoundInstance) (s : Stage) : Stage :=
  {| self := self s; attached := hs; clock := clock s |}.

(** [n] listener calls later. *)
Definition later (n : nat) (s : Stage) : Stage :=
  {| self := self s; attached := attached s; clock := clock s + n |}.


(** A player that made no listener call and attached no listener yet. *)
Definition enter (p : Player) : Stage :=
  {| self := p; attached := []; clock := 0 |}.

Record Run (A : Type) := mkRun {
  returned : Js.outcome A;
  stage : Stage;
  said : list Output
}.
Arguments mkRun {A} returned stage said.
Arguments returned {A} r.
Arguments stage {A} r.
Arguments said {A} r.

(** A method that calls no listener, run on the fields of the stage. *)
Definition lift {A} (m : M A) : Stage -> Run A :=
  fun s =>
    let r := m (self s) in
    mkRun (result r) (with_self (after r) s) (trace r).

Definition M (A : Type) : Type := Stage -> Run A.

#[global] Instance M_ret : MRet M :=
  fun A a s => mkRun (Js.Returns a) s [].

Definition saying {A} (t : list Output) (r : Run A) : Run A :=
  mkRun (returned r) (stage r) (t ++ said r).
Arguments saying {A} t !r /.

#[global] Instance M_bind : MBind M :=
  fun A B k m s =>
    match m s with
    | mkRun (Js.Returns a) s' t => saying t (k a s')
    | mkRun (Js.Throws e) s' t => mkRun (Js.Throws e) s' t
    end.

Definition throw {A} (e : Js.Error) : M A :=
  fun s => mkRun (Js.Throws e) s [].

(** [try { body } catch (error) { handler }] *)
Definition try_catch {A} (body : M A) (handler : Js.Error -> M A) : M A :=
  fun s =>
    match body s with
    | mkRun (Js.Returns a) s' t => mkRun (Js.Returns a) s' t
    | mkRun (Js.Throws e) s' t => saying t (handler e s')
    end.

Definition get : M Player := fun s => mkRun (Js.Returns (self s)) s [].

Definition here : M Stage := fun s => mkRun (Js.Returns s) s [].

Definition modify (f : Player -> Player) : M unit :=
  fun s => mkRun (Js.Returns tt) (with_self (f (self s)) s) [].

Definition attach (h : SoundInstance) : M unit :=
  fun s => mkRun (Js.Returns tt) (with_attached (h :: attached s) s) [].

Definition tick : M unit :=
  fun s => mkRun (Js.Returns tt) (later 1 s) [].

Definition say (o : Output) : M unit :=
  fun s => mkRun (Js.Returns tt) s [o].

Definition call {A} (c : EngineCall) (answer : Js.outcome A) : M A :=
  fun s => mkRun answer s [Called c].

Definition skip : M unit := mret tt.

Definition log (level : Console.level) (message : Console.text) : M unit :=
  lift (log level message).

Fixpoint forEach {A} (f : A -> M unit) (l : list A) : M unit :=
  match l with
  | [] => skip
  | x :: l' => f x;; forEach f l'
  end.

(** What the caller of [m] gets. *)
Definition outcome_of (m : M unit) : M (Js.outcome unit) :=
  try_catch (m;; mret (Js.Returns tt)) (fun e => mret (Js.Throws e)).

Section Methods.

(** What the call [listener(...args)] does. *)
Variable invoke : Listener -> list Arg -> M unit.

(** One turn of [listeners.forEach] in [emit]. *)
Definition notify (event : Ev.name) (args : list Arg) (l : Listener)
  : M unit :=
  say (Delivered l event args);;
  try_catch (invoke l args)
    (fun _ => log Console.error (Console.ListenerError event l)).

(** [emit(event, ...args)] *)
Definition emit (event : Ev.name) (args : list Arg) : M unit :=
  say (Emitted event args);;
  p ← get;
  match eventListeners p !! event with
  | Some listeners => forEach (notify event args) listeners
  | None => skip
  end.

(** [setState(newState)] *)
Definition setState (newState : PlayerState.t) : M unit :=
  p ← get;
  if negb (PlayerState.eqb (state p) newState) then
    let oldState := state p in
    modify (with_state newState);;
    emit Ev.statechange [AState newState];;
    log Console.debug (Console.StateChanged oldState newState)
  else skip.

(** [handleError(error)] *)
Definition handleError (error : Js.Error) : M unit :=
  setState PlayerState.error;;
  emit Ev.error [AError error];;
  log Console.error (Console.PlayerError error).

(** The listener that [setupSoundInstanceEvents] attaches to ['complete']. *)
Definition onComplete : M unit :=
  p ← get;
  if negb (Cfg.loop (config p)) then
    setState PlayerState.stopped;;
    emit Ev.ended [];;
    log Console.info Console.PlaybackCompleted
  else skip.

(** [setupSoundInstanceEvents()]: the listener is attached when the
    engine's [on] returns. *)
Definition setupSoundInstanceEvents (subscribed : Js.outcome unit)
  : M unit :=
  p ← get;
  match soundInstance p with
  | None => skip
  | Some h =>
      try_catch
        (call (InstanceOn h "complete") subscribed;;
         attach h)
        (fun error => log Console.error (Console.FailedToSetupEvents error))
  end.


(** [play()] *)
Definition play (env : PlayEnv) : M unit :=
  p ← get;
  if destroyed p then throw (Js.mkError "Player has been destroyed")
  else if negb (audioLoaded p) then throw (Js.mkError "Audio not loaded yet")
  else if negb (sound env) then throw (Js.mkError "SoundJS not available")
  else
    try_catch
      (log Console.info Console.StartingPlayback;;
       match soundInstance p with
       | Some h => call (InstanceStop h) (stopped env)
       | None => skip
       end;;
       let loop := if Cfg.loop (config p) then (-1)%Z else 0%Z in
       let volume :=
         if Cfg.muted (config p) then 0%float else Cfg.volume (config p) in
       h ← call (SoundPlay (audioId p) loop volume) (created env);
       modify (with_soundInstance h);;
       match h with
       | None => throw (Js.mkError "Failed to create sound instance")
       | Some _ =>
           setupSoundInstanceEvents (subscribed env);;
           setState PlayerState.playing;;
           emit Ev.play [];;
           log Console.info Console.PlaybackStarted
       end)
      (fun err => handleError err;; throw err).

(** [pause()] *)
Definition pause (paused : Js.outcome unit) : M unit :=
  p ← get;
  match destroyed p, soundInstance p with
  | false, Some h =>
      try_catch
        (call (InstancePause h) paused;;
         setState PlayerState.paused;;
         emit Ev.pause [];;
         log Console.info Console.AudioPaused)
        (fun error => log Console.error (Console.FailedToPause error))
  | _, _ => skip
  end.

(** [stop()] *)
Definition stop (stopped : Js.outcome unit) : M unit :=
  p ← get;
  match destroyed p, soundInstance p with
  | false, Some h =>
      try_catch
        (call (InstanceStop h) stopped;;
         setState PlayerState.stopped;;
         emit Ev.stop [];;
         log Console.info Console.AudioStopped)
        (fun error => log Console.error (Console.FailedToStop error))
  | _, _ => skip
  end.

(** [setVolume(volume)] *)
Definition setVolume (volume : Js.value) (applied : Js.outcome unit)
  : M unit :=
  if volume_rejected volume
  then throw (Js.mkError "Volume must be a number between 0 and 1")
  else
    let x := as_number volume in
    modify (with_config (Cfg.with_volume x));;
    p ← get;
    match soundInstance p, Cfg.muted (config p) with
    | Some h, false =>
        try_catch
          (call (InstanceSetVolume h x) applied)
          (fun error => log Console.error (Console.FailedToSetVolume error))
    | _, _ => skip
    end;;
    emit Ev.volumechange [ANumber x];;
    log Console.debug (Console.VolumeSet x).

(** [destroy()] *)
Definition destroy (env : DestroyEnv) : M unit :=
  p ← get;
  if destroyed p then skip
  else
    log Console.info Console.Destroying;;
    try_catch
      (match soundInstance p with
       | Some h =>
           call (InstanceStop h) (instanceStopped env);;
           call (InstanceDestroy h) (instanceDestroyed env);;
           modify (with_soundInstance None)
       | None => skip
       end;;
       (if engine env && audioLoaded p
        then call (SoundRemoveSound (audioId p)) (soundRemoved env)
        else skip);;
       modify (with_eventListeners ∅);;
       (if engine env
        then call (SoundOff "fileload") (fileloadOff env);;
             call (SoundOff "fileerror") (fileerrorOff env)
        else skip);;
       setState PlayerState.idle;;
       modify (with_destroyed true);;
       log Console.info Console.Destroyed)
      (fun error => log Console.error (Console.ErrorDuringDestroy error)).

(** [handleSoundLoad(event)] *)
Definition handleSoundLoad (id : Js.value) (env : PlayEnv) : M unit :=
  p ← get;
  if Js.strict_eq_string id (audioId p) then
    modify (with_audioLoaded true);;
    setState PlayerState.ready;;
    log Console.info Console.AudioLoaded;;
    emit Ev.ready [];;
    p' ← get;
    if Cfg.autoplay (config p') then
      try_catch (play env)
        (fun error => log Console.warn (Console.AutoplayFailed error))
    else skip
  else skip.

(** [handleSoundError(event)] *)
Definition handleSoundError (id : Js.value) (message : option string)
  : M unit :=
  p ← get;
  if Js.strict_eq_string id (audioId p) then
    handleError
      (Js.mkError ("Audio load error: " +:+ message_or_unknown message))
  else skip.

(** One turn of [checkLoad], the poll of [loadAudio], while the promise it
    settles is pending: past a load it resolves; in the [error] state it
    rejects with "Audio load failed", which [loadAudio] wraps; otherwise
    it asks for another turn. Outside WeChat [initialize] awaits
    [loadAudio] inside its [try], so the rejection ends in [handleError];
    in WeChat [setupWeixinEnvironment] drops it. *)
Definition checkLoad : M unit :=
  p ← get;
  if audioLoaded p then skip
  else if PlayerState.eqb (state p) PlayerState.error then
    if isWeixin (environmentInfo p) then skip
    else
      handleError
        (Js.mkError ("Failed to load audio: Error: " +:+ "Audio load failed"))
  else skip.

(** A call of a public method from a listener. [play()] hands back a
    promise whatever happens in it; the other methods return or throw. *)
Definition perform (c : Callback) : M (Js.outcome unit) :=
  match c with
  | CallPlay env =>
      try_catch (play env) (fun _ => skip);; mret (Js.Returns tt)
  | CallPause paused => outcome_of (pause paused)
  | CallStop stopped => outcome_of (stop stopped)
  | CallSetVolume volume applied => outcome_of (setVolume volume applied)
  | CallSetMuted muted applied => outcome_of (lift (setMuted muted applied))
  | CallSetLoop loop => outcome_of (lift (setLoop loop))
  | CallDestroy env => outcome_of (destroy env)
  end.

End Methods.

(** What a listener throws. *)
Definition thrown : Js.Error := Js.mkError "listener".

(** [RangeError], when the call stack is used up. *)
Definition overflow : Js.Error :=
  Js.mkError "Maximum call stack size exceeded".

(** A listener runs its script, each call through [perform]. *)
Fixpoint follow (perform : Callback -> M (Js.outcome unit)) (s : Script)
  : M unit :=
  match s with
  | Return => skip
  | Throw => throw thrown
  | Do c next =>
      r ← perform c;
      p ← get;
      follow perform (next r p)
  end.

(** The call [listener(...args)] when the stack holds [depth] more nested
    listener calls: with none left, every call of a method from the
    listener throws [RangeError] at once. *)
Fixpoint calls (host : Host) (depth : nat) (l : Listener) (args : list Arg)
  : M unit :=
  match l with
  | Noop _ => skip
  | Fn _ raises =>
      s ← here;
      tick;;
      follow
        (match depth with
         | 0 => fun _ => mret (Js.Throws overflow)
         | S d => perform (calls host d)
         end)
        (host (clock s) l args (self s));;
      if raises then throw thrown else skip
  end.

(** A listener that does not call back. *)
Definition quiet (host : Host) (l : Listener) : Prop :=
  match l with
  | Noop _ => True
  | Fn _ _ => forall n args p, host n l args p = Return
  end.

(** The listeners of [event] on [p] do not call back. *)
Definition quiet_on (host : Host) (p : Player) (event : Ev.name) : Prop :=
  Forall (quiet host) (listeners_of p event).

End Live.

(** ** Predicates on methods whose listeners call back *)

(** Every run of [m] returns. *)
Definition live_returns (m : Live.M unit) : Prop :=
  forall s, Live.returned (m s) = Js.Returns tt.

(** A run of [m] from fields that satisfy [P] ends in fields that satisfy
    [P]. *)
Definition live_keeps {A} (P : Player -> Prop) (m : Live.M A) : Prop :=
  forall s, P (Live.self s) -> P (Live.self (Live.stage (m s))).

(** No run of [m] emits [event]. *)
Definition silent_about (event : Ev.name) {A} (m : Live.M A) : Prop :=
  forall s, times_emitted event (Live.said (m s)) = 0.

(** The listeners that a [setState(newState)] on [p] calls. *)
Definition announced_to (p : Player) (newState : PlayerState.t)
  : list Listener :=
  if bool_decide (state p = newState) then []
  else listeners_of p Ev.statechange.

(** A player as the constructor leaves it. *)
Definition newly_made (q : Player) : Prop :=
  state q = PlayerState.loading /\
  audioLoaded q = false /\
  destroyed q = false /\
  soundInstance q = None /\
  forall event, listeners_of q event = configured (config q) event.

(** ** Concrete players *)

Module Sample.

Definition world : World :=
  {| now := 1700000000000;
     random36 := "0.4fzyo82mvyr";
     navigatorUserAgent :=
       "Mozilla/5.0 (iPhone; CPU iPhone OS 16_0 like Mac OS X) MicroMessenger/8.0.30";
     protocol := "https:";
     unicode := Text.plain;
     bundle := Js.Returns "1.0.0";
     soundjs := true;
     fileloadOn := Js.Returns tt;
     fileerrorOn := Js.Returns tt |}.

(** [new WechatAudioPlayer({ src: 'a.mp3' })], then a listener for
    [statechange] and one for [volumechange]. *)
Definition fresh : Player :=
  Eval vm_compute in
  after ((on Ev.statechange (Fn 1 false);;
          on Ev.volumechange (Fn 2 false))
           (after (construct world "a.mp3"
                     (Raw.only_src (Js.VString "a.mp3"))))).

Definition engine_ok (h : SoundInstance) : PlayEnv :=
  {| sound := true;
     stopped := Js.Returns tt;
     created := Js.Returns (Some h);
     subscribed := Js.Returns tt |}.

Definition teardown_ok : DestroyEnv :=
  {| engine := true;
     instanceStopped := Js.Returns tt;
     instanceDestroyed := Js.Returns tt;
     soundRemoved := Js.Returns tt;
     fileloadOff := Js.Returns tt;
     fileerrorOff := Js.Returns tt |}.

(** The first call on the handle fails. *)
Definition teardown_stop_fails : DestroyEnv :=
  {| engine := true;
     instanceStopped := Js.Throws (Js.mkError "stop failed");
     instanceDestroyed := Js.Returns tt;
     soundRemoved := Js.Returns tt;
     fileloadOff := Js.Returns tt;
     fileerrorOff := Js.Returns tt |}.

(** The load completed. *)
Definition loaded : Player :=
  Eval vm_compute in
  after (handleSoundLoad (Js.VString (audioId fresh)) (engine_ok 1) fresh).

(** The load completed and [play()] succeeded. *)
Definition started : Player :=
  Eval vm_compute in after (play (engine_ok 1) loaded).

(** Destroyed while playing. *)
Definition gone : Player :=
  Eval vm_compute in after (destroy teardown_ok started).

(** A host application whose listener of [statechange] calls
    [setVolume(0.5)]; its other listeners return at once. *)
Definition caller : Live.Host :=
  fun _ l _ _ =>
    match l with
    | Fn 1 _ =>
        Live.Do (Live.CallSetVolume (Js.VNumber 0.5) (Js.Returns tt))
          (fun _ _ => Live.Return)
    | _ => Live.Return
    end.



(** The sound panel: its [onError] calls [destroy()]. *)
Definition panel_config : Raw.WechatAudioConfig :=
  {| Raw.src := Js.VString "a.mp3"; Raw.autoplay := None; Raw.loop := None;
     Raw.volume := None; Raw.muted := None; Raw.loadOptions := None;
     Raw.weixinConfig := None; Raw.debug := None; Raw.soundjsCDN := None;
     Raw.callback :=
       fun slot =>
         match slot with
         | onError => Some (Fn 5 false)
         | _ => None
         end |}.

Definition panel : Live.Host :=
  fun _ l _ _ =>
    match l with
    | Fn 5 _ => Live.Do (Live.CallDestroy teardown_ok) (fun _ _ => Live.Return)
    | _ => Live.Return
    end.


End Sample.

(** * Properties *)

(** ** The monad *)

Lemma bind_run {A B} (m : M A) (k : A -> M B) p :
  (m ≫= k) p =
  match result (m p) with
  | Js.Returns a => after_saying (trace (m p)) (k a (after (m p)))
  | Js.Throws e => mkRun (Js.Throws e) (after (m p)) (trace (m p))
  end.
Proof. unfold mbind, M_bind. now destruct (m p) as [[a|e] p' t]. Qed.

Lemma try_catch_run {A} (body : M A) handler p :
  try_catch body handler p =
  match result (body p) with
  | Js.Returns a => body p
  | Js.Throws e => after_saying (trace (body p)) (handler e (after (body p)))
  end.
Proof. unfold try_catch. now destruct (body p) as [[a|e] p' t]. Qed.

(** ** [log], [emit] and [setState] return, and say what is expected *)

Lemma log_run l t p : log l t p = mkRun (Js.Returns tt) p (logged l t p).
Proof.
  unfold log, logged, mbind, M_bind. cbn.
  now destruct (negb (Cfg.debug (config p)) && Console.is_debug l).
Qed.

Lemma logged_loud l t p :
  Console.is_debug l = false -> logged l t p = [Logged l t].
Proof. intros H. unfold logged. now rewrite H, andb_false_r. Qed.

Lemma notify_run event args l p :
  notify event args l p = mkRun (Js.Returns tt) p (told event args p l).
Proof.
  unfold notify, told, mbind, M_bind. cbn.
  destruct (raises l); cbn; [|reflexivity].
  now rewrite log_run, logged_loud.
Qed.

Lemma forEach_notify_run event args ls p :
  forEach (notify event args) ls p =
  mkRun (Js.Returns tt) p (concat (map (told event args p) ls)).
Proof.
  induction ls as [|l ls IH]; [reflexivity|].
  cbn [forEach]. rewrite bind_run, notify_run. cbn. now rewrite IH.
Qed.

Lemma emit_run event args p :
  emit event args p = mkRun (Js.Returns tt) p (emitting event args p).
Proof.
  unfold emit, emitting, mbind, M_bind. cbn.
  destruct (eventListeners p !! event) as [ls|]; cbn; [|reflexivity].
  now rewrite forEach_notify_run.
Qed.

Lemma notifications_app t1 t2 :
  notifications (t1 ++ t2) = notifications t1 ++ notifications t2.
Proof. apply List.filter_app. Qed.

Lemma emissions_app t1 t2 : emissions (t1 ++ t2) = emissions t1 ++ emissions t2.
Proof.
  induction t1 as [|o t1 IH]; [reflexivity|].
  destruct o; cbn; now rewrite IH.
Qed.

Lemma announced_app t1 t2 : announced (t1 ++ t2) = announced t1 ++ announced t2.
Proof.
  induction t1 as [|o t1 IH]; [reflexivity|].
  destruct o as [ev args| | |]; cbn; try assumption.
  destruct ev; try assumption. now rewrite IH.
Qed.

Lemma notifications_told event args p ls :
  notifications (concat (map (told event args p) ls)) =
  map (fun l => Delivered l event args) ls.
Proof.
  induction ls as [|l ls IH]; [reflexivity|].
  cbn [map concat]. rewrite notifications_app, IH.
  unfold told. now destruct (raises l).
Qed.

Lemma notifications_emitting event args p :
  notifications (emitting event args p) =
  Emitted event args :: deliveries p event args.
Proof.
  unfold emitting, deliveries. cbn. f_equal. apply notifications_told.
Qed.

Lemma emissions_told event args p ls :
  emissions (concat (map (told event args p) ls)) = [].
Proof.
  induction ls as [|l ls IH]; [reflexivity|].
  cbn [map concat]. rewrite emissions_app, IH.
  unfold told. now destruct (raises l).
Qed.

Lemma emissions_emitting event args p :
  emissions (emitting event args p) = [(event, args)].
Proof. unfold emitting. cbn. now rewrite emissions_told. Qed.

Lemma announced_told event args p ls :
  announced (concat (map (told event args p) ls)) = [].
Proof.
  induction ls as [|l ls IH]; [reflexivity|].
  cbn [map concat]. rewrite announced_app, IH.
  unfold told. now destruct (raises l).
Qed.

Lemma notifications_logged l t p : notifications (logged l t p) = [].
Proof. unfold logged. now destruct (_ && _). Qed.

Lemma emissions_logged l t p : emissions (logged l t p) = [].
Proof. unfold logged. now destruct (_ && _). Qed.

Lemma announced_logged l t p : announced (logged l t p) = [].
Proof. unfold logged. now destruct (_ && _). Qed.

Lemma with_state_same p : with_state (state p) p = p.
Proof. now destruct p. Qed.

Lemma setState_run newState p :
  setState newState p =
  mkRun (Js.Returns tt) (with_state newState p) (stating newState p).
Proof.
  unfold setState, stating, announcing, PlayerState.eqb, mbind, M_bind. cbn.
  destruct (bool_decide_reflect (state p = newState)) as [<-|_]; cbn.
  - now rewrite with_state_same.
  - now rewrite emit_run, log_run.
Qed.

Lemma announced_emitting event args p :
  announced (emitting event args p) =
  if bool_decide (event = Ev.statechange) then [args] else [].
Proof.
  unfold emitting.
  destruct event; cbn; now rewrite announced_told.
Qed.

Lemma announced_announcing newState p :
  announced (announcing newState p) = [[AState newState]].
Proof.
  unfold announcing.
  now rewrite announced_app, announced_emitting, announced_logged.
Qed.

(** ** Every change of state is announced, and nothing else is *)

Lemma changes_app s l1 s1 l2 s2 :
  changes s l1 s1 -> changes s1 l2 s2 -> changes s (l1 ++ l2) s2.
Proof.
  induction 1 as [|s x l s' Hne _ IH]; intros H2; [assumption|].
  cbn. constructor; auto.
Qed.

Lemma tracks_ret {A} (a : A) : tracks (mret a).
Proof. intros p. constructor. Qed.

Lemma tracks_skip : tracks skip.
Proof. apply tracks_ret. Qed.

Lemma tracks_throw {A} e : tracks (@throw A e).
Proof. intros p. constructor. Qed.

Lemma tracks_get : tracks get.
Proof. intros p. constructor. Qed.

Lemma tracks_call {A} c (answer : Js.outcome A) : tracks (call c answer).
Proof. intros p. constructor. Qed.

Lemma tracks_modify f :
  (forall p, state (f p) = state p) -> tracks (modify f).
Proof. intros H p. cbn. rewrite H. constructor. Qed.

Lemma tracks_bind {A B} (m : M A) (k : A -> M B) :
  tracks m -> (forall a, tracks (k a)) -> tracks (m ≫= k).
Proof.
  intros Hm Hk p. rewrite bind_run.
  specialize (Hm p). destruct (result (m p)) as [a|e]; [|assumption].
  unfold after_saying; cbn [trace after].
  rewrite announced_app. eapply changes_app; [exact Hm|apply Hk].
Qed.

Lemma tracks_try_catch {A} (body : M A) handler :
  tracks body -> (forall e, tracks (handler e)) ->
  tracks (try_catch body handler).
Proof.
  intros Hb Hh p. rewrite try_catch_run.
  specialize (Hb p). destruct (result (body p)) as [a|e]; [assumption|].
  unfold after_saying; cbn [trace after].
  rewrite announced_app. eapply changes_app; [exact Hb|apply Hh].
Qed.

Lemma tracks_log l t : tracks (log l t).
Proof. intros p. rewrite log_run. cbn. rewrite announced_logged. constructor. Qed.

Lemma tracks_emit event args :
  event <> Ev.statechange -> tracks (emit event args).
Proof.
  intros H p. rewrite emit_run. cbn [trace after].
  rewrite announced_emitting, bool_decide_eq_false_2 by assumption.
  constructor.
Qed.

Lemma announced_stating newState p :
  announced (stating newState p) =
  if bool_decide (state p = newState) then [] else [[AState newState]].
Proof.
  unfold stating. destruct (bool_decide _); [reflexivity|].
  apply announced_announcing.
Qed.

Lemma tracks_setState newState : tracks (setState newState).
Proof.
  intros p. rewrite setState_run. cbn [trace after].
  rewrite announced_stating.
  destruct (bool_decide_reflect (state p = newState)) as [<-|Hne].
  - constructor.
  - constructor; [assumption|constructor].
Qed.

Create HintDb tracks.

#[local] Hint Resolve tracks_ret tracks_skip tracks_throw tracks_get
  tracks_call tracks_log tracks_setState : tracks.

(** One step of a proof of [tracks]: follow the shape of the method. *)
Ltac tracks_step :=
  match goal with
  | |- tracks (_ ≫= _) => apply tracks_bind; [|intros]
  | |- tracks (try_catch _ _) => apply tracks_try_catch; [|intros]
  | |- tracks (emit _ _) => apply tracks_emit; discriminate
  | |- tracks (modify _) => apply tracks_modify; intros; reflexivity
  | |- tracks (if ?b then _ else _) => destruct b
  | |- tracks (match ?x with _ => _ end) => destruct x
  | |- tracks _ => solve [auto with tracks]
  end.

Ltac tracks_auto := repeat tracks_step.

Lemma tracks_handleError e : tracks (handleError e).
Proof. unfold handleError. tracks_auto. Qed.

Lemma tracks_setupSoundInstanceEvents a : tracks (setupSoundInstanceEvents a).
Proof. unfold setupSoundInstanceEvents. tracks_auto. Qed.

#[local] Hint Resolve tracks_handleError tracks_setupSoundInstanceEvents
  : tracks.

Lemma tracks_play env : tracks (play env).
Proof. unfold play. tracks_auto. Qed.

#[local] Hint Resolve tracks_play : tracks.

Lemma tracks_on event l : tracks (on event l).
Proof. unfold on. apply tracks_modify. reflexivity. Qed.

Lemma tracks_off event l : tracks (off event l).
Proof.
  unfold off. apply tracks_modify. intros p.
  destruct (eventListeners p !! event) as [ls|]; [|reflexivity].
  now destruct (filter _ ls).
Qed.

#[local] Hint Resolve tracks_on tracks_off : tracks.

Lemma tracks_construct w :
  tracks (bindConfigCallbacks;; initialize w).
Proof.
  unfold bindConfigCallbacks, initialize, loadSoundJS,
    setupSoundJSEventListeners.
  tracks_auto.
Qed.

Lemma tracks_step_all i : tracks (step i).
Proof.
  destruct i; cbn [step];
    try apply tracks_on; try apply tracks_off;
    unfold pause, stop, setVolume, setMuted, setLoop, destroy,
      handleSoundLoad, handleSoundError, loadTimeout, onComplete;
    tracks_auto.
Qed.

(** ** Running a method symbolically *)

Arguments log : simpl never.
Arguments emit : simpl never.
Arguments setState : simpl never.

Lemma after_saying_mk {A} t (r : Js.outcome A) p t' :
  after_saying t (mkRun r p t') = mkRun r p (t ++ t').
Proof. reflexivity. Qed.

(** Rewrite the primitives to what they say, and compute. *)
Ltac run_step :=
  first
    [ rewrite log_run
    | rewrite emit_run
    | rewrite setState_run
    | rewrite after_saying_mk
    | progress lazy beta iota zeta delta
        [mbind M_bind mret M_ret try_catch get modify say call throw skip]
    | progress cbn [result after trace app negb andb orb
                    config state soundInstance audioId destroyed
                    eventListeners environmentInfo audioLoaded weixinReady
                    with_config with_state with_soundInstance with_destroyed
                    with_eventListeners with_audioLoaded
                    Cfg.autoplay Cfg.loop Cfg.volume Cfg.muted Cfg.debug
                    Cfg.with_volume Cfg.with_muted Cfg.with_loop] ].

Ltac run_all := repeat run_step.

(** Split on an answer of the engine or on a field, and go on. *)
Ltac split_on x := destruct x eqn:?; run_all; try discriminate.

Lemma notifications_cons_called c t :
  notifications (Called c :: t) = notifications t.
Proof. reflexivity. Qed.

Lemma notifications_nil : notifications [] = [].
Proof. reflexivity. Qed.

Create Rewrite HintDb notes.

#[local] Hint Rewrite notifications_app notifications_logged
  notifications_emitting notifications_cons_called notifications_nil
  app_nil_r app_nil_l : notes.

Lemma notifications_stating newState p :
  notifications (stating newState p) =
  if bool_decide (state p = newState) then []
  else Emitted Ev.statechange [AState newState]
       :: deliveries p Ev.statechange [AState newState].
Proof.
  unfold stating, announcing. destruct (bool_decide _); [reflexivity|].
  now rewrite notifications_app, notifications_emitting, notifications_logged,
    app_nil_r.
Qed.

Lemma emissions_stating newState p :
  emissions (stating newState p) =
  if bool_decide (state p = newState) then []
  else [(Ev.statechange, [AState newState])].
Proof.
  unfold stating, announcing. destruct (bool_decide _); [reflexivity|].
  now rewrite emissions_app, emissions_emitting, emissions_logged.
Qed.

(** ** What a method leaves alone *)

Section Preserves.

Context {B : Type} (f : Player -> B).

Lemma preserves_ret {A} (a : A) : preserves f (mret a).
Proof. intros p. reflexivity. Qed.

Lemma preserves_skip : preserves f skip.
Proof. intros p. reflexivity. Qed.

Lemma preserves_throw {A} e : preserves f (@throw A e).
Proof. intros p. reflexivity. Qed.

Lemma preserves_get : preserves f get.
Proof. intros p. reflexivity. Qed.

Lemma preserves_say o : preserves f (say o).
Proof. intros p. reflexivity. Qed.

Lemma preserves_call {A} c (answer : Js.outcome A) :
  preserves f (call c answer).
Proof. intros p. reflexivity. Qed.

Lemma preserves_modify g :
  (forall p, f (g p) = f p) -> preserves f (modify g).
Proof. intros H p. apply H. Qed.

Lemma preserves_log l t : preserves f (log l t).
Proof. intros p. now rewrite log_run. Qed.

Lemma preserves_emit event args : preserves f (emit event args).
Proof. intros p. now rewrite emit_run. Qed.

Lemma preserves_setState s :
  (forall p, f (with_state s p) = f p) -> preserves f (setState s).
Proof. intros H p. rewrite setState_run. apply H. Qed.

Lemma preserves_bind {A C} (m : M A) (k : A -> M C) :
  preserves f m -> (forall a, preserves f (k a)) -> preserves f (m ≫= k).
Proof.
  intros Hm Hk p. rewrite bind_run. specialize (Hm p).
  destruct (result (m p)) as [a|e]; [|assumption].
  unfold after_saying; cbn [after]. now rewrite Hk.
Qed.

Lemma preserves_try_catch {A} (body : M A) handler :
  preserves f body -> (forall e, preserves f (handler e)) ->
  preserves f (try_catch body handler).
Proof.
  intros Hb Hh p. rewrite try_catch_run. specialize (Hb p).
  destruct (result (body p)) as [a|e]; [assumption|].
  unfold after_saying; cbn [after]. now rewrite Hh.
Qed.

End Preserves.

Create HintDb preserves.

(** One step of a proof of [preserves]: follow the shape of the method. *)
Ltac preserves_step :=
  match goal with
  | |- preserves _ (_ ≫= _) => apply preserves_bind; [|intros]
  | |- preserves _ (try_catch _ _) => apply preserves_try_catch; [|intros]
  | |- preserves _ (modify _) =>
      apply preserves_modify; intros;
      repeat match goal with
             | |- context [match ?x with _ => _ end] => destruct x
             end; reflexivity
  | |- preserves _ (setState _) => apply preserves_setState; reflexivity
  | |- preserves _ (log _ _) => apply preserves_log
  | |- preserves _ (emit _ _) => apply preserves_emit
  | |- preserves _ (call _ _) => apply preserves_call
  | |- preserves _ (say _) => apply preserves_say
  | |- preserves _ (throw _) => apply preserves_throw
  | |- preserves _ (mret _) => apply preserves_ret
  | |- preserves _ skip => apply preserves_skip
  | |- preserves _ get => apply preserves_get
  | |- preserves _ (if ?b then _ else _) => destruct b
  | |- preserves _ (match ?x with _ => _ end) => destruct x
  | |- preserves _ _ => solve [auto with preserves]
  end.

Ltac preserves_auto := repeat preserves_step.

Lemma play_keeps_audioLoaded env : preserves audioLoaded (play env).
Proof.
  unfold play, setupSoundInstanceEvents, handleError. preserves_auto.
Qed.

#[local] Hint Resolve play_keeps_audioLoaded : preserves.

Lemma handleError_after e p :
  after (handleError e p) = with_state PlayerState.error p.
Proof. unfold handleError. run_all. reflexivity. Qed.

(** ** Methods that cannot throw *)

Lemma never_throws_ret {A} (a : A) : never_throws (mret a).
Proof. intros p. now exists a. Qed.

Lemma never_throws_skip : never_throws skip.
Proof. apply never_throws_ret. Qed.

Lemma never_throws_get : never_throws get.
Proof. intros p. now exists p. Qed.

Lemma never_throws_say o : never_throws (say o).
Proof. intros p. now exists tt. Qed.

Lemma never_throws_modify g : never_throws (modify g).
Proof. intros p. now exists tt. Qed.

Lemma never_throws_log l t : never_throws (log l t).
Proof. intros p. rewrite log_run. now exists tt. Qed.

Lemma never_throws_emit event args : never_throws (emit event args).
Proof. intros p. rewrite emit_run. now exists tt. Qed.

Lemma never_throws_setState s : never_throws (setState s).
Proof. intros p. rewrite setState_run. now exists tt. Qed.

Lemma never_throws_bind {A C} (m : M A) (k : A -> M C) :
  never_throws m -> (forall a, never_throws (k a)) -> never_throws (m ≫= k).
Proof.
  intros Hm Hk p. rewrite bind_run. destruct (Hm p) as [a ->].
  destruct (Hk a (after (m p))) as [c Hc]. now exists c.
Qed.

(** Whatever the body does, a handler that cannot throw makes the whole
    [try ... catch] return. *)
Lemma never_throws_try_catch {A} (body : M A) handler :
  (forall e, never_throws (handler e)) -> never_throws (try_catch body handler).
Proof.
  intros Hh p. rewrite try_catch_run.
  destruct (result (body p)) as [a|e] eqn:E; [now exists a|].
  destruct (Hh e (after (body p))) as [c Hc]. now exists c.
Qed.

Ltac never_throws_step :=
  match goal with
  | |- never_throws (_ ≫= _) => apply never_throws_bind; [|intros]
  | |- never_throws (try_catch _ _) => apply never_throws_try_catch; intros
  | |- never_throws (modify _) => apply never_throws_modify
  | |- never_throws (setState _) => apply never_throws_setState
  | |- never_throws (log _ _) => apply never_throws_log
  | |- never_throws (emit _ _) => apply never_throws_emit
  | |- never_throws (say _) => apply never_throws_say
  | |- never_throws (mret _) => apply never_throws_ret
  | |- never_throws skip => apply never_throws_skip
  | |- never_throws get => apply never_throws_get
  | |- never_throws (if ?b then _ else _) => destruct b
  | |- never_throws (match ?x with _ => _ end) => destruct x
  end.

Ltac never_throws_auto := repeat never_throws_step.

(** Read the notifications off a computed trace. *)
Ltac read_notes :=
  autorewrite with notes;
  repeat (rewrite notifications_stating || rewrite notifications_cons_called);
  unfold deliveries;
  cbn [state eventListeners with_state with_soundInstance with_config
       with_audioLoaded with_destroyed app];
  autorewrite with notes.

Lemma strict_eq_string_spec v s :
  Js.strict_eq_string v s = true <-> v = Js.VString s.
Proof.
  destruct v; cbn; try (split; [discriminate|intros [=]]).
  rewrite String.eqb_eq. split; [now intros ->|now intros [= ->]].
Qed.

(** ** Construction *)

Lemma bindConfigCallbacks_keeps :
  preserves (fun p => (config p, audioId p, state p, audioLoaded p,
                       destroyed p, soundInstance p))
    bindConfigCallbacks.
Proof. unfold bindConfigCallbacks, on. preserves_auto. Qed.

Lemma bindConfigCallbacks_returns : never_throws bindConfigCallbacks.
Proof. unfold bindConfigCallbacks, on. never_throws_auto. Qed.

Lemma initialize_keeps w :
  preserves (fun p => (config p, audioId p, audioLoaded p, destroyed p,
                       soundInstance p))
    (initialize w).
Proof.
  unfold initialize, loadSoundJS, setupSoundJSEventListeners.
  preserves_auto.
Qed.

Lemma initialize_loading w p :
  state (after (initialize w p)) = PlayerState.loading.
Proof.
  unfold initialize. rewrite bind_run, setState_run. cbn [result after trace].
  unfold after_saying; cbn [after].
  set (rest := _ ≫= _).
  assert (H : preserves state rest).
  { unfold rest, loadSoundJS, setupSoundJSEventListeners. preserves_auto. }
  now rewrite H.
Qed.

Lemma construct_fields w src raw :
  config (after (construct w src raw)) = merged w src raw /\
  audioId (after (construct w src raw)) =
    Cfg.id (Cfg.loadOptions (merged w src raw)) /\
  state (after (construct w src raw)) = PlayerState.loading /\
  audioLoaded (after (construct w src raw)) = false /\
  destroyed (after (construct w src raw)) = false /\
  soundInstance (after (construct w src raw)) = None.
Proof.
  unfold construct. rewrite bind_run.
  pose proof (bindConfigCallbacks_keeps (fields w src raw)) as Hb.
  destruct (bindConfigCallbacks (fields w src raw)) as [[[]|e] q t] eqn:E;
    cbn [result after trace] in *.
  - unfold after_saying; cbn [after].
    pose proof (initialize_keeps w q) as Hi.
    pose proof (initialize_loading w q) as Hs.
    cbn beta in Hi. rewrite Hs.
    injection Hb as B1 B2 _ B4 B5 B6. injection Hi as I1 I2 I3 I4 I5.
    rewrite I1, I2, I3, I4, I5, B1, B2, B4, B5, B6. repeat split.
  - destruct (bindConfigCallbacks_returns (fields w src raw)) as [a Ha].
    rewrite E in Ha. discriminate.
Qed.

(** The literal [0.8] denotes the binary64 value nearest to eight tenths:
    its distance to 8/10 is below half a unit in the last place. *)
Lemma default_volume_nearest :
  Prim2SF default_volume = S754_finite false 7205759403792794 (-53) /\
  (2 * Z.abs (10 * 7205759403792794 - 8 * 2 ^ 53) < 10)%Z.
Proof. split; [reflexivity|]. vm_compute. reflexivity. Qed.

Lemma generated_id_nonempty w : generated_id w <> "".
Proof. unfold generated_id. discriminate. Qed.

(** ** The environment detector *)

Lemma lower_ascii_idem c :
  Text.lower_ascii (Text.lower_ascii c) = Text.lower_ascii c.
Proof. destruct c as [[] [] [] [] [] [] [] []]; reflexivity. Qed.

Lemma nat_of_ascii_inj a b : nat_of_ascii a = nat_of_ascii b -> a = b.
Proof.
  intros H. rewrite <- (ascii_nat_embedding a), <- (ascii_nat_embedding b).
  now rewrite H.
Qed.

Lemma nat_of_lower_ascii c :
  nat_of_ascii (Text.lower_ascii c) =
  if Text.is_upper c then (nat_of_ascii c + 32)%nat else nat_of_ascii c.
Proof.
  unfold Text.lower_ascii. destruct (Text.is_upper c) eqn:E; [|reflexivity].
  apply nat_ascii_embedding. unfold Text.is_upper in E.
  apply andb_true_iff in E as [_ E]. apply Nat.leb_le in E. lia.
Qed.

(** The [i] flag compares two bytes as [same_letter] does. *)
Lemma lower_ascii_same a b :
  Ascii.eqb (Text.lower_ascii a) (Text.lower_ascii b) = true <->
  Text.same_letter a b.
Proof.
  rewrite Ascii.eqb_eq. unfold Text.same_letter. split.
  - intros H. apply (f_equal nat_of_ascii) in H.
    rewrite !nat_of_lower_ascii in H. unfold Text.is_upper in H.
    destruct (Nat.leb_spec 65 (nat_of_ascii a)),
             (Nat.leb_spec (nat_of_ascii a) 90),
             (Nat.leb_spec 65 (nat_of_ascii b)),
             (Nat.leb_spec (nat_of_ascii b) 90);
      cbn [andb] in H; lia.
  - intros H. apply nat_of_ascii_inj. rewrite !nat_of_lower_ascii.
    unfold Text.is_upper.
    destruct (Nat.leb_spec 65 (nat_of_ascii a)),
             (Nat.leb_spec (nat_of_ascii a) 90),
             (Nat.leb_spec 65 (nat_of_ascii b)),
             (Nat.leb_spec (nat_of_ascii b) 90);
      cbn [andb]; lia.
Qed.

Lemma same_letter_sym a b : Text.same_letter a b -> Text.same_letter b a.
Proof. unfold Text.same_letter. lia. Qed.

Lemma append_cons x (a b : string) : String x a +:+ b = String x (a +:+ b).
Proof. reflexivity. Qed.

Lemma append_nil_l (b : string) : "" +:+ b = b.
Proof. reflexivity. Qed.

Lemma append_assoc_string (a b c : string) :
  (a +:+ b) +:+ c = a +:+ b +:+ c.
Proof.
  induction a as [|x a IH]; [reflexivity|].
  rewrite !append_cons. now rewrite IH.
Qed.

Lemma starts_with_i_spec lit s :
  Text.starts_with_i lit s = true <->
  exists mid post,
    s = mid +:+ post /\
    Forall2 Text.same_letter
      (list_ascii_of_string mid) (list_ascii_of_string lit).
Proof.
  revert s. induction lit as [|a lit IH]; intros s.
  - cbn. split; [|reflexivity]. intros _. exists "", s. split; [reflexivity|].
    constructor.
  - destruct s as [|b s]; cbn [Text.starts_with_i].
    + split; [discriminate|].
      intros ([|x mid] & post & E & L); [|discriminate].
      cbn in L. inversion L.
    + rewrite andb_true_iff, lower_ascii_same, IH. split.
      * intros (Hab & mid & post & -> & L).
        exists (String b mid), post. split; [reflexivity|].
        cbn. constructor; [now apply same_letter_sym|assumption].
      * intros ([|x mid] & post & E & L); [cbn in L; inversion L|].
        rewrite append_cons in E. injection E as -> ->.
        cbn in L. inversion L as [|? ? ? ? Hxa L']; subst.
        split; [now apply same_letter_sym|]. now exists mid, post.
Qed.

(** The [i]-flagged literal search finds exactly the occurrences without
    regard to the case of the letters A to Z. *)
Lemma search_i_spec lit s :
  Text.search_i lit s = true <-> Text.occurs lit s.
Proof.
  unfold Text.occurs. induction s as [|c s IH]; cbn [Text.search_i].
  - rewrite orb_false_r, starts_with_i_spec. split.
    + intros (mid & post & E & L). now exists "", mid, post.
    + intros ([|x pre] & mid & post & E & L); [|discriminate].
      now exists mid, post.
  - rewrite orb_true_iff, starts_with_i_spec, IH. split.
    + intros [(mid & post & E & L)|(pre & mid & post & E & L)].
      * now exists "", mid, post.
      * exists (String c pre), mid, post. split; [|assumption].
        rewrite append_cons. now rewrite E.
    + intros ([|x pre] & mid & post & E & L).
      * left. now exists mid, post.
      * right. rewrite append_cons in E. injection E as -> E.
        now exists pre, mid, post.
Qed.

Lemma test_i_spec alternatives s :
  Text.test_i alternatives s = true <->
  exists lit, In lit alternatives /\ Text.occurs lit s.
Proof.
  unfold Text.test_i. rewrite existsb_exists.
  split; intros (lit & Hin & H); exists lit; split; auto;
    now apply search_i_spec.
Qed.

Lemma test_i_one lit s :
  Text.test_i [lit] s = true <-> Text.occurs lit s.
Proof.
  rewrite test_i_spec. split.
  - now intros (l & [<-|[]] & H).
  - intros H. exists lit. split; [now left|assumption].
Qed.

(** *** Lower case and the tokens of the detector *)

Lemma join_chars s : Text.join (Text.chars s) = s.
Proof.
  induction s as [|c s IH]; [reflexivity|]. cbn [Text.chars].
  destruct (Text.is_ascii c); [cbn; now rewrite IH|].
  destruct (Text.chars s) as [|g gs]; [now rewrite <- IH|].
  destruct (Text.starts_with_continuation g); cbn in *; now rewrite <- IH.
Qed.

Lemma continuation_high g :
  Text.starts_with_continuation g = true ->
  character g -> Text.all_high g = true.
Proof.
  intros H [(c & -> & A)|[A _]]; [|assumption].
  cbn in H. unfold Text.is_continuation, Text.is_ascii in *.
  apply andb_true_iff in H as [H _].
  apply Nat.leb_le in H. apply Nat.ltb_lt in A. lia.
Qed.

Lemma chars_characters s : Forall character (Text.chars s).
Proof.
  induction s as [|c s IH]; [constructor|]. cbn [Text.chars].
  destruct (Text.is_ascii c) eqn:A.
  - constructor; [|assumption]. left. now exists c.
  - assert (Hc : character (String c "")).
    { right. split; [|discriminate]. cbn [Text.all_high]. now rewrite A. }
    destruct (Text.chars s) as [|g gs]; [now constructor|].
    inversion IH as [|? ? Hg Hgs]; subst.
    destruct (Text.starts_with_continuation g) eqn:K.
    + constructor; [|assumption]. right. split; [|discriminate].
      cbn [Text.all_high]. rewrite A. cbn [negb andb].
      now apply continuation_high.
    + now constructor.
Qed.

Lemma is_upper_ascii c : Text.is_upper c = true -> Text.is_ascii c = true.
Proof.
  unfold Text.is_upper, Text.is_ascii. intros H.
  apply andb_true_iff in H as [_ H]. apply Nat.leb_le in H.
  apply Nat.ltb_lt. lia.
Qed.

Lemma lower_ascii_high x :
  Text.is_ascii x = false -> Text.lower_ascii x = x.
Proof.
  intros H. unfold Text.lower_ascii.
  destruct (Text.is_upper x) eqn:E; [|reflexivity].
  apply is_upper_ascii in E. congruence.
Qed.

Lemma lower_ascii_ascii a :
  Text.is_ascii a = true -> Text.is_ascii (Text.lower_ascii a) = true.
Proof.
  intros H. unfold Text.is_ascii in *. rewrite nat_of_lower_ascii.
  unfold Text.is_upper. apply Nat.ltb_lt in H. apply Nat.ltb_lt.
  destruct (Nat.leb_spec 65 (nat_of_ascii a)),
           (Nat.leb_spec (nat_of_ascii a) 90); cbn [andb]; lia.
Qed.

Lemma high_foreign x : Text.is_ascii x = false -> foreign x.
Proof.
  intros H a Ha. unfold token_byte in Ha.
  apply andb_true_iff in Ha as [Ha _].
  rewrite (lower_ascii_high x H).
  apply lower_ascii_ascii in Ha.
  destruct (Ascii.eqb_spec (Text.lower_ascii a) x) as [E|]; [|reflexivity].
  congruence.
Qed.

Lemma k_foreign : foreign "k"%char.
Proof.
  intros a Ha. unfold token_byte in Ha.
  apply andb_true_iff in Ha as [_ Ha].
  now apply negb_true_iff in Ha.
Qed.

Lemma all_high_foreign u : Text.all_high u = true -> foreign_bytes u.
Proof.
  induction u as [|x u IH]; [easy|]. cbn. intros H.
  apply andb_true_iff in H as [Hx Hu]. apply negb_true_iff in Hx.
  split; [now apply high_foreign|now apply IH].
Qed.

(** A token starts nowhere in bytes that are foreign to it. *)
Lemma starts_with_i_foreign a tok x s :
  token_byte a = true -> foreign x ->
  Text.starts_with_i (String a tok) (String x s) = false.
Proof. intros Ha Hx. cbn. now rewrite (Hx a Ha). Qed.

Lemma search_i_skip a tok u s :
  token_byte a = true -> foreign_bytes u ->
  Text.search_i (String a tok) (u +:+ s) = Text.search_i (String a tok) s.
Proof.
  intros Ha. induction u as [|x u IH]; [reflexivity|]. intros [Hx Hu].
  rewrite append_cons.
  change (Text.search_i (String a tok) (String x (u +:+ s)))
    with (Text.starts_with_i (String a tok) (String x (u +:+ s))
          || Text.search_i (String a tok) (u +:+ s)).
  rewrite (starts_with_i_foreign a tok x _ Ha Hx). now apply IH.
Qed.

(** What [lower_char] makes of a character other than U+0130. *)
Lemma lower_char_cases U before g after :
  character g -> g <> Text.dotted_capital_I ->
  (exists c, g = String c "" /\
             Text.lower_char U before g after = String (Text.lower_ascii c) "")
  \/
  (exists x u y v,
     g = String x u /\ Text.lower_char U before g after = String y v /\
     foreign_bytes g /\ foreign_bytes (String y v)).
Proof.
  intros [(c & -> & A)|[H Hne]] HI.
  - left. exists c. split; [reflexivity|].
    unfold Text.lower_char. cbn [Text.all_high]. now rewrite A.
  - right. unfold Text.lower_char. rewrite H. cbn [negb].
    destruct g as [|x u]; [now contradiction Hne|].
    destruct (String.eqb_spec (String x u) Text.dotted_capital_I) as [E|_];
      [now contradiction HI|].
    destruct (String.eqb (String x u) Text.kelvin_sign).
    + exists x, u, "k"%char, "".
      split; [reflexivity|]. split; [reflexivity|].
      split; [now apply all_high_foreign|]. split; [apply k_foreign|exact I].
    + destruct (Text.lower_other_high U before (String x u) after H Hne)
        as [Hh Hn].
      destruct (Text.lower_other U before (String x u) after) as [|y v];
        [now contradiction Hn|].
      exists x, u, y, v.
      split; [reflexivity|]. split; [reflexivity|].
      split; now apply all_high_foreign.
Qed.

Lemma starts_with_i_lower_chars U tok before gs :
  token tok = true ->
  Forall character gs -> ~ In Text.dotted_capital_I gs ->
  Text.starts_with_i tok (Text.lower_chars U before gs) =
  Text.starts_with_i tok (Text.join gs).
Proof.
  revert tok before. induction gs as [|g gs IH]; intros tok before T C N;
    [reflexivity|].
  inversion C as [|? ? Cg Cgs]; subst.
  assert (Ng : g <> Text.dotted_capital_I) by (intros ->; apply N; now left).
  assert (Ngs : ~ In Text.dotted_capital_I gs)
    by (intros H; apply N; now right).
  destruct tok as [|a tok]; [reflexivity|].
  cbn [token] in T. apply andb_true_iff in T as [Ta Tt].
  cbn [Text.lower_chars Text.join].
  destruct (lower_char_cases U before g (Text.join gs) Cg Ng)
    as [(c & -> & ->)|(x & u & y & v & -> & -> & [Fx _] & [Fy _])].
  - rewrite !append_cons, !append_nil_l. cbn [Text.starts_with_i].
    rewrite lower_ascii_idem. f_equal. now apply IH.
  - rewrite !append_cons.
    now rewrite !starts_with_i_foreign.
Qed.

(** The tokens are found in the lower-cased string where they are found,
    without regard to case, in the string itself, as long as the string
    does not hold U+0130. *)
Lemma search_i_lower_chars U a tok before gs :
  token (String a tok) = true ->
  Forall character gs -> ~ In Text.dotted_capital_I gs ->
  Text.search_i (String a tok) (Text.lower_chars U before gs) =
  Text.search_i (String a tok) (Text.join gs).
Proof.
  intros T. revert before. induction gs as [|g gs IH]; intros before C N;
    [reflexivity|].
  inversion C as [|? ? Cg Cgs]; subst.
  assert (Ng : g <> Text.dotted_capital_I) by (intros ->; apply N; now left).
  assert (Ngs : ~ In Text.dotted_capital_I gs)
    by (intros H; apply N; now right).
  assert (Ta : token_byte a = true)
    by (cbn [token] in T; now apply andb_true_iff in T as [Ta _]).
  pose proof (starts_with_i_lower_chars U (String a tok) before (g :: gs)
                T C N) as S.
  cbn [Text.lower_chars Text.join] in *.
  destruct (lower_char_cases U before g (Text.join gs) Cg Ng)
    as [(c & -> & E)|(x & u & y & v & -> & E & Fg & Fl)]; rewrite E in *.
  - rewrite !append_cons, !append_nil_l in *.
    change (Text.search_i (String a tok) (String ?c ?s))
      with (Text.starts_with_i (String a tok) (String c s)
            || Text.search_i (String a tok) s).
    rewrite S. f_equal. now apply IH.
  - rewrite !search_i_skip by assumption. now apply IH.
Qed.

Lemma search_i_toLowerCase U tok ua :
  token tok = true -> tok <> "" ->
  ~ In Text.dotted_capital_I (Text.chars ua) ->
  Text.search_i tok (Text.toLowerCase U ua) = Text.search_i tok ua.
Proof.
  intros T Hne N. destruct tok as [|a tok]; [now contradiction Hne|].
  unfold Text.toLowerCase.
  rewrite (search_i_lower_chars U a tok "" (Text.chars ua) T
             (chars_characters ua) N).
  now rewrite join_chars.
Qed.

Lemma occurs_toLowerCase U tok ua :
  token tok = true -> tok <> "" ->
  ~ In Text.dotted_capital_I (Text.chars ua) ->
  Text.occurs tok (Text.toLowerCase U ua) <-> Text.occurs tok ua.
Proof.
  intros T Hne N. rewrite <- !search_i_spec.
  now rewrite search_i_toLowerCase.
Qed.

(** ** The guard of [setVolume] on binary64 numbers *)

Lemma Pos_compare_cont_Eq m n :
  PosDef.Pos.compare_cont Eq m n = (m ?= n)%positive.
Proof. reflexivity. Qed.

(** The guard lets a number through exactly when it is NaN or a finite
    number between 0 and 1. *)
Lemma guard_on_numbers x :
  ((x <? 0) || (1 <? x))%float = false <->
  PrimFloat.is_nan x = true \/ finite_in_unit_interval x = true.
Proof.
  unfold finite_in_unit_interval, PrimFloat.is_finite, PrimFloat.is_nan,
    PrimFloat.is_infinity.
  rewrite !FloatAxioms.ltb_spec, !FloatAxioms.leb_spec, !FloatAxioms.eqb_spec,
    FloatAxioms.abs_spec.
  change (Prim2SF 0) with (S754_zero false).
  change (Prim2SF 1) with (S754_finite false 4503599627370496 (-52)).
  change (Prim2SF infinity) with (S754_infinity false).
  destruct (Prim2SF x) as [s|s| |s m e].
  - destruct s; cbn; intuition congruence.
  - destruct s; cbn; intuition congruence.
  - cbn. intuition congruence.
  - unfold SFltb, SFleb, SFeqb, SFabs, SFcompare.
    destruct s; cbn [CompOpp negb orb andb];
      repeat rewrite Pos_compare_cont_Eq;
      rewrite ?Z.compare_refl, ?Pos.compare_refl.
    + cbn. intuition congruence.
    + rewrite (Z.compare_antisym e (-52)),
        (Pos.compare_antisym m 4503599627370496).
      unfold Pos.compare.
      generalize (e ?= -52)%Z
                 (PosDef.Pos.compare_cont Eq m 4503599627370496).
      intros [] []; cbn; intuition congruence.
Qed.

(** ** [setVolume] *)

Lemma setVolume_rejects volume applied p :
  volume_rejected volume = true ->
  setVolume volume applied p =
  mkRun (Js.Throws (Js.mkError "Volume must be a number between 0 and 1"))
    p [].
Proof. intros H. unfold setVolume. now rewrite H. Qed.

Lemma setVolume_accepts volume applied p :
  volume_rejected volume = false ->
  let x := as_number volume in
  result (setVolume volume applied p) = Js.Returns tt /\
  after (setVolume volume applied p) = with_config (Cfg.with_volume x) p /\
  notifications (trace (setVolume volume applied p)) =
    Emitted Ev.volumechange [ANumber x]
    :: deliveries p Ev.volumechange [ANumber x].
Proof.
  intros H x. unfold setVolume. rewrite H. fold x. run_all.
  destruct (soundInstance p); run_all;
    [destruct (Cfg.muted (config p)); run_all; [|destruct applied; run_all]|];
    repeat split; read_notes; reflexivity.
Qed.

(** The guard decides alone, before anything else is read: [setVolume]
    throws exactly when its argument is not a number, or is a number that
    is neither NaN nor a finite number between 0 and 1. *)
Lemma setVolume_throws_iff volume applied p :
  (exists e, result (setVolume volume applied p) = Js.Throws e) <->
  ~ exists x, volume = Js.VNumber x /\
              (PrimFloat.is_nan x = true \/ finite_in_unit_interval x = true).
Proof.
  destruct (volume_rejected volume) eqn:E.
  - rewrite setVolume_rejects by assumption. split; [|now eexists].
    intros _ (x & -> & Hx). apply guard_on_numbers in Hx.
    unfold volume_rejected in E. cbn in E. congruence.
  - destruct (setVolume_accepts volume applied p E) as (-> & _).
    split; [intros [e [=]]|]. intros H. exfalso. apply H.
    destruct volume; try discriminate.
    exists x. split; [reflexivity|]. now apply guard_on_numbers.
Qed.

(** ** After [destroy] *)

Lemma destroy_quiet_destroyed env p :
  quiet env -> destroyed (after (destroy env p)) = true.
Proof.
  intros (H1 & H2 & H3 & H4 & H5). unfold destroy. run_all.
  destruct (destroyed p) eqn:D; run_all; [assumption|].
  rewrite H1, H2, H3, H4, H5.
  destruct (soundInstance p); run_all;
    destruct (engine env); run_all;
    destruct (audioLoaded p); run_all; reflexivity.
Qed.

Lemma play_destroyed env p :
  destroyed p = true ->
  play env p = mkRun (Js.Throws (Js.mkError "Player has been destroyed")) p [].
Proof. intros H. unfold play. run_all. now rewrite H. Qed.

Lemma pause_destroyed paused p :
  destroyed p = true -> pause paused p = mkRun (Js.Returns tt) p [].
Proof. intros H. unfold pause. run_all. now rewrite H. Qed.

Lemma stop_destroyed stopped p :
  destroyed p = true -> stop stopped p = mkRun (Js.Returns tt) p [].
Proof. intros H. unfold stop. run_all. now rewrite H. Qed.

Lemma setMuted_run muted applied p :
  result (setMuted muted applied p) = Js.Returns tt /\
  after (setMuted muted applied p) = with_config (Cfg.with_muted muted) p /\
  notifications (trace (setMuted muted applied p)) = [].
Proof.
  unfold setMuted. run_all.
  destruct (soundInstance p); run_all; [destruct applied; run_all|];
    repeat split; read_notes; reflexivity.
Qed.

(** ** [destroy] twice *)

Lemma destroy_never_throws env : never_throws (destroy env).
Proof. unfold destroy. never_throws_auto. Qed.

(** Once a call of [destroy] left the player marked destroyed, a further
    call does nothing at all. *)
Lemma destroy_destroyed env p :
  destroyed p = true -> destroy env p = mkRun (Js.Returns tt) p [].
Proof. intros H. unfold destroy. run_all. now rewrite H. Qed.

(** When the teardown of the first call raises nothing, the second call is
    a no-op, whatever the engine would answer to it. *)
Lemma destroy_twice_quiet env env' p :
  quiet env ->
  destroy env' (after (destroy env p)) =
  mkRun (Js.Returns tt) (after (destroy env p)) [].
Proof. intros H. now apply destroy_destroyed, destroy_quiet_destroyed. Qed.

(** ** Listeners that call back *)

(** *** The monad *)

Lemma live_bind_run {A B} (m : Live.M A) (k : A -> Live.M B) s :
  (m ≫= k) s =
  match Live.returned (m s) with
  | Js.Returns a =>
      Live.saying (Live.said (m s)) (k a (Live.stage (m s)))
  | Js.Throws e =>
      Live.mkRun (Js.Throws e) (Live.stage (m s)) (Live.said (m s))
  end.
Proof. unfold mbind, Live.M_bind. now destruct (m s) as [[a|e] s' t]. Qed.

Lemma live_try_catch_run {A} (body : Live.M A) handler s :
  Live.try_catch body handler s =
  match Live.returned (body s) with
  | Js.Returns a => body s
  | Js.Throws e =>
      Live.saying (Live.said (body s)) (handler e (Live.stage (body s)))
  end.
Proof. unfold Live.try_catch. now destruct (body s) as [[a|e] s' t]. Qed.

Lemma live_saying_mk {A} t (r : Js.outcome A) s t' :
  Live.saying t (Live.mkRun r s t') = Live.mkRun r s (t ++ t').
Proof. reflexivity. Qed.

Lemma live_log_run l t s :
  Live.log l t s = Live.mkRun (Js.Returns tt) s (logged l t (Live.self s)).
Proof.
  unfold Live.log, Live.lift. rewrite log_run. cbn. now destruct s.
Qed.

Arguments Live.log : simpl never.
Arguments Live.emit : simpl never.
Arguments Live.setState : simpl never.
Arguments Live.handleError : simpl never.

(** Rewrite the primitives to what they say, and compute. *)
Ltac live_step :=
  first
    [ rewrite live_log_run
    | rewrite live_saying_mk
    | progress lazy beta iota zeta delta
        [mbind Live.M_bind mret Live.M_ret Live.try_catch Live.get Live.here
         Live.modify Live.attach Live.tick Live.say Live.call Live.throw
         Live.skip]
    | progress cbn [Live.returned Live.stage Live.said Live.self
                    Live.attached Live.clock Live.with_self
                    Live.with_attached Live.later Live.enter
                    app negb andb orb
                    config state soundInstance audioId destroyed
                    eventListeners environmentInfo audioLoaded weixinReady
                    with_config with_state with_soundInstance with_destroyed
                    with_eventListeners with_audioLoaded
                    Cfg.autoplay Cfg.loop Cfg.volume Cfg.muted Cfg.debug
                    Cfg.with_volume Cfg.with_muted Cfg.with_loop] ].

Ltac live_all := repeat live_step.

(** *** Methods that cannot throw *)

Lemma live_returns_skip : live_returns Live.skip.
Proof. intros s. reflexivity. Qed.

Lemma live_returns_say o : live_returns (Live.say o).
Proof. intros s. reflexivity. Qed.

Lemma live_returns_modify g : live_returns (Live.modify g).
Proof. intros s. reflexivity. Qed.

Lemma live_returns_log l t : live_returns (Live.log l t).
Proof. intros s. now rewrite live_log_run. Qed.

Lemma live_returns_bind {A} (m : Live.M A) (k : A -> Live.M unit) :
  (forall s, exists a, Live.returned (m s) = Js.Returns a) ->
  (forall a, live_returns (k a)) -> live_returns (m ≫= k).
Proof.
  intros Hm Hk s. rewrite live_bind_run. destruct (Hm s) as [a ->].
  cbn. apply Hk.
Qed.

Lemma live_returns_seq (m k : Live.M unit) :
  live_returns m -> live_returns k -> live_returns (m;; k).
Proof.
  intros Hm Hk. apply live_returns_bind; [|now intros []].
  intros s. exists tt. apply Hm.
Qed.

Lemma live_returns_get (k : Player -> Live.M unit) :
  (forall p, live_returns (k p)) -> live_returns (Live.get ≫= k).
Proof. intros Hk. apply live_returns_bind; [|exact Hk]. intros s. now eexists. Qed.

Lemma live_returns_try_catch (body : Live.M unit) handler :
  (forall e, live_returns (handler e)) ->
  live_returns (Live.try_catch body handler).
Proof.
  intros Hh s. rewrite live_try_catch_run.
  destruct (Live.returned (body s)) as [[]|e] eqn:E; [exact E|].
  cbn. apply Hh.
Qed.

Lemma live_returns_forEach {A} (f : A -> Live.M unit) l :
  (forall x, live_returns (f x)) -> live_returns (Live.forEach f l).
Proof.
  intros Hf. induction l as [|x l IH]; [apply live_returns_skip|].
  cbn [Live.forEach]. now apply live_returns_seq.
Qed.

Lemma live_returns_notify inv event args l :
  live_returns (Live.notify inv event args l).
Proof.
  unfold Live.notify. apply live_returns_seq; [apply live_returns_say|].
  apply live_returns_try_catch. intros e. apply live_returns_log.
Qed.

Lemma live_returns_emit inv event args :
  live_returns (Live.emit inv event args).
Proof.
  unfold Live.emit. apply live_returns_seq; [apply live_returns_say|].
  apply live_returns_get. intros p.
  destruct (eventListeners p !! event) as [ls|]; [|apply live_returns_skip].
  apply live_returns_forEach. intros l. apply live_returns_notify.
Qed.

Lemma live_returns_setState inv x : live_returns (Live.setState inv x).
Proof.
  unfold Live.setState. apply live_returns_get. intros p.
  destruct (negb _); [|apply live_returns_skip].
  apply live_returns_seq; [apply live_returns_modify|].
  apply live_returns_seq; [apply live_returns_emit|apply live_returns_log].
Qed.

Lemma live_returns_handleError inv e : live_returns (Live.handleError inv e).
Proof.
  unfold Live.handleError.
  apply live_returns_seq; [apply live_returns_setState|].
  apply live_returns_seq; [apply live_returns_emit|apply live_returns_log].
Qed.


(** *** What is never emitted *)

Lemma times_emitted_app event t1 t2 :
  times_emitted event (t1 ++ t2) =
  times_emitted event t1 + times_emitted event t2.
Proof. unfold times_emitted. now rewrite List.filter_app, length_app. Qed.

Lemma times_emitted_logged event l t p :
  times_emitted event (logged l t p) = 0.
Proof. unfold logged. now destruct (_ && _). Qed.



Lemma times_emitted_delivered event l ev args t :
  times_emitted event (Delivered l ev args :: t) = times_emitted event t.
Proof. reflexivity. Qed.

Section Silent.

Variable event : Ev.name.


Lemma silent_skip : silent_about event Live.skip.
Proof. intros s. reflexivity. Qed.








Lemma silent_say o : emits event o = false -> silent_about event (Live.say o).
Proof. intros H s. unfold times_emitted. cbn. now rewrite H. Qed.

Lemma silent_log l t : silent_about event (Live.log l t).
Proof. intros s. rewrite live_log_run. apply times_emitted_logged. Qed.


Lemma silent_bind {A B} (m : Live.M A) (k : A -> Live.M B) :
  silent_about event m -> (forall a, silent_about event (k a)) ->
  silent_about event (m ≫= k).
Proof.
  intros Hm Hk s. rewrite live_bind_run.
  destruct (Live.returned (m s)) as [a|e]; [|apply Hm].
  unfold Live.saying. cbn [Live.said].
  rewrite times_emitted_app, Hm. apply Hk.
Qed.

Lemma silent_try_catch {A} (body : Live.M A) handler :
  silent_about event body -> (forall e, silent_about event (handler e)) ->
  silent_about event (Live.try_catch body handler).
Proof.
  intros Hb Hh s. rewrite live_try_catch_run.
  destruct (Live.returned (body s)) as [a|e]; [apply Hb|].
  unfold Live.saying. cbn [Live.said].
  rewrite times_emitted_app, Hb. apply Hh.
Qed.

Lemma silent_forEach {A} (f : A -> Live.M unit) l :
  (forall x, silent_about event (f x)) ->
  silent_about event (Live.forEach f l).
Proof.
  intros Hf. induction l as [|x l IH]; [apply silent_skip|].
  cbn [Live.forEach]. apply silent_bind; [apply Hf|now intros []].
Qed.

(** The methods, with listeners that do not emit [event] themselves. *)
Variable inv : Listener -> list Arg -> Live.M unit.
Hypothesis inv_silent : forall l args, silent_about event (inv l args).

Lemma silent_notify ev args l :
  silent_about event (Live.notify inv ev args l).
Proof.
  unfold Live.notify. apply silent_bind; [now apply silent_say|intros []].
  apply silent_try_catch; [apply inv_silent|intros e; apply silent_log].
Qed.



End Silent.



Section SilentEnded.

Variable inv : Listener -> list Arg -> Live.M unit.
Hypothesis inv_silent : forall l args, silent_about Ev.ended (inv l args).












End SilentEnded.



(** *** Listeners that do not call back *)

Lemma later_0 s : Live.later 0 s = s.
Proof. destruct s. unfold Live.later. cbn. now rewrite Nat.add_0_r. Qed.

Lemma later_later n m s :
  Live.later n (Live.later m s) = Live.later (m + n) s.
Proof. unfold Live.later. cbn. now rewrite Nat.add_assoc. Qed.

Lemma with_self_same s : Live.with_self (Live.self s) s = s.
Proof. now destruct s. Qed.

Lemma live_calls_quiet host depth l args s :
  Live.quiet host l ->
  Live.calls host depth l args s =
  Live.mkRun (if raises l then Js.Throws Live.thrown else Js.Returns tt)
    (Live.later (length (host_functions [l])) s) [].
Proof.
  intros Q. destruct l as [slot|id r].
  - destruct depth; cbn; now rewrite later_0.
  - cbn in Q.
    destruct depth; cbn [Live.calls]; live_all; rewrite Q;
      cbn [Live.follow]; live_all; destruct r; reflexivity.
Qed.

Lemma live_notify_quiet host depth event args l s :
  Live.quiet host l ->
  Live.notify (Live.calls host depth) event args l s =
  Live.mkRun (Js.Returns tt) (Live.later (length (host_functions [l])) s)
    (told event args (Live.self s) l).
Proof.
  intros Q. unfold Live.notify, told. live_all.
  rewrite live_calls_quiet by exact Q.
  destruct (raises l); live_all; [|reflexivity].
  now rewrite logged_loud.
Qed.

Lemma live_forEach_quiet host depth event args ls s :
  Forall (Live.quiet host) ls ->
  Live.forEach (Live.notify (Live.calls host depth) event args) ls s =
  Live.mkRun (Js.Returns tt) (Live.later (length (host_functions ls)) s)
    (concat (map (told event args (Live.self s)) ls)).
Proof.
  intros Q. revert s. induction Q as [|l ls Ql _ IH]; intros s.
  - cbn. now rewrite later_0.
  - cbn [Live.forEach]. rewrite live_bind_run, live_notify_quiet by exact Ql.
    cbn [Live.returned Live.stage Live.said]. rewrite IH.
    cbn [Live.saying Live.returned Live.stage Live.said map concat].
    rewrite later_later. f_equal. f_equal.
    change (l :: ls) with ([l] ++ ls). unfold host_functions.
    now rewrite List.filter_app, length_app.
Qed.

Lemma live_emit_quiet host depth event args s :
  Live.quiet_on host (Live.self s) event ->
  Live.emit (Live.calls host depth) event args s =
  Live.mkRun (Js.Returns tt)
    (Live.later (length (host_functions (listeners_of (Live.self s) event)))
       s)
    (emitting event args (Live.self s)).
Proof.
  unfold Live.quiet_on, listeners_of, Live.emit, emitting. intros Q. live_all.
  destruct (eventListeners (Live.self s) !! event) as [ls|]; cbn in *.
  - now rewrite live_forEach_quiet.
  - now rewrite later_0.
Qed.

Lemma live_setState_quiet host depth x s :
  Live.quiet_on host (Live.self s) Ev.statechange ->
  Live.setState (Live.calls host depth) x s =
  Live.mkRun (Js.Returns tt)
    (Live.later (length (host_functions (announced_to (Live.self s) x)))
       (Live.with_self (with_state x (Live.self s)) s))
    (stating x (Live.self s)).
Proof.
  intros Q. unfold Live.setState, stating, announcing, announced_to,
    PlayerState.eqb. live_all.
  destruct (bool_decide_reflect (state (Live.self s) = x)) as [<-|_];
    live_all.
  - now rewrite later_0, with_state_same, with_self_same.
  - rewrite live_emit_quiet by exact Q. live_all. reflexivity.
Qed.

(** *** What [emit] and [setState] say, whatever the listeners do *)

Lemma live_run_eta {A} (r : Live.Run A) :
  r = Live.mkRun (Live.returned r) (Live.stage r) (Live.said r).
Proof. now destruct r. Qed.

Lemma live_forEach_notify_says inv event args ls s :
  exists s' t,
    Live.forEach (Live.notify inv event args) ls s =
      Live.mkRun (Js.Returns tt) s' t /\
    ((forall l a, silent_about Ev.ended (inv l a)) ->
     times_emitted Ev.ended t = 0).
Proof.
  eexists _, _. split.
  - rewrite (live_run_eta (Live.forEach _ _ _)). f_equal.
    apply live_returns_forEach. intros l. apply live_returns_notify.
  - intros H. apply silent_forEach. intros l. now apply silent_notify.
Qed.

Lemma live_emit_says inv event args s :
  exists s' t,
    Live.emit inv event args s =
      Live.mkRun (Js.Returns tt) s' (Emitted event args :: t) /\
    ((forall l a, silent_about Ev.ended (inv l a)) ->
     times_emitted Ev.ended t = 0).
Proof.
  unfold Live.emit. live_all.
  destruct (eventListeners (Live.self s) !! event) as [ls|].
  - destruct (live_forEach_notify_says inv event args ls s)
      as (s' & t & -> & H).
    live_all. now exists s', t.
  - live_all. exists s, []. split; [reflexivity|]. intros _. reflexivity.
Qed.






(** *** More on [handleError] and [play] *)

Lemma live_returns_run (m : Live.M unit) s :
  live_returns m -> exists s' t, m s = Live.mkRun (Js.Returns tt) s' t.
Proof.
  intros H. exists (Live.stage (m s)), (Live.said (m s)).
  rewrite (live_run_eta (m s)) at 1. now rewrite H.
Qed.

Lemma live_handleError_says inv e s :
  exists s' t,
    Live.handleError inv e s = Live.mkRun (Js.Returns tt) s' t /\
    In (Emitted Ev.error [AError e]) t.
Proof.
  unfold Live.handleError. live_all.
  destruct (live_returns_run _ s (live_returns_setState inv PlayerState.error))
    as (s1 & t1 & ->).
  live_all.
  destruct (live_emit_says inv Ev.error [AError e] s1) as (s2 & t2 & -> & _).
  live_all. eexists _, _. split; [reflexivity|].
  apply in_or_app. right. now left.
Qed.

(** Replace the run of a method that returns by its outcome. *)
Ltac live_settle :=
  match goal with
  | |- context [Live.setState ?inv ?x ?s] =>
      let s' := fresh "s" in
      let t := fresh "t" in
      destruct (live_returns_run _ s (live_returns_setState inv x))
        as (s' & t & ->)
  | |- context [Live.emit ?inv ?ev ?args ?s] =>
      let s' := fresh "s" in
      let t := fresh "t" in
      destruct (live_returns_run _ s (live_returns_emit inv ev args))
        as (s' & t & ->)
  end; live_all.

(** Find a known entry in a computed trace. *)
Ltac in_trace :=
  repeat match goal with
  | H : In ?x ?t |- In ?x ?t => exact H
  | H : In ?x ?t |- In ?x (?t ++ _) => apply in_or_app; left; exact H
  | |- In _ (_ :: _) => apply in_cons
  | |- In _ (_ ++ _) => apply in_or_app; right
  end.

Lemma live_handleError_quiet host depth e s :
  Live.quiet_on host (Live.self s) Ev.statechange ->
  Live.quiet_on host (Live.self s) Ev.error ->
  Live.handleError (Live.calls host depth) e s =
  Live.mkRun (Js.Returns tt)
    (Live.later
       (length (host_functions (announced_to (Live.self s) PlayerState.error))
        + length (host_functions (listeners_of (Live.self s) Ev.error)))
       (Live.with_self (with_state PlayerState.error (Live.self s)) s))
    (trace (handleError e (Live.self s))).
Proof.
  intros Q1 Q2. unfold Live.handleError, handleError. live_all. run_all.
  rewrite live_setState_quiet by exact Q1. live_all.
  rewrite live_emit_quiet by exact Q2. live_all.
  rewrite later_later. reflexivity.
Qed.

Lemma quiet_on_nil host p event :
  listeners_of p event = [] -> Live.quiet_on host p event.
Proof. intros H. unfold Live.quiet_on. rewrite H. constructor. Qed.

Lemma quiet_on_one host p event l :
  listeners_of p event = [l] -> Live.quiet host l ->
  Live.quiet_on host p event.
Proof. intros H Q. unfold Live.quiet_on. rewrite H. now repeat constructor. Qed.

(** Use the quiet listeners of the context. *)
Ltac quiet_side :=
  match goal with
  | H : Live.quiet_on _ _ ?ev |- Live.quiet_on _ _ ?ev => exact H
  end.

Ltac live_quiet :=
  repeat first
    [ rewrite live_setState_quiet by quiet_side
    | rewrite live_emit_quiet by quiet_side
    | rewrite live_handleError_quiet by quiet_side
    | live_step ].


(** * Checks on concrete inputs *)

Example detect_wechat_ios :
  let env :=
    detectEnvironment Text.plain
      "Mozilla/5.0 (iPhone; CPU iPhone OS 16_0 like Mac OS X) AppleWebKit/605.1.15 (KHTML, like Gecko) Mobile/15E148 MicroMessenger/8.0.30(0x18001e2d) NetType/WIFI Language/zh_CN"
      "https:" in
  browserType env = BrowserType.weixin /\
  isIOS env = true /\ isAndroid env = false /\ isHTTPS env = true /\
  supportsAutoplay env = true /\ weixinVersion env = Some "8.0.30".
Proof. vm_compute. repeat split. Qed.

Example detect_safari :
  browserType
    (detectEnvironment Text.plain
       "Mozilla/5.0 (Macintosh; Intel Mac OS X 10_15_7) AppleWebKit/605.1.15 (KHTML, like Gecko) Version/16.0 Safari/605.1.15"
       "http:") = BrowserType.safari.
Proof. vm_compute. reflexivity. Qed.

Example detect_chrome :
  browserType
    (detectEnvironment Text.plain
       "Mozilla/5.0 (Windows NT 10.0; Win64; x64) AppleWebKit/537.36 (KHTML, like Gecko) Chrome/120.0.0.0 Safari/537.36"
       "https:") = BrowserType.chrome.
Proof. vm_compute. reflexivity. Qed.

Example detect_legacy_edge :
  browserType
    (detectEnvironment Text.plain
       "Mozilla/5.0 (Windows NT 10.0) AppleWebKit/537.36 (KHTML, like Gecko) Chrome/64.0 Safari/537.36 Edge/18.17763"
       "https:") = BrowserType.chrome.
Proof. vm_compute. reflexivity. Qed.

Example detect_firefox :
  browserType
    (detectEnvironment Text.plain
       "Mozilla/5.0 (X11; Linux x86_64; rv:120.0) Gecko/20100101 FIREFOX/120.0"
       "https:") = BrowserType.firefox.
Proof. vm_compute. reflexivity. Qed.

Example detect_other :
  browserType (detectEnvironment Text.plain "curl/8.4.0" "https:") = BrowserType.other.
Proof. vm_compute. reflexivity. Qed.

Example version_needs_three_parts :
  weixinVersion (detectEnvironment Text.plain "MicroMessenger/8.0" "https:") = None.
Proof. vm_compute. reflexivity. Qed.

Example guard_examples :
  volume_rejected (Js.VNumber 0) = false /\
  volume_rejected (Js.VNumber 1) = false /\
  volume_rejected (Js.VNumber 0.5) = false /\
  volume_rejected (Js.VNumber (-0.5)) = true /\
  volume_rejected (Js.VNumber 1.5) = true /\
  volume_rejected (Js.VNumber infinity) = true /\
  volume_rejected (Js.VNumber neg_infinity) = true /\
  volume_rejected (Js.VString "0.5") = true /\
  volume_rejected Js.VUndefined = true /\
  volume_rejected (Js.VNumber nan) = false.
Proof. vm_compute. repeat split. Qed.

Example constructor_rejects_missing_src :
  constructor Sample.world (Raw.only_src Js.VUndefined) =
    Js.Throws
      (Js.mkError "Audio source (src) is required and must be a valid URL") /\
  constructor Sample.world (Raw.only_src (Js.VString "")) =
    Js.Throws
      (Js.mkError "Audio source (src) is required and must be a valid URL").
Proof. split; reflexivity. Qed.

Example life_cycle :
  state Sample.fresh = PlayerState.loading /\
  state Sample.loaded = PlayerState.ready /\
  state Sample.started = PlayerState.playing /\
  soundInstance Sample.started = Some 1 /\
  state Sample.gone = PlayerState.idle /\
  destroyed Sample.gone = true /\
  soundInstance Sample.gone = None.
Proof. repeat split. Qed.

Example load_then_play_trace :
  trace (run [FileLoad (Js.VString (audioId Sample.fresh)) (Sample.engine_ok 1);
              DoPlay (Sample.engine_ok 1);
              DoPause (Js.Returns tt)]
           Sample.fresh) =
  [Emitted Ev.statechange [AState PlayerState.ready];
   Delivered (Fn 1 false) Ev.statechange [AState PlayerState.ready];
   Logged Console.info Console.AudioLoaded;
   Emitted Ev.ready [];
   Delivered (Noop onReady) Ev.ready [];
   Logged Console.info Console.StartingPlayback;
   Called (SoundPlay "audio_1700000000000_4fzyo82mv" 0 default_volume);
   Called (InstanceOn 1 "complete");
   Emitted Ev.statechange [AState PlayerState.playing];
   Delivered (Fn 1 false) Ev.statechange [AState PlayerState.playing];
   Emitted Ev.play [];
   Delivered (Noop onPlay) Ev.play [];
   Logged Console.info Console.PlaybackStarted;
   Called (InstancePause 1);
   Emitted Ev.statechange [AState PlayerState.paused];
   Delivered (Fn 1 false) Ev.statechange [AState PlayerState.paused];
   Emitted Ev.pause [];
   Delivered (Noop onPause) Ev.pause [];
   Logged Console.info Console.AudioPaused].
Proof. vm_compute. reflexivity. Qed.

(** * The claims *)

(** C1, where the code departs from it. NaN is not a finite number between
    0 and 1, yet in every state of the player, and whatever the engine
    answers, [setVolume(NaN)] returns normally, stores NaN as the volume
    and emits [volumechange] with NaN. *)
Theorem setVolume_accepts_NaN applied p :
  finite_in_unit_interval nan = false /\
  result (setVolume (Js.VNumber nan) applied p) = Js.Returns tt /\
  getVolume (after (setVolume (Js.VNumber nan) applied p)) = nan /\
  notifications (trace (setVolume (Js.VNumber nan) applied p)) =
    Emitted Ev.volumechange [ANumber nan]
    :: deliveries p Ev.volumechange [ANumber nan].
Proof.
  split; [reflexivity|].
  destruct (setVolume_accepts (Js.VNumber nan) applied p eq_refl)
    as (Hr & Ha & Hn).
  rewrite Hr, Ha, Hn. repeat split.
Qed.

(** C2, as the code has it. After a [destroy()] whose teardown raised
    nothing, the player is marked destroyed, and from then on: [play()] is
    rejected with "Player has been destroyed" and changes nothing; [pause()]
    and [stop()] return without changing a field and without saying
    anything; [setVolume] with an accepted argument and [setMuted] still
    return normally and write the volume, respectively the muted flag, into
    the configuration, leaving every other field (state, handle, listener
    registry, destroyed flag) as it is; [setVolume] still emits
    [volumechange] to the listeners registered at that time, and [setMuted]
    emits nothing. *)
Theorem after_destroy env p :
  quiet env ->
  let d := after (destroy env p) in
  destroyed d = true /\
  (forall e,
     play e d =
     mkRun (Js.Throws (Js.mkError "Player has been destroyed")) d []) /\
  (forall paused, pause paused d = mkRun (Js.Returns tt) d []) /\
  (forall stopped, stop stopped d = mkRun (Js.Returns tt) d []) /\
  (forall volume applied,
     volume_rejected volume = false ->
     result (setVolume volume applied d) = Js.Returns tt /\
     after (setVolume volume applied d) =
       with_config (Cfg.with_volume (as_number volume)) d /\
     notifications (trace (setVolume volume applied d)) =
       Emitted Ev.volumechange [ANumber (as_number volume)]
       :: deliveries d Ev.volumechange [ANumber (as_number volume)]) /\
  (forall muted applied,
     result (setMuted muted applied d) = Js.Returns tt /\
     after (setMuted muted applied d) = with_config (Cfg.with_muted muted) d /\
     notifications (trace (setMuted muted applied d)) = []).
Proof.
  intros Hq d.
  assert (Hd : destroyed d = true) by now apply destroy_quiet_destroyed.
  split; [assumption|].
  split; [intros; now apply play_destroyed|].
  split; [intros; now apply pause_destroyed|].
  split; [intros; now apply stop_destroyed|].
  split; [intros; now apply setVolume_accepts|].
  intros. apply setMuted_run.
Qed.

Lemma after_destroy_witness :
  let d := after (destroy Sample.teardown_ok Sample.started) in
  destroyed d = true /\
  play (Sample.engine_ok 2) d =
    mkRun (Js.Throws (Js.mkError "Player has been destroyed")) d [] /\
  pause (Js.Returns tt) d = mkRun (Js.Returns tt) d [] /\
  stop (Js.Returns tt) d = mkRun (Js.Returns tt) d [] /\
  getVolume (after (setVolume (Js.VNumber 0.5) (Js.Returns tt) d)) =
    0.5%float /\
  isMuted (after (setMuted true (Js.Returns tt) d)) = true.
Proof.
  intros d.
  assert (Hq : quiet Sample.teardown_ok) by (repeat split; reflexivity).
  destruct (after_destroy Sample.teardown_ok Sample.started Hq)
    as (Hd & Hplay & Hpause & Hstop & Hvol & Hmut).
  fold d in Hd, Hplay, Hpause, Hstop, Hvol, Hmut.
  split; [exact Hd|].
  split; [exact (Hplay (Sample.engine_ok 2))|].
  split; [exact (Hpause (Js.Returns tt))|].
  split; [exact (Hstop (Js.Returns tt))|].
  split.
  - destruct (Hvol (Js.VNumber 0.5) (Js.Returns tt) eq_refl) as (_ & Ha & _).
    rewrite Ha. reflexivity.
  - destruct (Hmut true (Js.Returns tt)) as (_ & Ha & _).
    rewrite Ha. reflexivity.
Defined.

(** C2, as stated, fails: on a destroyed player, [setVolume(0.5)] and
    [setMuted(true)] write into the configuration, and [setVolume] emits
    [volumechange], which reaches a listener registered after the
    destruction. *)
Lemma setters_not_ignored_after_destroy :
  destroyed Sample.gone = true /\
  volume_rejected (Js.VNumber 0.5) = false /\
  getVolume Sample.gone = default_volume /\
  getVolume (after (setVolume (Js.VNumber 0.5) (Js.Returns tt) Sample.gone)) =
    0.5%float /\
  isMuted Sample.gone = false /\
  isMuted (after (setMuted true (Js.Returns tt) Sample.gone)) = true /\
  ~ ignored (setVolume (Js.VNumber 0.5) (Js.Returns tt)) Sample.gone /\
  ~ ignored (setMuted true (Js.Returns tt)) Sample.gone /\
  trace (setVolume (Js.VNumber 0.5) (Js.Returns tt)
           (after (on Ev.volumechange (Fn 3 false) Sample.gone))) =
    [Emitted Ev.volumechange [ANumber 0.5];
     Delivered (Fn 3 false) Ev.volumechange [ANumber 0.5]].
Proof.
  do 6 (split; [vm_compute; reflexivity|]).
  split; [|split; [|vm_compute; reflexivity]].
  - intros [H _]. apply (f_equal getVolume) in H.
    apply (f_equal (fun x => (x <? 0.75)%float)) in H.
    vm_compute in H. discriminate.
  - intros [H _]. apply (f_equal isMuted) in H. vm_compute in H.
    discriminate.
Qed.

(** C3, where the code departs from it. A player is playing; the engine
    makes the first [destroy()] fail at [soundInstance.stop()], and answers
    the second without fault. Neither call throws. The first leaves every
    field as it was: state [playing], listeners registered, not destroyed.
    The second then runs the whole teardown: it clears the listener
    registry, moves the state to [idle], emits the [statechange] for it and
    marks the player destroyed. Two calls do not amount to one. *)
Theorem destroy_again_after_failed_teardown :
  let once := destroy Sample.teardown_stop_fails Sample.started in
  let twice := destroy Sample.teardown_ok (after once) in
  result once = Js.Returns tt /\
  after once = Sample.started /\
  state (after once) = PlayerState.playing /\
  destroyed (after once) = false /\
  emissions (trace once) = [] /\
  result twice = Js.Returns tt /\
  state (after twice) = PlayerState.idle /\
  eventListeners (after twice) = ∅ /\
  eventListeners (after once) <> ∅ /\
  destroyed (after twice) = true /\
  emissions (trace twice) = [(Ev.statechange, [AState PlayerState.idle])].
Proof.
  cbv zeta. do 8 (split; [vm_compute; reflexivity|]).
  split; [|split; vm_compute; reflexivity].
  intros H. apply (f_equal (fun m => m !! Ev.statechange)) in H.
  vm_compute in H. discriminate.
Qed.

(** C4, as the code has it. [setState] never throws and leaves the player in
    the requested state; it emits one [statechange], whose only argument is
    the new state, when the new state differs from the current one, and
    emits nothing when they are equal. Over any call or callback of the
    player, the [statechange] emissions are exactly the successive changes
    of the state: each carries the new state alone, differs from the state
    before it, and the last one is the state the player is left in. The
    same holds of the constructor, from [idle] to [loading]. *)
Theorem statechange_exactly_when_state_changes :
  (forall newState p,
     result (setState newState p) = Js.Returns tt /\
     state (after (setState newState p)) = newState /\
     emissions (trace (setState newState p)) =
       if bool_decide (state p = newState) then []
       else [(Ev.statechange, [AState newState])]) /\
  (forall i p,
     changes (state p) (announced (trace (step i p)))
       (state (after (step i p)))) /\
  (forall w src raw,
     changes PlayerState.idle (announced (trace (construct w src raw)))
       PlayerState.loading).
Proof.
  split; [|split].
  - intros newState p. rewrite setState_run.
    cbn [result after trace state with_state].
    repeat split. apply emissions_stating.
  - intros i p. apply tracks_step_all.
  - intros w src raw.
    destruct (construct_fields w src raw) as (_ & _ & <- & _).
    apply (tracks_construct w (fields w src raw)).
Qed.

(** C4, as stated, fails: the [statechange] emitted when a loading player
    becomes ready carries the new state only, not the state left behind. *)
Lemma statechange_carries_new_state_only :
  state Sample.fresh = PlayerState.loading /\
  trace (setState PlayerState.ready Sample.fresh) =
    [Emitted Ev.statechange [AState PlayerState.ready];
     Delivered (Fn 1 false) Ev.statechange [AState PlayerState.ready]] /\
  ~ carries_old_and_new Sample.fresh PlayerState.ready.
Proof.
  split; [reflexivity|]. split; [vm_compute; reflexivity|].
  intros (args & Hin & Hold & _).
  vm_compute in Hin. vm_compute in Hold.
  destruct Hin as [E|[E|[]]]; [|discriminate].
  injection E as <-. destruct Hold as [E|[]]. discriminate.
Qed.

(** C5, as the code has it. A [play()] that succeeds emits [play] once, and
    last. When the state was not [playing] it first emits one [statechange]
    carrying [playing], and every listener of [statechange] is called
    before [play] is emitted; when the state was already [playing] it emits
    no [statechange]. *)
Theorem play_announces_playing_before_play env p :
  result (play env p) = Js.Returns tt ->
  notifications (trace (play env p)) =
    (if bool_decide (state p = PlayerState.playing) then []
     else Emitted Ev.statechange [AState PlayerState.playing]
          :: deliveries p Ev.statechange [AState PlayerState.playing]) ++
    Emitted Ev.play [] :: deliveries p Ev.play [].
Proof.
  unfold play, setupSoundInstanceEvents, handleError. run_all.
  split_on (destroyed p).
  split_on (audioLoaded p).
  split_on (sound env).
  split_on (soundInstance p);
  [split_on (stopped env)|];
  split_on (created env);
  match goal with a : option SoundInstance |- _ => split_on a end;
  split_on (subscribed env);
  intros _; read_notes; reflexivity.
Qed.

Lemma play_announces_playing_before_play_witness :
  result (play (Sample.engine_ok 1) Sample.loaded) = Js.Returns tt /\
  notifications (trace (play (Sample.engine_ok 1) Sample.loaded)) =
    [Emitted Ev.statechange [AState PlayerState.playing];
     Delivered (Fn 1 false) Ev.statechange [AState PlayerState.playing];
     Emitted Ev.play [];
     Delivered (Noop onPlay) Ev.play []].
Proof.
  assert (H : result (play (Sample.engine_ok 1) Sample.loaded) = Js.Returns tt)
    by (vm_compute; reflexivity).
  split; [exact H|].
  rewrite (play_announces_playing_before_play
             (Sample.engine_ok 1) Sample.loaded H).
  vm_compute. reflexivity.
Defined.

(** C5, as stated, fails: while the player is playing, [play()] succeeds
    and emits [play] with no [statechange] before it. *)
Lemma play_while_playing_emits_no_statechange :
  state Sample.started = PlayerState.playing /\
  result (play (Sample.engine_ok 2) Sample.started) = Js.Returns tt /\
  emissions (trace (play (Sample.engine_ok 2) Sample.started)) =
    [(Ev.play, [])] /\
  ~ statechange_before_play (trace (play (Sample.engine_ok 2) Sample.started)).
Proof.
  repeat (split; [vm_compute; reflexivity|]).
  intros (pre & mid & post & E).
  assert (Hin : In (Emitted Ev.statechange [AState PlayerState.playing])
                   (trace (play (Sample.engine_ok 2) Sample.started))).
  { rewrite E. apply in_elt. }
  vm_compute in Hin.
  repeat (destruct Hin as [Hin|Hin]; [discriminate|]). exact Hin.
Qed.




(** C7. On a player that is not destroyed and whose audio is not loaded,
    [play()] is rejected with the error "Audio not loaded yet", whatever the
    engine would answer; no field of the player changes (state, handle and
    configuration among them) and nothing is emitted, called or logged. *)
Theorem play_before_load_rejects env p :
  destroyed p = false ->
  audioLoaded p = false ->
  play env p = mkRun (Js.Throws (Js.mkError "Audio not loaded yet")) p [].
Proof.
  intros Hd Hl. unfold play. run_all. rewrite Hd, Hl. reflexivity.
Qed.

Lemma play_before_load_rejects_witness :
  state Sample.fresh = PlayerState.loading /\
  play (Sample.engine_ok 1) Sample.fresh =
    mkRun (Js.Throws (Js.mkError "Audio not loaded yet")) Sample.fresh [] /\
  state (after (play (Sample.engine_ok 1) Sample.fresh)) =
    PlayerState.loading.
Proof.
  split; [reflexivity|].
  assert (Hd : destroyed Sample.fresh = false) by reflexivity.
  assert (Hl : audioLoaded Sample.fresh = false) by reflexivity.
  pose proof (play_before_load_rejects (Sample.engine_ok 1) Sample.fresh
                Hd Hl) as H.
  split; [exact H|]. rewrite H. reflexivity.
Defined.

Lemma first_match_ext (has has' : string -> Prop) b :
  (forall tok,
     In tok ["micromessenger"; "safari"; "chrome"; "chromium"; "edge";
             "firefox"] ->
     (has tok <-> has' tok)) ->
  first_match has b -> first_match has' b.
Proof.
  intros H.
  assert (H1 := H "micromessenger"). assert (H2 := H "safari").
  assert (H3 := H "chrome"). assert (H4 := H "chromium").
  assert (H5 := H "edge"). assert (H6 := H "firefox").
  cbn in H1, H2, H3, H4, H5, H6.
  unfold first_match. destruct b; intuition.
Qed.

Lemma first_match_detected U ua protocol :
  first_match (fun tok => Text.occurs tok (Text.toLowerCase U ua))
    (browserType (detectEnvironment U ua protocol)).
Proof.
  set (has := fun tok => Text.occurs tok (Text.toLowerCase U ua)).
  unfold detectEnvironment. cbn [browserType].
  set (lower := Text.toLowerCase U ua) in *.
  assert (Hw : Text.test_i ["micromessenger"] lower = true <->
               has "micromessenger") by apply test_i_one.
  assert (Hs : Text.test_i ["safari"] lower = true <-> has "safari")
    by apply test_i_one.
  assert (Hf : Text.test_i ["firefox"] lower = true <-> has "firefox")
    by apply test_i_one.
  assert (Hc : Text.test_i ["chrome"; "chromium"] lower = true <->
               has "chrome" \/ has "chromium").
  { rewrite test_i_spec. unfold has. split.
    - intros (l & [<-|[<-|[]]] & H); auto.
    - intros [H|H]; eexists; (split; [|exact H]); cbn; auto. }
  assert (He : Text.test_i ["chrome"; "chromium"; "edge"] lower = true <->
               has "chrome" \/ has "chromium" \/ has "edge").
  { rewrite test_i_spec. unfold has. split.
    - intros (l & [<-|[<-|[<-|[]]]] & H); auto.
    - intros [H|[H|H]]; eexists; (split; [|exact H]); cbn; auto. }
  unfold first_match. fold has.
  destruct (Text.test_i ["micromessenger"] lower); [now apply Hw|].
  assert (Nw : ~ has "micromessenger")
    by (intros H; apply Hw in H; discriminate).
  destruct (Text.test_i ["safari"] lower) eqn:Es;
    destruct (Text.test_i ["chrome"; "chromium"; "edge"] lower) eqn:Ee;
    cbn [andb negb].
  2: { split; [assumption|]. split; [now apply Hs|].
       intros H. apply He in H. discriminate. }
  all: assert (Ns : ~ (has "safari" /\
                       ~ (has "chrome" \/ has "chromium" \/ has "edge")))
         by (intros [H1 H2];
             first [ apply H2, He; reflexivity
                   | apply Hs in H1; discriminate ]).
  all: destruct (Text.test_i ["chrome"; "chromium"] lower);
         [repeat split; try assumption; now apply Hc|].
  all: assert (Nc : ~ (has "chrome" \/ has "chromium"))
         by (intros H; apply Hc in H; discriminate).
  all: destruct (Text.test_i ["firefox"] lower);
         [repeat split; try assumption; now apply Hf|].
  all: repeat split; try assumption; intros H; apply Hf in H; discriminate.
Qed.

(** C8. For every user agent, the browser type computed by
    [detectEnvironment] is the first of these that applies, the tokens
    being looked for in the lower-cased user agent: [weixin] when
    "micromessenger" occurs; [safari] when "safari" occurs and none of
    "chrome", "chromium", "edge" does; [chrome] when "chrome" or
    "chromium" occurs; [firefox] when "firefox" occurs; [other] when none
    applies. For every user agent that does not hold U+0130, that is the
    first match with the tokens looked for in the user agent itself,
    without regard to the case of the letters A to Z. *)
Theorem browser_type_first_match U ua protocol :
  first_match (fun tok => Text.occurs tok (Text.toLowerCase U ua))
    (browserType (detectEnvironment U ua protocol)) /\
  (~ In Text.dotted_capital_I (Text.chars ua) ->
   first_match (fun tok => Text.occurs tok ua)
     (browserType (detectEnvironment U ua protocol))).
Proof.
  split; [apply first_match_detected|].
  intros N.
  apply (first_match_ext
           (fun tok => Text.occurs tok (Text.toLowerCase U ua))).
  - intros tok Hin. apply occurs_toLowerCase; [| |assumption];
      cbn in Hin; intuition; subst; first [reflexivity | discriminate].
  - apply first_match_detected.
Qed.

Lemma browser_type_first_match_witness :
  let ua := "Mozilla/5.0 (Macintosh) AppleWebKit/605.1.15 SAFARI/605.1.15" in
  ~ In Text.dotted_capital_I (Text.chars ua) /\
  browserType (detectEnvironment Text.plain ua "https:") =
    BrowserType.safari /\
  first_match (fun tok => Text.occurs tok ua)
    (browserType (detectEnvironment Text.plain ua "https:")).
Proof.
  intros ua.
  assert (N : ~ In Text.dotted_capital_I (Text.chars ua)).
  { intros H. vm_compute in H.
    repeat (destruct H as [H|H]; [discriminate|]). exact H. }
  split; [exact N|]. split; [vm_compute; reflexivity|].
  exact (proj2 (browser_type_first_match Text.plain ua "https:") N).
Defined.

(** C8, as stated, fails: U+0130 is no case of the letter [i], and a user
    agent that spells "SAFAR" followed by U+0130 holds the token "safari"
    in no case of its letters; yet its lower case is "safari" followed by
    U+0307, and the detector answers [safari]. *)
Lemma browser_type_of_dotted_capital_I :
  let ua := "Mozilla/5.0 SAFAR" +:+ Text.dotted_capital_I +:+ "/605" in
  browserType (detectEnvironment Text.plain ua "https:") =
    BrowserType.safari /\
  ~ Text.occurs "safari" ua /\
  ~ first_match (fun tok => Text.occurs tok ua)
      (browserType (detectEnvironment Text.plain ua "https:")).
Proof.
  intros ua.
  assert (E : browserType (detectEnvironment Text.plain ua "https:") =
              BrowserType.safari) by (vm_compute; reflexivity).
  assert (N : ~ Text.occurs "safari" ua).
  { rewrite <- search_i_spec. vm_compute. discriminate. }
  split; [exact E|]. split; [exact N|].
  rewrite E. cbn [first_match]. intros (_ & H & _). now apply N.
Qed.

(** C9. Given a configuration that holds a non-empty string [src] and
    nothing else, the constructor does not throw, and the resolved
    configuration has volume 0.8 (the binary64 number 7205759403792794 *
    2^-53, which lies within half a unit in the last place of eight
    tenths), loop, muted, autoplay and debug all false, a load timeout of
    10000, the generated load identifier "audio_<now>_<random>", which is
    not empty and is the player's [audioId], and, in each of the eight
    callback slots, the no-op function written as that slot's default. *)
Theorem constructor_fills_defaults w c s :
  let src := String c s in
  exists r,
    constructor w (Raw.only_src (Js.VString src)) = Js.Returns r /\
    let cfg := config (after r) in
    Cfg.src cfg = src /\
    Cfg.volume cfg = 0.8%float /\
    Prim2SF (Cfg.volume cfg) = S754_finite false 7205759403792794 (-53) /\
    (2 * Z.abs (10 * 7205759403792794 - 8 * 2 ^ 53) < 10)%Z /\
    Cfg.loop cfg = false /\
    Cfg.muted cfg = false /\
    Cfg.autoplay cfg = false /\
    Cfg.debug cfg = false /\
    Cfg.timeout (Cfg.loadOptions cfg) = 10000%float /\
    Cfg.id (Cfg.loadOptions cfg) =
      "audio_" +:+ decimal (now w) +:+ "_" +:+ substring 2 9 (random36 w) /\
    Cfg.id (Cfg.loadOptions cfg) <> "" /\
    audioId (after r) = Cfg.id (Cfg.loadOptions cfg) /\
    Cfg.onReady cfg = Noop onReady /\
    Cfg.onPlay cfg = Noop onPlay /\
    Cfg.onPause cfg = Noop onPause /\
    Cfg.onStop cfg = Noop onStop /\
    Cfg.onEnded cfg = Noop onEnded /\
    Cfg.onError cfg = Noop onError /\
    Cfg.onVolumeChange cfg = Noop onVolumeChange /\
    Cfg.onTimeUpdate cfg = Noop onTimeUpdate.
Proof.
  intros src. exists (construct w src (Raw.only_src (Js.VString src))).
  split; [reflexivity|].
  cbv zeta.
  destruct (construct_fields w src (Raw.only_src (Js.VString src)))
    as (-> & -> & _).
  cbn [merged Cfg.src Cfg.volume Cfg.loop Cfg.muted Cfg.autoplay Cfg.debug
       Cfg.timeout Cfg.id Cfg.loadOptions Cfg.onReady Cfg.onPlay Cfg.onPause
       Cfg.onStop Cfg.onEnded Cfg.onError Cfg.onVolumeChange
       Cfg.onTimeUpdate].
  split; [reflexivity|]. split; [reflexivity|].
  split; [apply default_volume_nearest|].
  split; [apply default_volume_nearest|].
  repeat split. apply generated_id_nonempty.
Qed.

(** C10. A [fileload] or [fileerror] event whose id is not the player's
    own identifier leaves every field of the player as it is and makes the
    handlers say nothing: the loaded flag and the state are untouched,
    nothing is emitted, and no autoplay is attempted. With the player's own
    identifier the handlers do act: [handleSoundLoad] sets the loaded flag
    and [handleSoundError] ends in the error state. *)
Theorem foreign_load_events_ignored p id :
  (id <> Js.VString (audioId p) ->
   forall env message,
     handleSoundLoad id env p = mkRun (Js.Returns tt) p [] /\
     handleSoundError id message p = mkRun (Js.Returns tt) p []) /\
  (id = Js.VString (audioId p) ->
   forall env message,
     audioLoaded (after (handleSoundLoad id env p)) = true /\
     state (after (handleSoundError id message p)) = PlayerState.error).
Proof.
  split.
  - intros Hne env message.
    assert (E : Js.strict_eq_string id (audioId p) = false).
    { apply not_true_is_false. now rewrite strict_eq_string_spec. }
    unfold handleSoundLoad, handleSoundError. run_all. now rewrite E.
  - intros -> env message.
    assert (E : Js.strict_eq_string (Js.VString (audioId p)) (audioId p) = true).
    { now apply strict_eq_string_spec. }
    split.
    + unfold handleSoundLoad. rewrite bind_run. cbn [get result after trace].
      rewrite E. unfold after_saying at 1; cbn [after].
      rewrite bind_run. cbn [modify result after trace].
      unfold after_saying at 1; cbn [after].
      match goal with
      | |- audioLoaded (after (?rest _)) = _ =>
          assert (H : preserves audioLoaded rest) by preserves_auto
      end.
      now rewrite H.
    + unfold handleSoundError. rewrite bind_run. cbn [get result after trace].
      rewrite E. unfold after_saying; cbn [after].
      now rewrite handleError_after.
Qed.

Lemma foreign_load_events_ignored_witness :
  handleSoundLoad (Js.VString "audio_of_another_player")
    (Sample.engine_ok 1) Sample.fresh =
    mkRun (Js.Returns tt) Sample.fresh [] /\
  handleSoundError (Js.VString "audio_of_another_player") None Sample.fresh =
    mkRun (Js.Returns tt) Sample.fresh [].
Proof.
  refine (proj1 (foreign_load_events_ignored Sample.fresh
                   (Js.VString "audio_of_another_player")) _
            (Sample.engine_ok 1) None).
  vm_compute. discriminate.
Defined.

(** * Further properties of the code *)

(** ** The listener registry: [on] and [off] *)

Lemma with_eventListeners_same p :
  with_eventListeners (eventListeners p) p = p.
Proof. now destruct p. Qed.

Lemma on_run event l p :
  on event l p =
  mkRun (Js.Returns tt)
    (with_eventListeners
       (<[event :=
            if bool_decide (l ∈ listeners_of p event) then listeners_of p event
            else listeners_of p event ++ [l]]> (eventListeners p)) p) [].
Proof. reflexivity. Qed.

Lemma listeners_of_on event l p event' :
  listeners_of (after (on event l p)) event' =
  if bool_decide (event' = event) then
    if bool_decide (l ∈ listeners_of p event) then listeners_of p event
    else listeners_of p event ++ [l]
  else listeners_of p event'.
Proof.
  rewrite on_run. cbn [after]. unfold listeners_of at 1.
  cbn [eventListeners with_eventListeners].
  destruct (bool_decide_reflect (event' = event)) as [->|Hne].
  - now rewrite lookup_insert_eq.
  - now rewrite lookup_insert_ne by congruence.
Qed.

Lemma filter_ne_absent (l : Listener) (ls : list Listener) :
  l ∉ ls -> filter (fun x => x ≠ l) ls = ls.
Proof.
  induction ls as [|x ls IH]; intros H; [reflexivity|].
  apply not_elem_of_cons in H as [Hx Hls].
  rewrite filter_cons_True by congruence. now rewrite IH.
Qed.

Lemma filter_ne_snoc (l : Listener) (ls : list Listener) :
  l ∉ ls -> filter (fun x => x ≠ l) (ls ++ [l]) = ls.
Proof.
  intros H. rewrite filter_app, filter_ne_absent by assumption.
  rewrite filter_cons_False by (intros E; now apply E).
  rewrite filter_nil. apply app_nil_r.
Qed.

(** X1. [on] has the semantics of [Set.add]: adding a listener a second time
    changes nothing, whatever was registered before. *)
Theorem on_twice event l p :
  on event l (after (on event l p)) =
  mkRun (Js.Returns tt) (after (on event l p)) [].
Proof.
  rewrite (on_run event l (after (on event l p))).
  f_equal.
  rewrite (listeners_of_on event l p event).
  rewrite (bool_decide_eq_true_2 (event = event)) by reflexivity.
  assert (Hin : l ∈ (if bool_decide (l ∈ listeners_of p event)
                     then listeners_of p event
                     else listeners_of p event ++ [l])).
  { destruct (bool_decide_reflect (l ∈ listeners_of p event)); [assumption|].
    apply elem_of_app. right. now apply list_elem_of_singleton. }
  rewrite bool_decide_eq_true_2 by assumption.
  rewrite on_run. cbn [after eventListeners with_eventListeners].
  now rewrite insert_insert_eq.
Qed.

(** X2. Registering a listener and removing it again restores the player as it
    was, registry included, when the listener was not registered for that
    event before and the event was not mapped to an empty set. *)
Theorem on_off_round_trip event l p :
  l ∉ listeners_of p event ->
  eventListeners p !! event <> Some [] ->
  after (off event l (after (on event l p))) = p.
Proof.
  intros Hl Hne. rewrite on_run. cbn [after].
  rewrite bool_decide_eq_false_2 by assumption.
  unfold off, modify. cbn [after eventListeners with_eventListeners].
  rewrite lookup_insert_eq, filter_ne_snoc by assumption.
  unfold listeners_of in *.
  destruct (eventListeners p !! event) as [[|x ls]|] eqn:E;
    cbn [default from_option id app].
  - now contradiction Hne.
  - rewrite insert_insert_eq, insert_id by assumption.
    now destruct p.
  - rewrite delete_insert_eq, delete_id by assumption.
    now destruct p.
Qed.

Lemma on_off_round_trip_witness :
  after (off Ev.ended (Fn 7 false)
           (after (on Ev.ended (Fn 7 false) Sample.fresh))) = Sample.fresh.
Proof.
  apply (on_off_round_trip Ev.ended (Fn 7 false) Sample.fresh).
  - apply (proj1 (bool_decide_eq_false _)). vm_compute. reflexivity.
  - vm_compute. discriminate.
Defined.

(** X3. [off] removes the listener from the set of its event and from nothing
    else, keeps the order of the listeners that stay, never leaves an event
    mapped to an empty set, and says nothing. *)
Theorem off_removes event l p :
  result (off event l p) = Js.Returns tt /\
  trace (off event l p) = [] /\
  (forall event',
     listeners_of (after (off event l p)) event' =
     if bool_decide (event' = event)
     then filter (fun x => x ≠ l) (listeners_of p event)
     else listeners_of p event') /\
  (l ∉ listeners_of (after (off event l p)) event) /\
  eventListeners (after (off event l p)) !! event <> Some [].
Proof.
  split; [reflexivity|]. split; [reflexivity|].
  assert (H : forall event',
     listeners_of (after (off event l p)) event' =
     if bool_decide (event' = event)
     then filter (fun x => x ≠ l) (listeners_of p event)
     else listeners_of p event').
  { intros event'. unfold off, modify, listeners_of. cbn [after].
    destruct (eventListeners p !! event) as [ls|] eqn:E.
    - destruct (filter (fun x => x ≠ l) ls) as [|x ls'] eqn:F;
        cbn [eventListeners with_eventListeners];
        destruct (bool_decide_reflect (event' = event)) as [->|Hne].
      + now rewrite lookup_delete_eq.
      + now rewrite lookup_delete_ne by congruence.
      + now rewrite lookup_insert_eq.
      + now rewrite lookup_insert_ne by congruence.
    - destruct (bool_decide_reflect (event' = event)) as [->|Hne];
        [now rewrite E|reflexivity]. }
  split; [exact H|]. split.
  - rewrite H, bool_decide_eq_true_2 by reflexivity.
    intros Hin. apply list_elem_of_filter in Hin as [Hne _]. now apply Hne.
  - unfold off, modify. cbn [after].
    destruct (eventListeners p !! event) as [ls|] eqn:E.
    + destruct (filter (fun x => x ≠ l) ls) as [|x ls'] eqn:F;
        cbn [eventListeners with_eventListeners].
      * now rewrite lookup_delete_eq.
      * now rewrite lookup_insert_eq.
    + now rewrite E.
Qed.

(** ** Invariants of the fields *)

Section Keeps.

Context (P : Player -> Prop).

Lemma keeps_ret {A} (a : A) : keeps P (mret a).
Proof. intros p H. exact H. Qed.

Lemma keeps_skip : keeps P skip.
Proof. intros p H. exact H. Qed.

Lemma keeps_throw {A} e : keeps P (@throw A e).
Proof. intros p H. exact H. Qed.

Lemma keeps_get : keeps P get.
Proof. intros p H. exact H. Qed.

Lemma keeps_call {A} c (answer : Js.outcome A) : keeps P (call c answer).
Proof. intros p H. exact H. Qed.

Lemma keeps_log l t : keeps P (log l t).
Proof. intros p H. now rewrite log_run. Qed.

Lemma keeps_emit event args : keeps P (emit event args).
Proof. intros p H. now rewrite emit_run. Qed.

Lemma keeps_modify g : (forall p, P p -> P (g p)) -> keeps P (modify g).
Proof. intros Hg p H. now apply Hg. Qed.

Lemma keeps_setState s :
  (forall p, P p -> P (with_state s p)) -> keeps P (setState s).
Proof. intros Hs p H. rewrite setState_run. now apply Hs. Qed.

Lemma keeps_bind {A C} (m : M A) (k : A -> M C) :
  keeps P m -> (forall a, keeps P (k a)) -> keeps P (m ≫= k).
Proof.
  intros Hm Hk p H. rewrite bind_run. specialize (Hm p H).
  destruct (result (m p)) as [a|e]; [|assumption].
  unfold after_saying; cbn [after]. now apply Hk.
Qed.

Lemma keeps_try_catch {A} (body : M A) handler :
  keeps P body -> (forall e, keeps P (handler e)) ->
  keeps P (try_catch body handler).
Proof.
  intros Hb Hh p H. rewrite try_catch_run. specialize (Hb p H).
  destruct (result (body p)) as [a|e]; [assumption|].
  unfold after_saying; cbn [after]. now apply Hh.
Qed.

End Keeps.

Create HintDb keeps.

(** One step of a proof of [keeps]: follow the shape of the method; what a
    [modify] or a [setState] does to the invariant is left to [side]. *)
Ltac keeps_step side :=
  match goal with
  | |- keeps _ (_ ≫= _) => apply keeps_bind; [|intros]
  | |- keeps _ (try_catch _ _) => apply keeps_try_catch; [|intros]
  | |- keeps _ (modify _) => apply keeps_modify; side
  | |- keeps _ (setState _) => apply keeps_setState; side
  | |- keeps _ (log _ _) => apply keeps_log
  | |- keeps _ (emit _ _) => apply keeps_emit
  | |- keeps _ (call _ _) => apply keeps_call
  | |- keeps _ (throw _) => apply keeps_throw
  | |- keeps _ (mret _) => apply keeps_ret
  | |- keeps _ skip => apply keeps_skip
  | |- keeps _ get => apply keeps_get
  | |- keeps _ (if ?b then _ else _) => destruct b
  | |- keeps _ (match ?x with _ => _ end) => destruct x
  | |- keeps _ _ => solve [auto with keeps]
  end.

Ltac keeps_auto side := repeat keeps_step side.

Ltac unfold_methods :=
  unfold handleSoundLoad, handleSoundError, loadTimeout, onComplete,
    play, pause, stop, setVolume, setMuted, setLoop, destroy,
    handleError, setupSoundInstanceEvents, bindConfigCallbacks, initialize,
    loadSoundJS, setupSoundJSEventListeners.

Lemma run_nil p : run [] p = mkRun (Js.Returns tt) p [].
Proof. reflexivity. Qed.

Lemma after_run_cons i inputs p :
  after (run (i :: inputs) p) = after (run inputs (after (step i p))).
Proof. reflexivity. Qed.

Lemma keeps_run (P : Player -> Prop) :
  (forall i, keeps P (step i)) ->
  forall inputs p, P p -> P (after (run inputs p)).
Proof.
  intros Hstep inputs. induction inputs as [|i inputs IH]; intros p H.
  - exact H.
  - rewrite after_run_cons. apply IH. now apply Hstep.
Qed.

(** *** The registry is well formed *)

Lemma registry_ok_ext p q :
  eventListeners q = eventListeners p -> registry_ok p -> registry_ok q.
Proof. unfold registry_ok. now intros ->. Qed.

Lemma registry_ok_on event l : keeps registry_ok (on event l).
Proof.
  intros p H event' ls. rewrite on_run.
  cbn [after eventListeners with_eventListeners].
  destruct (decide (event = event')) as [<-|Hne].
  - rewrite lookup_insert_eq. intros [= <-].
    unfold listeners_of.
    destruct (eventListeners p !! event) as [ls0|] eqn:E; cbn [default from_option id].
    + destruct (H event ls0 E) as [Hnil Hnd].
      destruct (bool_decide_reflect (l ∈ ls0)) as [Hin|Hin]; [now split|].
      split; [now destruct ls0|].
      apply NoDup_app. split; [assumption|]. split.
      * intros x Hx Hx'. apply list_elem_of_singleton in Hx'. now subst.
      * apply NoDup_singleton.
    + rewrite bool_decide_eq_false_2 by apply not_elem_of_nil.
      split; [discriminate|]. apply NoDup_singleton.
  - rewrite lookup_insert_ne by assumption. apply H.
Qed.

Lemma registry_ok_off event l : keeps registry_ok (off event l).
Proof.
  intros p H event' ls. unfold off, modify. cbn [after].
  destruct (eventListeners p !! event) as [ls0|] eqn:E; [|apply H].
  destruct (H event ls0 E) as [_ Hnd].
  destruct (filter (fun x => x ≠ l) ls0) as [|x ls'] eqn:F;
    cbn [eventListeners with_eventListeners].
  - destruct (decide (event = event')) as [<-|Hne].
    + now rewrite lookup_delete_eq.
    + rewrite lookup_delete_ne by assumption. apply H.
  - destruct (decide (event = event')) as [<-|Hne].
    + rewrite lookup_insert_eq. intros [= <-].
      split; [discriminate|]. rewrite <- F. now apply NoDup_filter.
    + rewrite lookup_insert_ne by assumption. apply H.
Qed.

#[local] Hint Resolve registry_ok_on registry_ok_off : keeps.

(** What the setters of the other fields do to the registry invariant. *)
Ltac registry_side :=
  intros ? ?;
  first
    [ assumption
    | eapply registry_ok_ext; [|eassumption]; reflexivity
    | intros ? ?; cbn [eventListeners with_eventListeners];
      rewrite lookup_empty; discriminate ].

Lemma registry_ok_step i : keeps registry_ok (step i).
Proof.
  destruct i; cbn [step]; unfold_methods; keeps_auto registry_side.
Qed.

Lemma registry_ok_construct w src raw :
  registry_ok (after (construct w src raw)).
Proof.
  unfold construct.
  assert (H : keeps registry_ok (bindConfigCallbacks;; initialize w)).
  { unfold_methods. keeps_auto registry_side. }
  apply H. intros event ls. cbn. rewrite lookup_empty. discriminate.
Qed.

(** X4. From its construction on, whatever is called on the player and
    whatever the engine signals or answers, the registry never maps an
    event to an empty set and never holds a listener twice for an event. *)
Theorem registry_always_ok w src raw inputs :
  registry_ok (after (run inputs (after (construct w src raw)))).
Proof.
  apply keeps_run; [apply registry_ok_step|apply registry_ok_construct].
Qed.

(** *** Flags that never go back *)

Lemma preserves_keeps {A B} (f : Player -> B) (v : B) (m : M A) :
  preserves f m -> keeps (fun p => f p = v) m.
Proof. intros H p E. now rewrite H. Qed.

Lemma on_preserves {B} (f : Player -> B) event l :
  (forall m p, f (with_eventListeners m p) = f p) ->
  preserves f (on event l).
Proof. intros H p. rewrite on_run. apply H. Qed.

Lemma off_preserves {B} (f : Player -> B) event l :
  (forall m p, f (with_eventListeners m p) = f p) ->
  preserves f (off event l).
Proof.
  intros H p. unfold off, modify. cbn [after].
  destruct (eventListeners p !! event) as [ls|]; [|reflexivity].
  destruct (filter _ ls); apply H.
Qed.

(** What a setter does to a flag that is only ever set to [true]. *)
Ltac flag_side := intros ? ?; first [assumption | reflexivity].

Lemma destroyed_stays_step i : keeps (fun p => destroyed p = true) (step i).
Proof.
  destruct i; cbn [step];
    try (apply preserves_keeps;
         first [apply on_preserves | apply off_preserves]; reflexivity);
    unfold_methods; keeps_auto flag_side.
Qed.

Lemma audioLoaded_stays_step i :
  keeps (fun p => audioLoaded p = true) (step i).
Proof.
  destruct i; cbn [step];
    try (apply preserves_keeps;
         first [apply on_preserves | apply off_preserves]; reflexivity);
    unfold_methods; keeps_auto flag_side.
Qed.

(** X5. Once the player is destroyed it stays destroyed: after any further
    calls and engine events, [play()] is still rejected with "Player has
    been destroyed" and changes nothing. *)
Theorem destroyed_is_permanent inputs env p :
  destroyed p = true ->
  let q := after (run inputs p) in
  destroyed q = true /\
  play env q =
    mkRun (Js.Throws (Js.mkError "Player has been destroyed")) q [].
Proof.
  intros H q.
  assert (Hq : destroyed q = true).
  { apply (keeps_run (fun p => destroyed p = true));
      [apply destroyed_stays_step|assumption]. }
  split; [assumption|]. now apply play_destroyed.
Qed.

Lemma destroyed_is_permanent_witness :
  let q :=
    after (run [FileLoad (Js.VString (audioId Sample.gone))
                  (Sample.engine_ok 5);
                DoSetVolume (Js.VNumber 1) (Js.Returns tt);
                DoDestroy Sample.teardown_ok]
             Sample.gone) in
  destroyed q = true /\
  play (Sample.engine_ok 5) q =
    mkRun (Js.Throws (Js.mkError "Player has been destroyed")) q [].
Proof.
  apply (destroyed_is_permanent _ (Sample.engine_ok 5) Sample.gone).
  reflexivity.
Defined.

Lemma loadTimeout_loaded p :
  audioLoaded p = true -> loadTimeout p = mkRun (Js.Returns tt) p [].
Proof. intros H. unfold loadTimeout. run_all. now rewrite H. Qed.

(** X6. Once the load completed, the loaded flag stays set, so that the load
    timer, whenever it fires afterwards, does nothing. *)
Theorem late_load_timeout_is_harmless inputs p :
  audioLoaded p = true ->
  let q := after (run inputs p) in
  audioLoaded q = true /\ loadTimeout q = mkRun (Js.Returns tt) q [].
Proof.
  intros H q.
  assert (Hq : audioLoaded q = true).
  { apply (keeps_run (fun p => audioLoaded p = true));
      [apply audioLoaded_stays_step|assumption]. }
  split; [assumption|]. now apply loadTimeout_loaded.
Qed.

Lemma late_load_timeout_is_harmless_witness :
  let q :=
    after (run [DoPlay (Sample.engine_ok 4); DoStop (Js.Returns tt)]
             Sample.loaded) in
  audioLoaded q = true /\ loadTimeout q = mkRun (Js.Returns tt) q [].
Proof.
  apply (late_load_timeout_is_harmless _ Sample.loaded). reflexivity.
Defined.

(** *** A destroyed player holds no handle *)

Lemma play_keeps_released env :
  keeps (fun p => destroyed p = true /\ soundInstance p = None) (play env).
Proof. intros p [Hd Hs]. now rewrite play_destroyed. Qed.

#[local] Hint Resolve play_keeps_released : keeps.

Ltac released_side :=
  intros ? [? ?]; split; first [assumption | reflexivity].

Lemma released_stays_step i :
  keeps (fun p => destroyed p = true /\ soundInstance p = None) (step i).
Proof.
  destruct i; cbn [step].
  1: apply play_keeps_released.
  6: { intros p H. now rewrite on_run. }
  6: { intros p H. unfold off, modify. cbn [after].
       destruct (eventListeners p !! event) as [ls|]; [|assumption].
       now destruct (filter _ ls). }
  all: unfold handleSoundLoad, handleSoundError, loadTimeout, onComplete,
         pause, stop, setVolume, setMuted, setLoop, destroy, handleError;
       keeps_auto released_side.
Qed.

Lemma destroyed_preserved_step i :
  (forall env, i <> DoDestroy env) -> preserves destroyed (step i).
Proof.
  intros Hi. destruct i; cbn [step];
    try (first [apply on_preserves | apply off_preserves]; reflexivity);
    try (now contradiction (Hi env));
    unfold_methods; preserves_auto.
Qed.

(** Split on what is stuck in a run, and go on. *)
Ltac split_if_stuck x :=
  match goal with
  | |- context [match x with _ => _ end] => destruct x eqn:?; run_all
  end.

Ltac split_destroy env p :=
  repeat first
    [ split_if_stuck (soundInstance p)
    | split_if_stuck (instanceStopped env)
    | split_if_stuck (instanceDestroyed env)
    | split_if_stuck (engine env)
    | split_if_stuck (audioLoaded p)
    | split_if_stuck (soundRemoved env)
    | split_if_stuck (fileloadOff env)
    | split_if_stuck (fileerrorOff env) ].

Lemma destroy_releases env p :
  destroyed (after (destroy env p)) = true ->
  destroyed p = false ->
  soundInstance (after (destroy env p)) = None.
Proof.
  intros H D. revert H. unfold destroy. run_all. rewrite D. run_all.
  split_destroy env p;
    first [reflexivity | now rewrite D | intros _; assumption].
Qed.

Lemma handle_released_step i p :
  handle_released p -> handle_released (after (step i p)).
Proof.
  intros H. destruct (destroyed p) eqn:D.
  - intros _. apply (released_stays_step i p). split; [assumption|now apply H].
  - destruct i; try (
      intros Hd;
      match goal with
      | H' : destroyed (after (step ?i p)) = true |- _ =>
          rewrite (destroyed_preserved_step i) in H' by discriminate
      end; congruence).
    intros Hd. cbn [step] in *. now apply destroy_releases.
Qed.

(** X7. From its construction on, a player that is marked destroyed holds no
    engine handle, whatever was called and whatever the engine answered. *)
Theorem destroyed_player_holds_no_handle w src raw inputs :
  let q := after (run inputs (after (construct w src raw))) in
  destroyed q = true -> soundInstance q = None.
Proof.
  intros q. change (handle_released q).
  apply (keeps_run handle_released).
  - intros i p. apply handle_released_step.
  - intros Hd. destruct (construct_fields w src raw) as (_ & _ & _ & _ & E & _).
    congruence.
Qed.

Lemma destroyed_player_holds_no_handle_witness :
  let q :=
    after (run [FileLoad (Js.VString "audio_1700000000000_4fzyo82mv")
                  (Sample.engine_ok 1);
                DoPlay (Sample.engine_ok 2);
                DoDestroy Sample.teardown_ok;
                FileLoad (Js.VString "audio_1700000000000_4fzyo82mv")
                  (Sample.engine_ok 3)]
             (after (construct Sample.world "a.mp3"
                       (Raw.only_src (Js.VString "a.mp3"))))) in
  destroyed q = true /\ soundInstance q = None.
Proof.
  intros q.
  assert (D : destroyed q = true) by (vm_compute; reflexivity).
  split; [exact D|].
  exact (destroyed_player_holds_no_handle Sample.world "a.mp3"
           (Raw.only_src (Js.VString "a.mp3")) _ D).
Defined.

(** ** Reading engine calls, listener calls and console lines *)

Lemma engine_calls_app t1 t2 :
  engine_calls (t1 ++ t2) = engine_calls t1 ++ engine_calls t2.
Proof.
  induction t1 as [|o t1 IH]; [reflexivity|].
  destruct o; cbn; now rewrite IH.
Qed.

Lemma told_volumes_app t1 t2 :
  told_volumes (t1 ++ t2) = told_volumes t1 ++ told_volumes t2.
Proof.
  induction t1 as [|o t1 IH]; [reflexivity|].
  destruct o as [| |c|]; cbn; try assumption.
  destruct c; cbn; now rewrite IH.
Qed.

Lemma listener_calls_app t1 t2 :
  listener_calls (t1 ++ t2) = listener_calls t1 ++ listener_calls t2.
Proof.
  induction t1 as [|o t1 IH]; [reflexivity|].
  destruct o; cbn; now rewrite IH.
Qed.

Lemma console_lines_app t1 t2 :
  console_lines (t1 ++ t2) = console_lines t1 ++ console_lines t2.
Proof.
  induction t1 as [|o t1 IH]; [reflexivity|].
  destruct o; cbn; now rewrite IH.
Qed.

Lemma engine_calls_logged l t p : engine_calls (logged l t p) = [].
Proof. unfold logged. now destruct (_ && _). Qed.

Lemma told_volumes_logged l t p : told_volumes (logged l t p) = [].
Proof. unfold logged. now destruct (_ && _). Qed.

Lemma listener_calls_logged l t p : listener_calls (logged l t p) = [].
Proof. unfold logged. now destruct (_ && _). Qed.

Lemma engine_calls_told event args p ls :
  engine_calls (concat (map (told event args p) ls)) = [].
Proof.
  induction ls as [|l ls IH]; [reflexivity|].
  cbn [map concat]. rewrite engine_calls_app, IH.
  unfold told. now destruct (raises l).
Qed.

Lemma told_volumes_told event args p ls :
  told_volumes (concat (map (told event args p) ls)) = [].
Proof.
  induction ls as [|l ls IH]; [reflexivity|].
  cbn [map concat]. rewrite told_volumes_app, IH.
  unfold told. now destruct (raises l).
Qed.

Lemma listener_calls_told event args p ls :
  listener_calls (concat (map (told event args p) ls)) =
  map (fun l => (l, event, args)) ls.
Proof.
  induction ls as [|l ls IH]; [reflexivity|].
  cbn [map concat]. rewrite listener_calls_app, IH.
  unfold told. now destruct (raises l).
Qed.

Lemma console_lines_told event args p ls :
  console_lines (concat (map (told event args p) ls)) =
  map (fun l => (Console.error, Console.ListenerError event l))
      (List.filter raises ls).
Proof.
  induction ls as [|l ls IH]; [reflexivity|].
  cbn [map concat List.filter]. rewrite console_lines_app, IH.
  unfold told. now destruct (raises l).
Qed.

Lemma engine_calls_emitting event args p :
  engine_calls (emitting event args p) = [].
Proof. unfold emitting. cbn. apply engine_calls_told. Qed.

Lemma told_volumes_emitting event args p :
  told_volumes (emitting event args p) = [].
Proof. unfold emitting. cbn. apply told_volumes_told. Qed.

Lemma listener_calls_emitting event args p :
  listener_calls (emitting event args p) =
  map (fun l => (l, event, args)) (listeners_of p event).
Proof. unfold emitting. cbn. apply listener_calls_told. Qed.

Lemma engine_calls_stating s p : engine_calls (stating s p) = [].
Proof.
  unfold stating, announcing. destruct (bool_decide _); [reflexivity|].
  now rewrite engine_calls_app, engine_calls_emitting, engine_calls_logged.
Qed.

Lemma told_volumes_stating s p : told_volumes (stating s p) = [].
Proof.
  unfold stating, announcing. destruct (bool_decide _); [reflexivity|].
  now rewrite told_volumes_app, told_volumes_emitting, told_volumes_logged.
Qed.

Lemma listener_calls_stating s p :
  listener_calls (stating s p) =
  if bool_decide (state p = s) then []
  else map (fun l => (l, Ev.statechange, [AState s]))
           (listeners_of p Ev.statechange).
Proof.
  unfold stating, announcing. destruct (bool_decide _); [reflexivity|].
  rewrite listener_calls_app, listener_calls_emitting, listener_calls_logged.
  now rewrite app_nil_r.
Qed.

(** Read a computed trace with one of the readers. *)
Ltac read_trace :=
  repeat first
    [ rewrite engine_calls_app | rewrite engine_calls_logged
    | rewrite engine_calls_emitting | rewrite engine_calls_stating
    | rewrite told_volumes_app | rewrite told_volumes_logged
    | rewrite told_volumes_emitting | rewrite told_volumes_stating
    | rewrite listener_calls_app | rewrite listener_calls_logged
    | rewrite listener_calls_emitting | rewrite listener_calls_stating
    | rewrite emissions_app | rewrite emissions_logged
    | rewrite emissions_emitting | rewrite emissions_stating
    | rewrite app_nil_r
    | progress cbn [engine_calls told_volumes listener_calls emissions app
                    state eventListeners config soundInstance
                    with_state with_soundInstance with_config
                    with_audioLoaded with_destroyed with_eventListeners] ].

(** ** [emit] *)

Lemma live_notify_says inv event args l s :
  exists t,
    Live.said (Live.notify inv event args l s) = Delivered l event args :: t.
Proof.
  unfold Live.notify. live_all.
  destruct (inv l args s) as [[[]|e] s' t]; live_all; now eexists.
Qed.

Lemma live_forEach_notify_shape inv event args ls s :
  exists nested,
    length nested = length ls /\
    Live.said (Live.forEach (Live.notify inv event args) ls s) =
      concat (zip_with (fun l t => Delivered l event args :: t) ls nested).
Proof.
  revert s. induction ls as [|l ls IH]; intros s.
  - now exists [].
  - cbn [Live.forEach]. rewrite live_bind_run.
    rewrite (live_returns_notify inv event args l s).
    destruct (live_notify_says inv event args l s) as [t ->].
    destruct (IH (Live.stage (Live.notify inv event args l s)))
      as (nested & Hl & E).
    exists (t :: nested). split; [cbn; now rewrite Hl|].
    unfold Live.saying. cbn [Live.said]. now rewrite E.
Qed.

(** X8. [emit] returns whatever its listeners do, and calls every listener
    that the event has when [emit] starts, once each and in the order of
    registration, also past listeners that throw; what a listener calls
    meanwhile (any public method but [on] and [off]) is said between its
    call and the next one. When the listeners do not call back, [emit]
    changes no field and calls no one else, and each listener that throws
    costs one console error and nothing else. *)
Theorem emit_reaches_every_listener host depth event args s :
  let r := Live.emit (Live.calls host depth) event args s in
  let ls := listeners_of (Live.self s) event in
  Live.returned r = Js.Returns tt /\
  (exists nested,
     length nested = length ls /\
     Live.said r =
       Emitted event args ::
       concat (zip_with (fun l t => Delivered l event args :: t) ls nested)) /\
  (Live.quiet_on host (Live.self s) event ->
   Live.self (Live.stage r) = Live.self s /\
   listener_calls (Live.said r) = map (fun l => (l, event, args)) ls /\
   console_lines (Live.said r) =
     map (fun l => (Console.error, Console.ListenerError event l))
         (List.filter raises ls)).
Proof.
  intros r ls. split; [apply live_returns_emit|]. split.
  - unfold r, ls, listeners_of, Live.emit. live_all.
    destruct (eventListeners (Live.self s) !! event) as [l|]; cbn [default].
    + destruct (live_forEach_notify_shape (Live.calls host depth) event args
                  l s) as (nested & Hl & E).
      exists nested. split; [exact Hl|].
      destruct (Live.forEach _ l s) as [[[]|e] s' t]; cbn in E |- *;
        now rewrite E.
    + now exists [].
  - intros Q. unfold r. rewrite live_emit_quiet by exact Q.
    cbn [Live.said Live.stage Live.self Live.later].
    split; [reflexivity|]. split.
    + apply listener_calls_emitting.
    + unfold emitting. cbn [console_lines]. apply console_lines_told.
Qed.

(** ** [play] *)



Lemma live_play_rejected inv env s e :
  let p := Live.self s in
  let r := Live.play inv env s in
  Live.returned r = Js.Throws e ->
  (r = Live.mkRun (Js.Throws e) s [] /\
   e = Js.mkError
         (if destroyed p then "Player has been destroyed"
          else if negb (audioLoaded p) then "Audio not loaded yet"
          else "SoundJS not available") /\
   (destroyed p = true \/ audioLoaded p = false \/ sound env = false))
  \/
  (destroyed p = false /\ audioLoaded p = true /\ sound env = true /\
   In (Emitted Ev.error [AError e]) (Live.said r) /\
   ((e = Js.mkError "Failed to create sound instance" /\
     created env = Js.Returns None)
    \/
    (soundInstance p <> None /\ stopped env = Js.Throws e)
    \/
    created env = Js.Throws e)).
Proof.
  intros p r. unfold r, p. clear r p.
  unfold Live.play, Live.setupSoundInstanceEvents. live_all.
  destruct (destroyed (Live.self s)) eqn:D; live_all;
    [intros [= <-]; left; repeat split; now left|].
  destruct (audioLoaded (Live.self s)) eqn:L; live_all;
    [|intros [= <-]; left; repeat split; right; now left].
  destruct (sound env) eqn:S; live_all;
    [|intros [= <-]; left; repeat split; right; now right].
  intros H. right. split; [reflexivity|]. split; [reflexivity|].
  split; [reflexivity|]. revert H.
  destruct (soundInstance (Live.self s)) as [old|] eqn:I; live_all;
    [destruct (stopped env) as [[]|e0] eqn:E1; live_all|];
    try (destruct (created env) as [[h|]|e1] eqn:E2; live_all;
         [destruct (subscribed env); live_all;
          repeat live_settle; discriminate| |]);
    match goal with
    | |- context [Live.handleError inv ?x ?s0] =>
        destruct (live_handleError_says inv x s0) as (s' & t & -> & Hin)
    end; live_all; intros [= <-];
    (split;
     [ in_trace
     | first [ left; now split
             | right; left; now split
             | right; right; reflexivity ] ]).
Qed.

Lemma live_play_rejected_quiet host depth env s e :
  let p := Live.self s in
  let r := Live.play (Live.calls host depth) env s in
  Live.quiet_on host p Ev.statechange ->
  Live.quiet_on host p Ev.error ->
  destroyed p = false -> audioLoaded p = true -> sound env = true ->
  Live.returned r = Js.Throws e ->
  state (Live.self (Live.stage r)) = PlayerState.error /\
  Live.attached (Live.stage r) = Live.attached s /\
  emissions (Live.said r) =
    (if bool_decide (state p = PlayerState.error) then []
     else [(Ev.statechange, [AState PlayerState.error])]) ++
    [(Ev.error, [AError e])] /\
  ((e = Js.mkError "Failed to create sound instance" /\
    created env = Js.Returns None /\
    soundInstance (Live.self (Live.stage r)) = None)
   \/
   ((stopped env = Js.Throws e \/ created env = Js.Throws e) /\
    soundInstance (Live.self (Live.stage r)) = soundInstance p)).
Proof.
  intros p r Q1 Q2 D L S. unfold r, p in *. clear r p.
  unfold Live.play, Live.setupSoundInstanceEvents. live_all.
  rewrite D, L, S. live_all.
  destruct (soundInstance (Live.self s)) as [old|] eqn:I; live_all;
    [destruct (stopped env) as [[]|e0] eqn:E1; live_all|];
    try (destruct (created env) as [[h|]|e1] eqn:E2; live_all;
         [destruct (subscribed env); live_all;
          repeat live_settle; discriminate| |]);
    rewrite live_handleError_quiet by first [exact Q1 | exact Q2];
    live_all; intros [= <-]; unfold handleError; run_all;
    (split; [reflexivity|]); (split; [reflexivity|]);
    (split; [read_trace; reflexivity|]);
    first [ left; repeat split; reflexivity
          | right; split;
            [first [now left | now right]|first [reflexivity | assumption]] ].
Qed.

(** X10. A [play()] that is rejected is rejected in one of two ways. Before the
    engine is touched, for one of three reasons checked in this order:
    destroyed, audio not loaded, engine missing; then no field changes and
    nothing is said. Or after the engine was asked, because the engine
    threw, at the [stop()] of the previous handle or at [Sound.play], or
    returned no handle ("Failed to create sound instance"); then the
    [error] event is emitted with the very error the promise is rejected
    with, whatever the listeners call meanwhile (any public method but
    [on] and [off]). When the listeners of [statechange]
    and [error] do not call back, the player ends in the [error] state,
    the events emitted are [statechange] (unless the state was [error]
    already) and [error], and the old handle is kept, or cleared when the
    engine returned no handle. *)
Theorem play_rejection host depth env s e :
  let p := Live.self s in
  let r := Live.play (Live.calls host depth) env s in
  Live.returned r = Js.Throws e ->
  (r = Live.mkRun (Js.Throws e) s [] /\
   e = Js.mkError
         (if destroyed p then "Player has been destroyed"
          else if negb (audioLoaded p) then "Audio not loaded yet"
          else "SoundJS not available") /\
   (destroyed p = true \/ audioLoaded p = false \/ sound env = false))
  \/
  (destroyed p = false /\ audioLoaded p = true /\ sound env = true /\
   In (Emitted Ev.error [AError e]) (Live.said r) /\
   ((e = Js.mkError "Failed to create sound instance" /\
     created env = Js.Returns None)
    \/
    (soundInstance p <> None /\ stopped env = Js.Throws e)
    \/
    created env = Js.Throws e) /\
   (Live.quiet_on host p Ev.statechange ->
    Live.quiet_on host p Ev.error ->
    state (Live.self (Live.stage r)) = PlayerState.error /\
    emissions (Live.said r) =
      (if bool_decide (state p = PlayerState.error) then []
       else [(Ev.statechange, [AState PlayerState.error])]) ++
      [(Ev.error, [AError e])] /\
    ((e = Js.mkError "Failed to create sound instance" /\
      created env = Js.Returns None /\
      soundInstance (Live.self (Live.stage r)) = None)
     \/
     ((stopped env = Js.Throws e \/ created env = Js.Throws e) /\
      soundInstance (Live.self (Live.stage r)) = soundInstance p)))).
Proof.
  intros p r H.
  destruct (live_play_rejected (Live.calls host depth) env s e H)
    as [G|(D & L & S & Hin & C)]; [now left|].
  right. repeat (split; [assumption|]). intros Q1 Q2.
  destruct (live_play_rejected_quiet host depth env s e Q1 Q2 D L S H)
    as (St & _ & Em & Hd).
  now repeat split.
Qed.

(** In an application whose [statechange] listener calls [setVolume], a
    [play()] for which the engine returns no handle. *)
Lemma play_rejection_witness :
  let env :=
    {| sound := true; stopped := Js.Returns tt;
       created := Js.Returns None; subscribed := Js.Returns tt |} in
  let e := Js.mkError "Failed to create sound instance" in
  let r :=
    Live.play (Live.calls Sample.caller 2) env (Live.enter Sample.loaded) in
  Live.returned r = Js.Throws e /\
  In (Emitted Ev.error [AError e]) (Live.said r) /\
  emissions (Live.said r) =
    [(Ev.statechange, [AState PlayerState.error]);
     (Ev.volumechange, [ANumber 0.5%float]);
     (Ev.error, [AError e])].
Proof.
  intros env e r.
  assert (H : Live.returned r = Js.Throws e) by (vm_compute; reflexivity).
  split; [exact H|].
  destruct (play_rejection Sample.caller 2 env (Live.enter Sample.loaded) e H)
    as [(_ & _ & [G|[G|G]])|(_ & _ & _ & Hin & _)];
    try (vm_compute in G; discriminate).
  split; [exact Hin|]. vm_compute. reflexivity.
Defined.

(** ** [pause] and [stop] *)



(** ** [destroy] *)

(** X13. [destroy()] calls no listener, whatever the engine answers: the
    registry is cleared before the state is set to [idle], so that the
    [statechange] of the teardown is emitted to an empty registry. *)
Theorem destroy_notifies_no_listener env p :
  listener_calls (trace (destroy env p)) = [].
Proof.
  unfold destroy. run_all.
  destruct (destroyed p); run_all; [reflexivity|].
  split_destroy env p; read_trace;
    unfold listeners_of; cbn [eventListeners with_eventListeners with_state];
    rewrite ?lookup_empty; try reflexivity;
    now destruct (bool_decide _).
Qed.

(** X14. A first [destroy()] whose teardown raises nothing returns, and leaves
    the player destroyed, [idle], without handle and with an empty
    registry. It asked the engine, in this order: to stop and to destroy
    the handle if there was one, to remove the sound if the engine is there
    and the audio was loaded, and to drop the two load subscriptions if the
    engine is there. *)
Theorem destroy_teardown env p :
  destroyed p = false ->
  quiet env ->
  result (destroy env p) = Js.Returns tt /\
  after (destroy env p) =
    with_destroyed true
      (with_state PlayerState.idle
         (with_eventListeners ∅ (with_soundInstance None p))) /\
  engine_calls (trace (destroy env p)) =
    match soundInstance p with
    | Some h => [InstanceStop h; InstanceDestroy h]
    | None => []
    end ++
    (if engine env && audioLoaded p then [SoundRemoveSound (audioId p)]
     else []) ++
    (if engine env then [SoundOff "fileload"; SoundOff "fileerror"]
     else []) /\
  emissions (trace (destroy env p)) =
    if bool_decide (state p = PlayerState.idle) then []
    else [(Ev.statechange, [AState PlayerState.idle])].
Proof.
  intros D (Q1 & Q2 & Q3 & Q4 & Q5).
  unfold destroy. run_all. rewrite D, Q1, Q2, Q3, Q4, Q5. run_all.
  destruct (soundInstance p) as [h|] eqn:S; run_all;
    destruct (engine env); run_all;
    destruct (audioLoaded p) eqn:L; run_all;
    (split; [reflexivity|]); (split; [|split; read_trace; reflexivity]);
    first [reflexivity | destruct p; cbn in *; now subst].
Qed.

Lemma destroy_teardown_witness :
  result (destroy Sample.teardown_ok Sample.started) = Js.Returns tt /\
  after (destroy Sample.teardown_ok Sample.started) = Sample.gone /\
  engine_calls (trace (destroy Sample.teardown_ok Sample.started)) =
    [InstanceStop 1; InstanceDestroy 1;
     SoundRemoveSound "audio_1700000000000_4fzyo82mv";
     SoundOff "fileload"; SoundOff "fileerror"] /\
  emissions (trace (destroy Sample.teardown_ok Sample.started)) =
    [(Ev.statechange, [AState PlayerState.idle])].
Proof.
  assert (D : destroyed Sample.started = false) by reflexivity.
  assert (Q : quiet Sample.teardown_ok) by (repeat split).
  destruct (destroy_teardown Sample.teardown_ok Sample.started D Q)
    as (Hr & Ha & He & Hm).
  split; [exact Hr|]. split; [rewrite Ha; vm_compute; reflexivity|].
  split; [rewrite He|rewrite Hm]; vm_compute; reflexivity.
Defined.

(** ** The volume the engine is told *)

Section TellsOnly.

Context (v : float).

Lemma tells_only_silent {A} (m : M A) :
  (forall p,
     told_volumes (trace (m p)) = [] /\
     effective_volume (after (m p)) = effective_volume p /\
     (soundInstance (after (m p)) <> None -> soundInstance p <> None)) ->
  tells_only v m.
Proof.
  intros H p Hp. destruct (H p) as (T & E & S).
  rewrite T, E. split; [constructor|]. split; [assumption|]. intros _. exact S.
Qed.

Lemma tells_only_ret {A} (a : A) : tells_only v (mret a).
Proof. apply tells_only_silent. now intros p. Qed.

Lemma tells_only_skip : tells_only v skip.
Proof. apply tells_only_silent. now intros p. Qed.

Lemma tells_only_throw {A} e : tells_only v (@throw A e).
Proof. apply tells_only_silent. now intros p. Qed.

Lemma tells_only_get : tells_only v get.
Proof. apply tells_only_silent. now intros p. Qed.

Lemma tells_only_log l t : tells_only v (log l t).
Proof.
  apply tells_only_silent. intros p. rewrite log_run. cbn [trace after].
  now rewrite told_volumes_logged.
Qed.

Lemma tells_only_emit event args : tells_only v (emit event args).
Proof.
  apply tells_only_silent. intros p. rewrite emit_run. cbn [trace after].
  now rewrite told_volumes_emitting.
Qed.

Lemma tells_only_setState s : tells_only v (setState s).
Proof.
  apply tells_only_silent. intros p. rewrite setState_run. cbn [trace after].
  now rewrite told_volumes_stating.
Qed.

Lemma tells_only_modify g :
  (forall p,
     effective_volume (g p) = effective_volume p /\
     (soundInstance (g p) <> None -> soundInstance p <> None)) ->
  tells_only v (modify g).
Proof.
  intros H. apply tells_only_silent. intros p. destruct (H p) as [E S].
  now split.
Qed.

Lemma tells_only_call {A} c (answer : Js.outcome A) :
  Forall (fun x => x = v) (told_volumes [Called c]) ->
  tells_only v (call c answer).
Proof. intros H p Hp. cbn [call trace after]. now split. Qed.

Lemma tells_only_bind {A C} (m : M A) (k : A -> M C) :
  tells_only v m -> (forall a, tells_only v (k a)) -> tells_only v (m ≫= k).
Proof.
  intros Hm Hk p Hp. rewrite bind_run. destruct (Hm p Hp) as (F & E & S).
  destruct (result (m p)) as [a|e]; [|now split].
  destruct (Hk a (after (m p)) E) as (F' & E' & S').
  unfold after_saying; cbn [trace after]. rewrite told_volumes_app.
  split; [now apply Forall_app|]. split; [assumption|].
  intros T. apply app_eq_nil in T as [T1 T2]. auto.
Qed.

Lemma tells_only_try_catch {A} (body : M A) handler :
  tells_only v body -> (forall e, tells_only v (handler e)) ->
  tells_only v (try_catch body handler).
Proof.
  intros Hb Hh p Hp. rewrite try_catch_run. destruct (Hb p Hp) as (F & E & S).
  destruct (result (body p)) as [a|e]; [now split|].
  destruct (Hh e (after (body p)) E) as (F' & E' & S').
  unfold after_saying; cbn [trace after]. rewrite told_volumes_app.
  split; [now apply Forall_app|]. split; [assumption|].
  intros T. apply app_eq_nil in T as [T1 T2]. auto.
Qed.

(** What a method reads from the fields has the effective volume [v]. *)
Lemma tells_only_get_bind {C} (k : Player -> M C) :
  (forall a, effective_volume a = v -> tells_only v (k a)) ->
  tells_only v (get ≫= k).
Proof.
  intros H p Hp. rewrite bind_run. cbn [get result after trace].
  unfold after_saying; cbn [trace after app]. now apply H.
Qed.

End TellsOnly.

Create HintDb tells.

(** What a setter of another field does to the volume and to the handle. *)
Ltac tells_side :=
  intros ?; split;
  [ reflexivity
  | cbn [soundInstance with_state with_soundInstance with_destroyed
         with_eventListeners with_audioLoaded with_config];
    first [exact (fun X => X)
          | let X := fresh in intros X; now contradiction X] ].

Ltac tells_step :=
  match goal with
  | |- tells_only _ (get ≫= _) => apply tells_only_get_bind; intros ? ?
  | |- tells_only _ (_ ≫= _) => apply tells_only_bind; [|intros]
  | |- tells_only _ (try_catch _ _) => apply tells_only_try_catch; [|intros]
  | |- tells_only _ (modify _) => apply tells_only_modify; tells_side
  | |- tells_only _ (setState _) => apply tells_only_setState
  | |- tells_only _ (log _ _) => apply tells_only_log
  | |- tells_only _ (emit _ _) => apply tells_only_emit
  | |- tells_only _ (call _ _) =>
      apply tells_only_call; cbn [told_volumes]; repeat constructor; assumption
  | |- tells_only _ (throw _) => apply tells_only_throw
  | |- tells_only _ (mret _) => apply tells_only_ret
  | |- tells_only _ skip => apply tells_only_skip
  | |- tells_only _ get => apply tells_only_get
  | |- tells_only _ (if ?b then _ else _) => destruct b
  | |- tells_only _ (match ?x with _ => _ end) => destruct x
  | |- tells_only _ _ => solve [auto with tells]
  end.

Ltac tells_auto := repeat tells_step.

Lemma tells_only_on v event l : tells_only v (on event l).
Proof. apply tells_only_silent. intros p. rewrite on_run. now split. Qed.

Lemma tells_only_off v event l : tells_only v (off event l).
Proof.
  apply tells_only_silent. intros p. unfold off, modify. cbn [trace after].
  destruct (eventListeners p !! event) as [ls|]; [|now split].
  now destruct (filter _ ls).
Qed.

(** [play] tells the effective volume, and no handle comes from elsewhere
    than from the call that tells it. *)
Lemma tells_only_play v env : tells_only v (play env).
Proof.
  intros p Hp. unfold play, setupSoundInstanceEvents, handleError. run_all.
  destruct (destroyed p); run_all; [now split|].
  destruct (audioLoaded p); run_all; [|now split].
  destruct (sound env); run_all; [|now split].
  destruct (soundInstance p) as [old|] eqn:I; run_all;
    [destruct (stopped env) as [[]|e0]; run_all|];
    try (destruct (created env) as [[h|]|e1]; run_all;
         [destruct (subscribed env); run_all| |]);
    read_trace; unfold effective_volume in *;
    cbn [config with_state with_soundInstance];
    (split; [repeat constructor; assumption|]);
    (split; [assumption|]);
    first [discriminate | intros _ _; discriminate | intros _ H; exact H].
Qed.

#[local] Hint Resolve tells_only_on tells_only_off tells_only_play : tells.

Lemma tells_only_step v i :
  (forall volume applied, i <> DoSetVolume volume applied) ->
  (forall muted applied, i <> DoSetMuted muted applied) ->
  tells_only v (step i).
Proof.
  intros Hv Hm. destruct i; cbn [step];
    try (now contradiction (Hv volume applied));
    try (now contradiction (Hm muted applied));
    auto with tells;
    unfold handleSoundLoad, handleSoundError, loadTimeout, onComplete,
      pause, stop, setLoop, destroy, handleError;
    tells_auto.
Qed.

(** What one input tells the engine, set against the fields it leaves. *)
Lemma told_in_step i p :
  Forall (fun x => x = effective_volume (after (step i p)))
    (told_volumes (trace (step i p))) /\
  (told_volumes (trace (step i p)) = [] ->
   soundInstance (after (step i p)) <> None ->
   soundInstance p <> None /\
   effective_volume (after (step i p)) = effective_volume p).
Proof.
  destruct i;
    try (match goal with
         | |- context [step ?i p] =>
             destruct (tells_only_step (effective_volume p) i
                         ltac:(intros; discriminate)
                         ltac:(intros; discriminate) p eq_refl)
               as (F & E & S)
         end;
         rewrite E; split; [exact F|];
         intros T Hh; split; [now apply S|reflexivity]);
    cbn [step].
  - unfold setVolume.
    destruct (volume_rejected volume); run_all;
      [split; [constructor|intros _ Hh; now split]|].
    destruct (soundInstance p) as [h|] eqn:I; run_all;
      [destruct (Cfg.muted (config p)) eqn:Mu; run_all;
       [|destruct applied as [[]|e]; run_all]|];
      read_trace; unfold effective_volume;
      cbn [config with_config Cfg.muted Cfg.volume Cfg.with_volume];
      rewrite ?Mu, ?I;
      (split; [repeat constructor|]);
      first [discriminate | intros _ Hh; first [now split | now contradiction Hh]].
  - unfold setMuted. run_all.
    destruct (soundInstance p) as [h|] eqn:I; run_all;
      [destruct applied as [[]|e]; run_all|];
      read_trace; unfold effective_volume;
      cbn [config with_config Cfg.muted Cfg.volume Cfg.with_muted];
      rewrite ?I;
      (split; [repeat constructor|]);
      first [discriminate | intros _ Hh; now contradiction Hh].
Qed.

Lemma last_app_cons {A} (l1 l2 : list A) x :
  last (l1 ++ x :: l2) = last (x :: l2).
Proof.
  induction l1 as [|y l1 IH]; [reflexivity|].
  cbn [app]. rewrite <- IH. now destruct l1.
Qed.

Lemma last_Forall_eq {A} (v : A) l :
  l <> [] -> Forall (fun x => x = v) l -> last l = Some v.
Proof.
  intros Hne H. induction H as [|x l -> _ IH]; [now contradiction Hne|].
  destruct l as [|y l]; [reflexivity|].
  change (last (v :: y :: l)) with (last (y :: l)). now apply IH.
Qed.

Lemma volume_in_sync_step i p t :
  volume_in_sync p t ->
  volume_in_sync (after (step i p)) (t ++ trace (step i p)).
Proof.
  intros H Hh. destruct (told_in_step i p) as [F S].
  rewrite told_volumes_app.
  destruct (told_volumes (trace (step i p))) as [|x l] eqn:T.
  - destruct (S eq_refl Hh) as [Hp E]. rewrite app_nil_r, E. now apply H.
  - rewrite last_app_cons. now apply last_Forall_eq.
Qed.

Lemma trace_run_cons i inputs p :
  trace (run (i :: inputs) p) =
  trace (step i p) ++ trace (run inputs (after (step i p))).
Proof. reflexivity. Qed.

Lemma volume_in_sync_run inputs :
  forall p t,
    volume_in_sync p t ->
    volume_in_sync (after (run inputs p)) (t ++ trace (run inputs p)).
Proof.
  induction inputs as [|i inputs IH]; intros p t H.
  - rewrite run_nil. cbn [after trace]. now rewrite app_nil_r.
  - rewrite after_run_cons, trace_run_cons, app_assoc.
    apply IH. now apply volume_in_sync_step.
Qed.

(** X15. From its construction on, as long as the player holds a handle, the
    volume it told the engine last, when creating the handle or through
    [setVolume] on it, is its effective volume: the configured volume, or 0
    when muted. This holds whatever was called and whatever the engine
    answered. *)
Theorem engine_volume_in_sync w src raw inputs :
  let r := run inputs (after (construct w src raw)) in
  soundInstance (after r) <> None ->
  last (told_volumes (trace r)) = Some (effective_volume (after r)).
Proof.
  intros r.
  apply (volume_in_sync_run inputs (after (construct w src raw)) []).
  intros Hh. destruct (construct_fields w src raw) as (_ & _ & _ & _ & _ & E).
  now contradiction Hh.
Qed.

Lemma engine_volume_in_sync_witness :
  let r :=
    run [FileLoad (Js.VString "audio_1700000000000_4fzyo82mv")
           (Sample.engine_ok 1);
         DoPlay (Sample.engine_ok 2);
         DoSetMuted true (Js.Returns tt);
         DoSetVolume (Js.VNumber 0.5) (Js.Returns tt);
         DoSetMuted false (Js.Throws (Js.mkError "gone"))]
      (after (construct Sample.world "a.mp3"
                (Raw.only_src (Js.VString "a.mp3")))) in
  told_volumes (trace r) = [default_volume; 0; 0.5]%float /\
  last (told_volumes (trace r)) = Some (effective_volume (after r)).
Proof.
  intros r. split; [vm_compute; reflexivity|].
  apply (engine_volume_in_sync Sample.world "a.mp3"
           (Raw.only_src (Js.VString "a.mp3"))).
  vm_compute. discriminate.
Defined.

(** ** The status of a destroyed player *)

Section AtRest.

Let resting (p : Player) : Prop :=
  destroyed p = true /\
  state p <> PlayerState.playing /\ state p <> PlayerState.paused.

Lemma play_keeps_resting env : keeps resting (play env).
Proof. intros p H. rewrite play_destroyed; [exact H|apply H]. Qed.

Hint Resolve play_keeps_resting : keeps.

Ltac resting_side :=
  intros ? (? & ? & ?);
  cbn [destroyed state with_state with_config with_audioLoaded];
  repeat split; first [assumption | discriminate].

Lemma resting_stays_step i : keeps resting (step i).
Proof.
  destruct i; cbn [step].
  1: apply play_keeps_resting.
  1: { intros p H. rewrite pause_destroyed; [exact H|apply H]. }
  1: { intros p H. rewrite stop_destroyed; [exact H|apply H]. }
  4: { intros p H. now rewrite on_run. }
  4: { intros p H. unfold off, modify. cbn [after].
       destruct (eventListeners p !! event) as [ls|]; [|assumption].
       now destruct (filter _ ls). }
  4: { intros p H. rewrite destroy_destroyed; [exact H|apply H]. }
  all: unfold handleSoundLoad, handleSoundError, loadTimeout, onComplete,
         setVolume, setMuted, setLoop, handleError;
       keeps_auto resting_side.
Qed.

Lemma destroy_ends_idle env p :
  destroyed (after (destroy env p)) = true ->
  destroyed p = false ->
  state (after (destroy env p)) = PlayerState.idle.
Proof.
  intros H D. revert H. unfold destroy. run_all. rewrite D. run_all.
  split_destroy env p;
    first [reflexivity | now rewrite D].
Qed.

Lemma at_rest_step i p : at_rest p -> at_rest (after (step i p)).
Proof.
  intros H. destruct (destroyed p) eqn:D.
  - intros _. apply (resting_stays_step i p). split; [assumption|now apply H].
  - destruct i; try (
      intros Hd;
      match goal with
      | H' : destroyed (after (step ?i p)) = true |- _ =>
          rewrite (destroyed_preserved_step i) in H' by discriminate
      end; congruence).
    intros Hd. cbn [step] in *. rewrite destroy_ends_idle by assumption.
    split; discriminate.
Qed.

End AtRest.

(** X16. From its construction on, a player that is marked destroyed is neither
    playing nor paused and holds no handle, so that its status reports
    [isPlaying] false and both times 0 without asking the engine. *)
Theorem destroyed_player_status w src raw inputs position duration :
  let q := after (run inputs (after (construct w src raw))) in
  destroyed q = true ->
  state q <> PlayerState.playing /\
  state q <> PlayerState.paused /\
  snd (getStatus position duration q) = [] /\
  Status.isPlaying (fst (getStatus position duration q)) = false /\
  Status.currentTime (fst (getStatus position duration q)) = 0%float /\
  Status.duration (fst (getStatus position duration q)) = 0%float.
Proof.
  intros q D.
  assert (R : at_rest q).
  { apply (keeps_run at_rest).
    - intros i p. apply at_rest_step.
    - intros Hd.
      destruct (construct_fields w src raw) as (_ & _ & _ & _ & E & _).
      congruence. }
  assert (N : handle_released q).
  { apply (keeps_run handle_released).
    - intros i p. apply handle_released_step.
    - intros Hd.
      destruct (construct_fields w src raw) as (_ & _ & _ & _ & E & _).
      congruence. }
  destruct (R D) as [R1 R2]. specialize (N D).
  split; [assumption|]. split; [assumption|].
  unfold getStatus, getCurrentTime, getDuration. rewrite N.
  cbn [fst snd app Status.isPlaying Status.currentTime Status.duration].
  repeat split. now destruct (state q).
Qed.

Lemma destroyed_player_status_witness :
  let position := Js.Returns 1500%float in
  let duration := Js.Returns 90000%float in
  let q :=
    after (run [FileLoad (Js.VString "audio_1700000000000_4fzyo82mv")
                  (Sample.engine_ok 1);
                DoPlay (Sample.engine_ok 2);
                DoDestroy Sample.teardown_ok;
                Complete;
                DoPause (Js.Returns tt)]
             (after (construct Sample.world "a.mp3"
                       (Raw.only_src (Js.VString "a.mp3"))))) in
  state q = PlayerState.stopped /\
  snd (getStatus position duration q) = [] /\
  Status.isPlaying (fst (getStatus position duration q)) = false /\
  Status.currentTime (fst (getStatus position duration q)) = 0%float /\
  Status.duration (fst (getStatus position duration q)) = 0%float.
Proof.
  intros position duration q.
  split; [vm_compute; reflexivity|].
  apply (destroyed_player_status Sample.world "a.mp3"
           (Raw.only_src (Js.VString "a.mp3")) _ position duration).
  vm_compute. reflexivity.
Defined.

(** ** The constructor *)

(** X17. The constructor throws exactly when [src] is not a non-empty string,
    and then with the one message of its guard; otherwise it goes on with
    that string. *)
Theorem constructor_guard w raw :
  match Raw.src raw with
  | Js.VString (String c s) =>
      constructor w raw = Js.Returns (construct w (String c s) raw)
  | _ =>
      constructor w raw =
      Js.Throws
        (Js.mkError "Audio source (src) is required and must be a valid URL")
  end.
Proof.
  unfold constructor.
  destruct (Raw.src raw) as [| |b|x|[|c s]|]; cbn; try reflexivity.
  - now destruct b.
  - now rewrite orb_true_r.
Qed.

Lemma seq_on_run {A} event l (m : M A) p :
  (on event l;; m) p = m (after (on event l p)).
Proof.
  rewrite bind_run, on_run. cbn [result after trace].
  unfold after_saying. now destruct (m _).
Qed.

Lemma bindConfigCallbacks_run p :
  bindConfigCallbacks p =
  on Ev.timeupdate (Cfg.onTimeUpdate (config p))
    (after (on Ev.volumechange (Cfg.onVolumeChange (config p))
    (after (on Ev.error (Cfg.onError (config p))
    (after (on Ev.ended (Cfg.onEnded (config p))
    (after (on Ev.stop (Cfg.onStop (config p))
    (after (on Ev.pause (Cfg.onPause (config p))
    (after (on Ev.play (Cfg.onPlay (config p))
    (after (on Ev.ready (Cfg.onReady (config p)) p)))))))))))))).
Proof.
  unfold bindConfigCallbacks. rewrite bind_run.
  cbn [get result after trace]. unfold after_saying at 1.
  rewrite !seq_on_run. now rewrite on_run.
Qed.

Lemma listeners_of_empty p event :
  eventListeners p = ∅ -> listeners_of p event = [].
Proof. intros E. unfold listeners_of. now rewrite E, lookup_empty. Qed.

Ltac pick_event :=
  first [ rewrite (bool_decide_eq_true_2 (_ = _)) by reflexivity
        | rewrite (bool_decide_eq_false_2 (_ = _)) by discriminate ].

Lemma bindConfigCallbacks_listeners p event :
  eventListeners p = ∅ ->
  listeners_of (after (bindConfigCallbacks p)) event =
  configured (config p) event.
Proof.
  intros E. rewrite bindConfigCallbacks_run.
  destruct event; cbn [configured];
    repeat (rewrite listeners_of_on; pick_event);
    rewrite ?listeners_of_empty by assumption;
    try reflexivity;
    now rewrite bool_decide_eq_false_2 by apply not_elem_of_nil.
Qed.

Lemma seq_bindConfigCallbacks_run {A} (m : M A) p :
  (bindConfigCallbacks;; m) p = m (after (bindConfigCallbacks p)).
Proof.
  rewrite bind_run.
  assert (H : result (bindConfigCallbacks p) = Js.Returns tt /\
              trace (bindConfigCallbacks p) = [])
    by (rewrite bindConfigCallbacks_run at 1 2; now rewrite on_run).
  destruct H as [-> ->]. unfold after_saying. now destruct (m _).
Qed.

Lemma initialize_keeps_config w : preserves config (initialize w).
Proof.
  unfold initialize, loadSoundJS, setupSoundJSEventListeners.
  preserves_auto.
Qed.

Lemma initialize_keeps_registry w : preserves eventListeners (initialize w).
Proof.
  unfold initialize, loadSoundJS, setupSoundJSEventListeners.
  preserves_auto.
Qed.

Lemma bindConfigCallbacks_keeps_config : preserves config bindConfigCallbacks.
Proof. unfold bindConfigCallbacks, on. preserves_auto. Qed.

Lemma construct_run w src raw :
  construct w src raw =
  initialize w (after (bindConfigCallbacks (fields w src raw))).
Proof. unfold construct. apply seq_bindConfigCallbacks_run. Qed.

Lemma listeners_of_ext p q event :
  eventListeners p = eventListeners q ->
  listeners_of p event = listeners_of q event.
Proof. unfold listeners_of. now intros ->. Qed.

Lemma construct_config w src raw :
  config (after (construct w src raw)) = config (fields w src raw).
Proof.
  rewrite construct_run.
  etrans; [apply initialize_keeps_config|].
  apply bindConfigCallbacks_keeps_config.
Qed.

Lemma construct_listeners w src raw event :
  listeners_of (after (construct w src raw)) event =
  configured (config (after (construct w src raw))) event.
Proof.
  rewrite construct_config, construct_run.
  etrans; [apply listeners_of_ext, initialize_keeps_registry|].
  now apply bindConfigCallbacks_listeners.
Qed.

Lemma bindConfigCallbacks_keeps_state : preserves state bindConfigCallbacks.
Proof. unfold bindConfigCallbacks, on. preserves_auto. Qed.

(** What [loadSoundJS] does with the engine, and how it settles. *)
Lemma construct_says w src raw :
  let rejected e :=
    Js.Throws
      (Js.mkError ("Failed to load SoundJS: Error: " +:+ Js.message e)) in
  emissions (trace (construct w src raw)) =
    [(Ev.statechange, [AState PlayerState.loading])] /\
  listener_calls (trace (construct w src raw)) = [] /\
  engine_calls (trace (construct w src raw)) =
    BundleInitialize ::
    match bundle w with
    | Js.Returns _ =>
        if soundjs w then
          SoundOn "fileload" ::
          match fileloadOn w with
          | Js.Returns _ => [SoundOn "fileerror"]
          | Js.Throws _ => []
          end
        else []
    | Js.Throws _ => []
    end /\
  result (construct w src raw) =
    Js.Returns
      match bundle w with
      | Js.Returns _ =>
          if soundjs w then
            match fileloadOn w with
            | Js.Returns _ =>
                match fileerrorOn w with
                | Js.Returns _ => Js.Returns tt
                | Js.Throws e => rejected e
                end
            | Js.Throws e => rejected e
            end
          else Js.Returns tt
      | Js.Throws e => rejected e
      end.
Proof.
  intros rejected. unfold rejected. rewrite construct_run.
  assert (S := bindConfigCallbacks_keeps_state (fields w src raw)).
  assert (L := bindConfigCallbacks_listeners (fields w src raw)
                 Ev.statechange eq_refl).
  change (state (fields w src raw)) with PlayerState.idle in S.
  change (configured (config (fields w src raw)) Ev.statechange)
    with (@nil Listener) in L.
  revert S L. generalize (after (bindConfigCallbacks (fields w src raw))).
  intros q0 S L.
  unfold initialize, loadSoundJS, setupSoundJSEventListeners. run_all.
  destruct (bundle w) as [v|e]; run_all;
    [destruct (soundjs w); run_all;
     [destruct (fileloadOn w) as [[]|e1]; run_all;
      [destruct (fileerrorOn w) as [[]|e2]; run_all|]|]|];
    repeat split; read_trace; rewrite ?S, ?L; reflexivity.
Qed.


(** ** The first load of a new player *)

Lemma listeners_of_with_state s p event :
  listeners_of (with_state s p) event = listeners_of p event.
Proof. reflexivity. Qed.

Lemma listeners_of_with_audioLoaded b p event :
  listeners_of (with_audioLoaded b p) event = listeners_of p event.
Proof. reflexivity. Qed.

Lemma listeners_of_with_soundInstance h p event :
  listeners_of (with_soundInstance h p) event = listeners_of p event.
Proof. reflexivity. Qed.

(** Read the listener calls of a new player, whose registry is the one the
    constructor made. *)
Ltac read_new_player L :=
  read_trace;
  repeat progress
    (rewrite ?listeners_of_with_state, ?listeners_of_with_audioLoaded,
       ?listeners_of_with_soundInstance, ?L;
     cbn [configured map app config with_state with_audioLoaded
          with_soundInstance]).

Lemma construct_newly_made w src raw : newly_made (after (construct w src raw)).
Proof.
  destruct (construct_fields w src raw) as (_ & _ & S & A & D & I).
  repeat split; try assumption. intros event. apply construct_listeners.
Qed.

(** [emit] calls the first listener of the event first. *)
Lemma live_emit_first inv event args s l ls :
  listeners_of (Live.self s) event = l :: ls ->
  exists s' rest,
    Live.emit inv event args s =
    Live.mkRun (Js.Returns tt) s'
      (Emitted event args :: Delivered l event args :: rest).
Proof.
  unfold listeners_of, Live.emit. intros H. live_all.
  destruct (eventListeners (Live.self s) !! event) as [ls'|];
    cbn in H; [subst ls'|discriminate].
  cbn [Live.forEach]. rewrite live_bind_run.
  rewrite (live_returns_notify inv event args l s).
  destruct (live_notify_says inv event args l s) as [t ->].
  destruct (live_returns_run _ (Live.stage (Live.notify inv event args l s))
              (live_returns_forEach (Live.notify inv event args) ls
                 (live_returns_notify inv event args)))
    as (s' & t' & ->).
  live_all. now eexists _, _.
Qed.

(** [handleError] on a player without listeners of [statechange]: the
    first listener of [error] is the first listener called. *)
Lemma live_handleError_first host depth e s l ls :
  listeners_of (Live.self s) Ev.statechange = [] ->
  listeners_of (Live.self s) Ev.error = l :: ls ->
  exists s' rest,
    Live.handleError (Live.calls host depth) e s =
    Live.mkRun (Js.Returns tt) s'
      (stating PlayerState.error (Live.self s) ++
       Emitted Ev.error [AError e] :: Delivered l Ev.error [AError e] :: rest).
Proof.
  intros H0 H1. unfold Live.handleError. live_all.
  rewrite live_setState_quiet by now apply quiet_on_nil.
  live_all.
  match goal with
  | |- context [Live.emit ?inv ?ev ?args ?s0] =>
      destruct (live_emit_first inv ev args s0 l ls H1) as (s' & rest & ->)
  end.
  live_all. now eexists _, _.
Qed.

Lemma handleError_trace e p :
  trace (handleError e p) =
  stating PlayerState.error p ++
  emitting Ev.error [AError e] (with_state PlayerState.error p) ++
  logged Console.error (Console.PlayerError e)
    (with_state PlayerState.error p).
Proof. unfold handleError. run_all. reflexivity. Qed.

(** [handleError] on a player as the constructor leaves it. *)
Lemma live_handleError_new host depth e s :
  let q := Live.self s in
  let l := Cfg.onError (config q) in
  let r := Live.handleError (Live.calls host depth) e s in
  newly_made q ->
  Live.returned r = Js.Returns tt /\
  (exists rest,
     listener_calls (Live.said r) = (l, Ev.error, [AError e]) :: rest) /\
  (exists rest,
     emissions (Live.said r) =
       (Ev.statechange, [AState PlayerState.error]) ::
       (Ev.error, [AError e]) :: rest) /\
  (Live.quiet host l ->
   Live.self (Live.stage r) = with_state PlayerState.error q /\
   listener_calls (Live.said r) = [(l, Ev.error, [AError e])] /\
   emissions (Live.said r) =
     [(Ev.statechange, [AState PlayerState.error]);
      (Ev.error, [AError e])]).
Proof.
  intros q l r (S & _ & _ & _ & L). unfold r, l, q in *. clear r l q.
  split; [apply live_returns_handleError|].
  assert (L0 := L Ev.statechange). assert (L1 := L Ev.error).
  cbn [configured] in L0, L1.
  split; [|split].
  - destruct (live_handleError_first host depth e s _ _ L0 L1)
      as (s' & rest & ->).
    cbn [Live.said]. rewrite listener_calls_app, listener_calls_stating.
    rewrite L0. destruct (bool_decide _); cbn; now eexists.
  - destruct (live_handleError_first host depth e s _ _ L0 L1)
      as (s' & rest & ->).
    cbn [Live.said]. rewrite emissions_app, emissions_stating, S.
    cbn. now eexists.
  - intros Q.
    rewrite live_handleError_quiet;
      [|now apply quiet_on_nil|now apply (quiet_on_one _ _ _ _ L1)].
    cbn [Live.stage Live.said Live.self Live.later Live.with_self].
    split; [reflexivity|]. rewrite handleError_trace.
    split; read_trace;
      rewrite ?listeners_of_with_state, ?L0, ?L1, ?S; reflexivity.
Qed.

Lemma live_handleSoundError_own inv message q s :
  Live.self s = q ->
  Live.handleSoundError inv (Js.VString (audioId q)) message s =
  Live.handleError inv
    (Js.mkError ("Audio load error: " +:+ message_or_unknown message)) s.
Proof.
  intros <-. unfold Live.handleSoundError. live_all.
  cbn [Js.strict_eq_string]. rewrite String.eqb_refl.
  now destruct (Live.handleError _ _ s).
Qed.

(** The poll of [loadAudio] on a player that is in the [error] state
    before its load completed. *)
Lemma live_checkLoad_failed host depth s :
  let p := Live.self s in
  let again := Js.mkError "Failed to load audio: Error: Audio load failed" in
  let r := Live.checkLoad (Live.calls host depth) s in
  audioLoaded p = false ->
  state p = PlayerState.error ->
  Live.quiet_on host p Ev.error ->
  Live.returned r = Js.Returns tt /\
  Live.self (Live.stage r) = p /\
  listener_calls (Live.said r) =
    (if isWeixin (environmentInfo p) then []
     else map (fun l => (l, Ev.error, [AError again]))
            (listeners_of p Ev.error)) /\
  emissions (Live.said r) =
    (if isWeixin (environmentInfo p) then []
     else [(Ev.error, [AError again])]).
Proof.
  intros p again r A S Q. unfold r, again, p in *. clear r again p.
  unfold Live.checkLoad, PlayerState.eqb. live_all. rewrite A, S.
  rewrite (bool_decide_eq_true_2 _ eq_refl). live_all.
  destruct (isWeixin (environmentInfo (Live.self s))); live_all;
    [now repeat split|].
  unfold Live.handleError. live_all.
  assert (E : Live.setState (Live.calls host depth) PlayerState.error s =
              Live.mkRun (Js.Returns tt) s []).
  { unfold Live.setState, PlayerState.eqb. live_all. rewrite S.
    now rewrite (bool_decide_eq_true_2 _ eq_refl). }
  rewrite E. live_all.
  rewrite live_emit_quiet by exact Q. live_all.
  split; [reflexivity|]. split; [reflexivity|].
  split; read_trace; reflexivity.
Qed.

(** X19. When the engine reports a load error for a new player's own audio,
    the handler returns, and the first listener called is the [onError]
    callback of the configuration, with the error "Audio load error: "
    followed by the engine's message, or by "Unknown error" when that is
    missing or empty; [statechange] to [error] and [error] are the first
    events emitted. When [onError] does not call back, it is the one
    listener called, once, no other event is emitted, and the player ends
    in the [error] state. The next turn of the poll of [loadAudio] then
    finds that state: outside WeChat [initialize] reports "Failed to load
    audio: Error: Audio load failed" through [handleError] as well, which
    calls [onError] a second time; in WeChat the poll calls no listener. *)
Theorem load_error_reaches_onError host depth w src raw message :
  let q := after (construct w src raw) in
  let callback := Cfg.onError (config q) in
  let e := Js.mkError ("Audio load error: " +:+ message_or_unknown message) in
  let again := Js.mkError "Failed to load audio: Error: Audio load failed" in
  let r :=
    Live.handleSoundError (Live.calls host depth) (Js.VString (audioId q))
      message (Live.enter q) in
  let polled := Live.checkLoad (Live.calls host depth) (Live.stage r) in
  Live.returned r = Js.Returns tt /\
  (exists rest,
     listener_calls (Live.said r) = (callback, Ev.error, [AError e]) :: rest) /\
  (exists rest,
     emissions (Live.said r) =
       (Ev.statechange, [AState PlayerState.error]) ::
       (Ev.error, [AError e]) :: rest) /\
  (Live.quiet host callback ->
   state (Live.self (Live.stage r)) = PlayerState.error /\
   listener_calls (Live.said r) = [(callback, Ev.error, [AError e])] /\
   emissions (Live.said r) =
     [(Ev.statechange, [AState PlayerState.error]);
      (Ev.error, [AError e])] /\
   Live.returned polled = Js.Returns tt /\
   state (Live.self (Live.stage polled)) = PlayerState.error /\
   listener_calls (Live.said polled) =
     (if isWeixin (environmentInfo q) then []
      else [(callback, Ev.error, [AError again])])).
Proof.
  cbv zeta. assert (N := construct_newly_made w src raw). revert N.
  generalize (after (construct w src raw)). intros q N.
  rewrite (live_handleSoundError_own _ message q (Live.enter q) eq_refl).
  destruct (live_handleError_new host depth
              (Js.mkError ("Audio load error: " +:+ message_or_unknown message))
              (Live.enter q) N) as (R & C & E & Q).
  cbn [Live.self Live.enter] in R, C, E, Q.
  split; [exact R|]. split; [exact C|]. split; [exact E|].
  intros Hq. destruct (Q Hq) as (St & Cq & Eq).
  split; [now rewrite St|]. split; [exact Cq|]. split; [exact Eq|].
  destruct N as (_ & A & _ & _ & L).
  destruct (live_checkLoad_failed host depth
              (Live.stage
                 (Live.handleError (Live.calls host depth)
                    (Js.mkError
                       ("Audio load error: " +:+ message_or_unknown message))
                    (Live.enter q))))
    as (R2 & S2 & C2 & _).
  - now rewrite St.
  - now rewrite St.
  - rewrite St. apply (quiet_on_one _ _ _ _ (L Ev.error)). exact Hq.
  - split; [exact R2|]. split; [rewrite S2; now rewrite St|].
    rewrite C2, St. cbn [environmentInfo with_state].
    destruct (isWeixin (environmentInfo q)); [reflexivity|].
    rewrite listeners_of_with_state, (L Ev.error). reflexivity.
Qed.

(** *** What stays true of the fields, whatever the listeners call *)

Section LiveKeeps.

Context (P : Player -> Prop).

Lemma live_keeps_ret {A} (a : A) : live_keeps P (mret a : Live.M A).
Proof. intros s H. exact H. Qed.

Lemma live_keeps_skip : live_keeps P Live.skip.
Proof. intros s H. exact H. Qed.

Lemma live_keeps_throw {A} e : live_keeps P (@Live.throw A e).
Proof. intros s H. exact H. Qed.

Lemma live_keeps_get : live_keeps P Live.get.
Proof. intros s H. exact H. Qed.

Lemma live_keeps_here : live_keeps P Live.here.
Proof. intros s H. exact H. Qed.

Lemma live_keeps_attach h : live_keeps P (Live.attach h).
Proof. intros s H. exact H. Qed.

Lemma live_keeps_tick : live_keeps P Live.tick.
Proof. intros s H. exact H. Qed.

Lemma live_keeps_say o : live_keeps P (Live.say o).
Proof. intros s H. exact H. Qed.

Lemma live_keeps_call {A} c (answer : Js.outcome A) :
  live_keeps P (Live.call c answer).
Proof. intros s H. exact H. Qed.

Lemma live_keeps_log l t : live_keeps P (Live.log l t).
Proof. intros s H. now rewrite live_log_run. Qed.

Lemma live_keeps_lift {A} (m : M A) : keeps P m -> live_keeps P (Live.lift m).
Proof. intros Hm s H. now apply Hm. Qed.

Lemma live_keeps_modify g :
  (forall p, P p -> P (g p)) -> live_keeps P (Live.modify g).
Proof. intros Hg s H. now apply Hg. Qed.

Lemma live_keeps_bind {A C} (m : Live.M A) (k : A -> Live.M C) :
  live_keeps P m -> (forall a, live_keeps P (k a)) -> live_keeps P (m ≫= k).
Proof.
  intros Hm Hk s H. rewrite live_bind_run. specialize (Hm s H).
  destruct (Live.returned (m s)) as [a|e]; [|assumption].
  unfold Live.saying; cbn [Live.stage]. now apply Hk.
Qed.

Lemma live_keeps_try_catch {A} (body : Live.M A) handler :
  live_keeps P body -> (forall e, live_keeps P (handler e)) ->
  live_keeps P (Live.try_catch body handler).
Proof.
  intros Hb Hh s H. rewrite live_try_catch_run. specialize (Hb s H).
  destruct (Live.returned (body s)) as [a|e]; [assumption|].
  unfold Live.saying; cbn [Live.stage]. now apply Hh.
Qed.

Lemma live_keeps_forEach {A} (f : A -> Live.M unit) l :
  (forall x, live_keeps P (f x)) -> live_keeps P (Live.forEach f l).
Proof.
  intros Hf. induction l as [|x l IH]; [apply live_keeps_skip|].
  cbn [Live.forEach]. apply live_keeps_bind; [apply Hf|now intros []].
Qed.

Variable inv : Listener -> list Arg -> Live.M unit.
Hypothesis inv_keeps : forall l args, live_keeps P (inv l args).

Lemma live_keeps_notify event args l :
  live_keeps P (Live.notify inv event args l).
Proof.
  unfold Live.notify. apply live_keeps_bind; [apply live_keeps_say|intros []].
  apply live_keeps_try_catch; [apply inv_keeps|intros e; apply live_keeps_log].
Qed.

Lemma live_keeps_emit event args : live_keeps P (Live.emit inv event args).
Proof.
  unfold Live.emit. apply live_keeps_bind; [apply live_keeps_say|intros []].
  apply live_keeps_bind; [apply live_keeps_get|intros p].
  destruct (eventListeners p !! event) as [ls|]; [|apply live_keeps_skip].
  apply live_keeps_forEach. intros l. apply live_keeps_notify.
Qed.

Lemma live_keeps_setState x :
  (forall p, P p -> P (with_state x p)) ->
  live_keeps P (Live.setState inv x).
Proof.
  intros Hx. unfold Live.setState.
  apply live_keeps_bind; [apply live_keeps_get|intros p].
  destruct (negb _); [|apply live_keeps_skip].
  apply live_keeps_bind; [now apply live_keeps_modify|intros []].
  apply live_keeps_bind; [apply live_keeps_emit|intros []].
  apply live_keeps_log.
Qed.

End LiveKeeps.

(** One step of a proof of [live_keeps]; what a [modify] or a [setState]
    does to the invariant is left to [side]. *)
Ltac live_keeps_step side :=
  match goal with
  | |- live_keeps _ (_ ≫= _) => apply live_keeps_bind; [|intros]
  | |- live_keeps _ (Live.try_catch _ _) =>
      apply live_keeps_try_catch; [|intros]
  | |- live_keeps _ (Live.modify _) => apply live_keeps_modify; side
  | |- live_keeps _ (Live.setState _ _) =>
      apply live_keeps_setState; [assumption|side]
  | |- live_keeps _ (Live.emit _ _ _) =>
      apply live_keeps_emit; assumption
  | |- live_keeps _ (Live.log _ _) => apply live_keeps_log
  | |- live_keeps _ (Live.attach _) => apply live_keeps_attach
  | |- live_keeps _ (Live.call _ _) => apply live_keeps_call
  | |- live_keeps _ (Live.throw _) => apply live_keeps_throw
  | |- live_keeps _ (mret _) => apply live_keeps_ret
  | |- live_keeps _ Live.skip => apply live_keeps_skip
  | |- live_keeps _ Live.get => apply live_keeps_get
  | |- live_keeps _ Live.here => apply live_keeps_here
  | |- live_keeps _ (if ?b then _ else _) => destruct b
  | |- live_keeps _ (match ?x with _ => _ end) => destruct x
  end.

Ltac live_keeps_auto side := repeat live_keeps_step side.

Ltac live_unfold_methods :=
  unfold Live.handleSoundLoad, Live.handleSoundError, Live.onComplete,
    Live.play, Live.pause, Live.stop, Live.setVolume, Live.destroy,
    Live.handleError, Live.setupSoundInstanceEvents.

(** A flag that no method unsets stays set through every call of a
    listener. *)
Lemma live_flag_stays (flag : Player -> bool) host depth l args :
  (forall x p, flag (with_state x p) = flag p) ->
  (forall x p, flag (with_soundInstance x p) = flag p) ->
  (forall x p, flag (with_config x p) = flag p) ->
  (forall x p, flag (with_eventListeners x p) = flag p) ->
  (forall p, flag p = true -> flag (with_destroyed true p) = true) ->
  live_keeps (fun p => flag p = true) (Live.calls host depth l args).
Proof.
  intros H1 H2 H3 H4 H5. revert l args.
  assert (Side : forall g : Player -> Player,
            (forall p, flag (g p) = flag p) ->
            forall p, flag p = true -> flag (g p) = true).
  { intros g Hg p Hp. now rewrite Hg. }
  induction depth as [|d IH]; intros l args;
    (destruct l as [slot|id r]; cbn [Live.calls]; [apply live_keeps_skip|]);
    (apply live_keeps_bind; [apply live_keeps_here|intros s]);
    (apply live_keeps_bind; [apply live_keeps_tick|intros []]);
    (apply live_keeps_bind;
       [|intros []; destruct r; [apply live_keeps_throw|apply live_keeps_skip]]);
    generalize (host (Live.clock s) (Fn id r) args (Live.self s));
    intros script; induction script as [| |c next IHs]; cbn [Live.follow];
    try apply live_keeps_skip; try apply live_keeps_throw;
    (apply live_keeps_bind;
       [|intros o; apply live_keeps_bind; [apply live_keeps_get|intros p];
         apply IHs]).
  - apply live_keeps_ret.
  - destruct c; cbn [Live.perform]; unfold Live.outcome_of;
      live_unfold_methods;
      live_keeps_auto ltac:(first [ exact H5
                                  | apply Side; intros; first
                                      [apply H1|apply H2|apply H3|apply H4] ]);
      try (apply live_keeps_lift; unfold setMuted, setLoop;
           keeps_auto ltac:(apply Side; intros; first
                              [apply H1|apply H2|apply H3|apply H4])).
Qed.

Lemma live_audioLoaded_stays host depth l args :
  live_keeps (fun p => audioLoaded p = true) (Live.calls host depth l args).
Proof. now apply live_flag_stays. Qed.

Lemma live_destroyed_stays host depth l args :
  live_keeps (fun p => destroyed p = true) (Live.calls host depth l args).
Proof. now apply live_flag_stays. Qed.

(** Past the handler of its own [fileload], the player is loaded, whatever
    the listeners call. *)
Lemma live_handleSoundLoad_loads host depth env s :
  audioLoaded
    (Live.self
       (Live.stage
          (Live.handleSoundLoad (Live.calls host depth)
             (Js.VString (audioId (Live.self s))) env s))) = true.
Proof.
  unfold Live.handleSoundLoad. rewrite live_bind_run.
  cbn [Live.get Live.returned Live.stage Live.said Js.strict_eq_string].
  rewrite String.eqb_refl. rewrite live_bind_run.
  cbn [Live.modify Live.returned Live.stage Live.said].
  unfold Live.saying. cbn [Live.stage].
  match goal with
  | |- audioLoaded (Live.self (Live.stage (?rest ?s0))) = true =>
      cut (live_keeps (fun p => audioLoaded p = true) rest);
        [intros K0; exact (K0 s0 eq_refl)|]
  end.
  assert (K := live_audioLoaded_stays host depth).
  live_unfold_methods.
  live_keeps_auto ltac:(intros ? ?; first [assumption | reflexivity]).
Qed.

(** *** [play] and [handleSoundLoad] with listeners that do not call
    back *)

Lemma live_play_quiet host depth env s :
  let p := Live.self s in
  let r := Live.play (Live.calls host depth) env s in
  Live.quiet_on host p Ev.statechange ->
  Live.quiet_on host p Ev.play ->
  Live.quiet_on host p Ev.error ->
  Live.returned r = result (play env p) /\
  Live.self (Live.stage r) = after (play env p) /\
  Live.said r = trace (play env p).
Proof.
  intros p r Q1 Q2 Q3. unfold r, p in *. clear r p.
  unfold Live.play, Live.setupSoundInstanceEvents, play,
    setupSoundInstanceEvents, handleError.
  live_all. run_all.
  destruct (destroyed (Live.self s)); live_all; run_all;
    [now repeat split|].
  destruct (audioLoaded (Live.self s)); live_all; run_all;
    [|now repeat split].
  destruct (sound env); live_all; run_all; [|now repeat split].
  destruct (soundInstance (Live.self s)) as [old|]; live_all; run_all;
    [destruct (stopped env) as [[]|e0]; live_all; run_all|];
    try (destruct (created env) as [[h|]|e1]; live_all; run_all;
         [destruct (subscribed env); live_all; run_all| |]);
    live_quiet; unfold handleError; run_all; now repeat split.
Qed.

Lemma live_handleSoundLoad_quiet host depth id env s :
  let p := Live.self s in
  let r := Live.handleSoundLoad (Live.calls host depth) id env s in
  Live.quiet_on host p Ev.statechange ->
  Live.quiet_on host p Ev.ready ->
  Live.quiet_on host p Ev.play ->
  Live.quiet_on host p Ev.error ->
  Live.returned r = result (handleSoundLoad id env p) /\
  Live.self (Live.stage r) = after (handleSoundLoad id env p) /\
  Live.said r = trace (handleSoundLoad id env p).
Proof.
  intros p r Q1 Q2 Q3 Q4. unfold r, p in *. clear r p.
  unfold Live.handleSoundLoad, handleSoundLoad. live_all. run_all.
  destruct (Js.strict_eq_string id (audioId (Live.self s))); live_all;
    run_all; [|now repeat split].
  live_quiet.
  destruct (Cfg.autoplay (config (Live.self s))); live_all; run_all;
    [|now repeat split].
  match goal with
  | |- context [Live.play _ env ?s0] =>
      destruct (live_play_quiet host depth env s0) as (E1 & E2 & E3);
        [exact Q1|exact Q3|exact Q4|];
        destruct (Live.play (Live.calls host depth) env s0) as [o s1 t1]
  end.
  cbn [Live.returned Live.stage Live.said Live.self Live.later
       Live.with_self] in E1, E2, E3.
  match goal with
  | |- context [play env ?p0] => destruct (play env p0) as [o' p1 t1']
  end.
  cbn [result after trace] in E1, E2, E3. subst o' p1 t1'.
  destruct o as [[]|e]; live_all; run_all; now repeat split.
Qed.

Lemma live_returns_handleSoundLoad inv id env :
  live_returns (Live.handleSoundLoad inv id env).
Proof.
  unfold Live.handleSoundLoad. apply live_returns_get. intros p.
  destruct (Js.strict_eq_string id (audioId p)); [|apply live_returns_skip].
  apply live_returns_seq; [apply live_returns_modify|].
  apply live_returns_seq; [apply live_returns_setState|].
  apply live_returns_seq; [apply live_returns_log|].
  apply live_returns_seq; [apply live_returns_emit|].
  apply live_returns_get. intros p'.
  destruct (Cfg.autoplay (config p')); [|apply live_returns_skip].
  apply live_returns_try_catch. intros e. apply live_returns_log.
Qed.

(** On a new player, the first listener that [handleSoundLoad] calls is
    the [onReady] callback. *)
Lemma live_handleSoundLoad_first host depth env s :
  let q := Live.self s in
  let r :=
    Live.handleSoundLoad (Live.calls host depth) (Js.VString (audioId q))
      env s in
  newly_made q ->
  exists rest,
    listener_calls (Live.said r) =
      (Cfg.onReady (config q), Ev.ready, []) :: rest.
Proof.
  intros q r (S & _ & _ & _ & L). unfold r, q in *. clear r q.
  assert (L0 := L Ev.statechange). assert (L1 := L Ev.ready).
  cbn [configured] in L0, L1.
  unfold Live.handleSoundLoad. live_all.
  cbn [Js.strict_eq_string]. rewrite String.eqb_refl. live_all.
  rewrite live_setState_quiet by now apply quiet_on_nil.
  live_all.
  match goal with
  | |- context [Live.emit ?inv ?ev ?args ?s0] =>
      destruct (live_emit_first inv ev args s0 _ _ L1) as (s' & rest & ->)
  end.
  live_all.
  destruct (Cfg.autoplay (config (Live.self s'))); live_all.
  - destruct (Live.play (Live.calls host depth) env s') as [[[]|e] s'' t];
      live_all; read_trace;
      rewrite listeners_of_with_audioLoaded, L0;
      destruct (bool_decide _); cbn; now eexists.
  - read_trace. rewrite listeners_of_with_audioLoaded, L0.
    destruct (bool_decide _); cbn; now eexists.
Qed.

(** The first load as an observer sees it. *)
Lemma first_load_observed q env :
  newly_made q ->
  let r := handleSoundLoad (Js.VString (audioId q)) env q in
  let ready_call := (Cfg.onReady (config q), Ev.ready, @nil Arg) in
  let failed e :=
    state (after r) = PlayerState.error /\
    listener_calls (trace r) =
      [ready_call; (Cfg.onError (config q), Ev.error, [AError e])] in
  audioLoaded (after r) = true /\
  if Cfg.autoplay (config q) then
    if sound env then
      match created env with
      | Js.Returns (Some h) =>
          state (after r) = PlayerState.playing /\
          soundInstance (after r) = Some h /\
          listener_calls (trace r) =
            [ready_call; (Cfg.onPlay (config q), Ev.play, [])]
      | Js.Returns None =>
          failed (Js.mkError "Failed to create sound instance")
      | Js.Throws e => failed e
      end
    else
      state (after r) = PlayerState.ready /\
      listener_calls (trace r) = [ready_call]
  else
    state (after r) = PlayerState.ready /\
    listener_calls (trace r) = [ready_call] /\
    engine_calls (trace r) = [].
Proof.
  intros (S & _ & D & I & L) r ready_call failed.
  unfold failed, ready_call, r. clear r ready_call failed.
  unfold handleSoundLoad, play, setupSoundInstanceEvents, handleError.
  run_all. cbn [Js.strict_eq_string]. rewrite String.eqb_refl. run_all.
  destruct (Cfg.autoplay (config q)); run_all;
    [|repeat split; read_new_player L; rewrite ?S; reflexivity].
  rewrite D. run_all.
  destruct (sound env); run_all;
    [|repeat split; read_new_player L; rewrite ?S; reflexivity].
  rewrite I. run_all.
  destruct (created env) as [[h|]|e]; run_all;
    [destruct (subscribed env); run_all| |];
    repeat split; read_new_player L; rewrite ?S; reflexivity.
Qed.

(** X20. When the engine reports that a new player's own audio is loaded,
    the handler returns and the player is loaded, whatever the listeners
    call meanwhile (any public method but [on] and [off]) and whatever
    becomes of the autoplay, and [onReady] is the first listener called.
    When [onReady], [onPlay] and [onError] do not call back: without
    autoplay the player is [ready], no other listener is called, and the
    engine is not called; with autoplay, [play] runs at once: when the
    engine yields a handle the player is [playing] and [onPlay] is called;
    when it yields none or throws, the player is in the [error] state and
    [onError] is called with that error; when the engine is missing the
    attempt is dropped. *)
Theorem first_load host depth w src raw env :
  let q := after (construct w src raw) in
  let r :=
    Live.handleSoundLoad (Live.calls host depth) (Js.VString (audioId q))
      env (Live.enter q) in
  let p := Live.self (Live.stage r) in
  let ready_call := (Cfg.onReady (config q), Ev.ready, @nil Arg) in
  let failed e :=
    state p = PlayerState.error /\
    listener_calls (Live.said r) =
      [ready_call; (Cfg.onError (config q), Ev.error, [AError e])] in
  Live.returned r = Js.Returns tt /\
  audioLoaded p = true /\
  (exists rest, listener_calls (Live.said r) = ready_call :: rest) /\
  (Live.quiet host (Cfg.onReady (config q)) ->
   Live.quiet host (Cfg.onPlay (config q)) ->
   Live.quiet host (Cfg.onError (config q)) ->
   if Cfg.autoplay (config q) then
     if sound env then
       match created env with
       | Js.Returns (Some h) =>
           state p = PlayerState.playing /\
           soundInstance p = Some h /\
           listener_calls (Live.said r) =
             [ready_call; (Cfg.onPlay (config q), Ev.play, [])]
       | Js.Returns None =>
           failed (Js.mkError "Failed to create sound instance")
       | Js.Throws e => failed e
       end
     else
       state p = PlayerState.ready /\
       listener_calls (Live.said r) = [ready_call]
   else
     state p = PlayerState.ready /\
     listener_calls (Live.said r) = [ready_call] /\
     engine_calls (Live.said r) = []).
Proof.
  cbv zeta. assert (N := construct_newly_made w src raw). revert N.
  generalize (after (construct w src raw)). intros q N.
  split; [apply live_returns_handleSoundLoad|].
  split; [exact (live_handleSoundLoad_loads host depth env (Live.enter q))|].
  split; [exact (live_handleSoundLoad_first host depth env (Live.enter q) N)|].
  intros Qr Qp Qe.
  assert (L : forall event, listeners_of q event = configured (config q) event)
    by apply N.
  destruct (live_handleSoundLoad_quiet host depth (Js.VString (audioId q)) env
              (Live.enter q)) as (_ & E2 & E3).
  - apply quiet_on_nil. apply (L Ev.statechange).
  - now apply (quiet_on_one _ _ _ _ (L Ev.ready)).
  - now apply (quiet_on_one _ _ _ _ (L Ev.play)).
  - now apply (quiet_on_one _ _ _ _ (L Ev.error)).
  - cbn [Live.self Live.enter] in E2, E3. rewrite E2, E3.
    exact (proj2 (first_load_observed q env N)).
Qed.

(** ** The environment detector: flags and WeChat version *)

(** X21. The flags of the detected environment: each is set exactly when
    one of its tokens occurs in the lower-cased user agent; [isHTTPS]
    exactly when the protocol is "https:"; autoplay is deemed supported
    exactly in WeChat. For a user agent that does not hold U+0130, the
    tokens are those that occur in the user agent itself, without regard
    to the case of the letters A to Z. *)
Theorem environment_flags U ua protocol :
  let env := detectEnvironment U ua protocol in
  let flags (has : string -> Prop) : Prop :=
    (isWeixin env = true <-> has "micromessenger") /\
    (isIOS env = true <-> has "iphone" \/ has "ipad" \/ has "ipod") /\
    (isAndroid env = true <-> has "android") /\
    (supportsAutoplay env = true <-> has "micromessenger") in
  flags (fun tok => Text.occurs tok (Text.toLowerCase U ua)) /\
  (isHTTPS env = true <-> protocol = "https:") /\
  (~ In Text.dotted_capital_I (Text.chars ua) ->
   flags (fun tok => Text.occurs tok ua)).
Proof.
  intros env flags.
  assert (F : flags (fun tok => Text.occurs tok (Text.toLowerCase U ua))).
  { unfold flags, env, detectEnvironment.
    cbn [isWeixin isIOS isAndroid supportsAutoplay].
    split; [apply test_i_one|].
    split.
    { rewrite test_i_spec. split.
      - intros (l & [<-|[<-|[<-|[]]]] & H); auto.
      - intros [H|[H|H]]; eexists; (split; [|exact H]); cbn; auto. }
    split; apply test_i_one. }
  split; [exact F|]. split; [apply String.eqb_eq|].
  intros N. unfold flags in *.
  rewrite <- !(occurs_toLowerCase U _ ua) by
    first [assumption | reflexivity | discriminate].
  exact F.
Qed.

Lemma strip_prefix_spec lit s r :
  Text.strip_prefix lit s = Some r -> s = lit +:+ r.
Proof.
  revert s. induction lit as [|a lit IH]; intros s; cbn.
  - now intros [= ->].
  - destruct s as [|b s]; [discriminate|].
    destruct (Ascii.eqb a b) eqn:E; [|discriminate].
    apply Ascii.eqb_eq in E as ->. intros H. now rewrite (IH s H).
Qed.

Lemma digits_spec s :
  s = fst (Text.digits s) +:+ snd (Text.digits s) /\
  Forall (fun c => Text.is_digit c = true)
    (list_ascii_of_string (fst (Text.digits s))).
Proof.
  induction s as [|c s [IH1 IH2]]; cbn [Text.digits].
  - split; [reflexivity|constructor].
  - destruct (Text.is_digit c) eqn:E.
    + destruct (Text.digits s) as [d r]. cbn [fst snd] in *.
      split; [rewrite append_cons; now rewrite <- IH1|]. cbn. now constructor.
    + split; [reflexivity|constructor].
Qed.

Lemma dotted_version_spec s v :
  Text.dotted_version s = Some v ->
  dotted_triple v /\ exists rest, s = v +:+ rest.
Proof.
  unfold Text.dotted_version.
  destruct (digits_spec s) as [E1 F1].
  destruct (Text.digits s) as [a r1]. cbn [fst snd] in *.
  destruct a as [|a0 a]; [discriminate|].
  destruct r1 as [|c1 r1]; [discriminate|].
  destruct (Ascii.eqb c1 Text.dot) eqn:D1; [|discriminate].
  apply Ascii.eqb_eq in D1 as ->.
  destruct (digits_spec r1) as [E2 F2].
  destruct (Text.digits r1) as [b r2]. cbn [fst snd] in *.
  destruct b as [|b0 b]; [discriminate|].
  destruct r2 as [|c2 r2]; [discriminate|].
  destruct (Ascii.eqb c2 Text.dot) eqn:D2; [|discriminate].
  apply Ascii.eqb_eq in D2 as ->.
  destruct (digits_spec r2) as [E3 F3].
  destruct (Text.digits r2) as [c r3]. cbn [fst snd] in *.
  destruct c as [|c0 c]; [discriminate|].
  intros [= <-]. split.
  - exists (String a0 a), (String b0 b), (String c0 c).
    split; [reflexivity|]. repeat split; solve [discriminate | assumption].
  - exists r3. rewrite E1, E2, E3 at 1.
    now rewrite ?append_assoc_string, ?append_cons, ?append_nil_l,
      ?append_assoc_string, ?append_cons, ?append_nil_l,
      ?append_assoc_string.
Qed.

Lemma match_version_eq s :
  Text.match_version s =
  match
    match Text.strip_prefix "micromessenger/" s with
    | Some rest => Text.dotted_version rest
    | None => None
    end
  with
  | Some v => Some v
  | None =>
      match s with
      | EmptyString => None
      | String _ s' => Text.match_version s'
      end
  end.
Proof. now destruct s. Qed.

Lemma match_version_spec s v :
  Text.match_version s = Some v ->
  dotted_triple v /\
  exists pre post, s = pre +:+ "micromessenger/" +:+ v +:+ post.
Proof.
  induction s as [|c s IH]; rewrite match_version_eq.
  - cbn. discriminate.
  - destruct (Text.strip_prefix "micromessenger/" (String c s))
      as [rest|] eqn:P.
    + destruct (Text.dotted_version rest) as [v'|] eqn:V.
      * intros [= ->]. apply strip_prefix_spec in P.
        destruct (dotted_version_spec rest v V) as [T [post ->]].
        split; [assumption|]. exists "", post. now rewrite P.
      * intros H. destruct (IH H) as [T (pre & post & ->)].
        split; [assumption|]. now exists (String c pre), post.
    + intros H. destruct (IH H) as [T (pre & post & ->)].
      split; [assumption|]. now exists (String c pre), post.
Qed.

(** X22. A WeChat version is reported only in WeChat, and it is then three runs
    of digits separated by dots that follow "micromessenger/" in the
    lower-cased user agent. *)
Theorem weixin_version_shape U ua protocol v :
  weixinVersion (detectEnvironment U ua protocol) = Some v ->
  isWeixin (detectEnvironment U ua protocol) = true /\
  browserType (detectEnvironment U ua protocol) = BrowserType.weixin /\
  dotted_triple v /\
  exists pre post,
    Text.toLowerCase U ua = pre +:+ "micromessenger/" +:+ v +:+ post.
Proof.
  unfold detectEnvironment. cbn [weixinVersion isWeixin browserType].
  destruct (Text.test_i ["micromessenger"] (Text.toLowerCase U ua));
    [|discriminate].
  intros H. split; [reflexivity|]. split; [reflexivity|].
  now apply match_version_spec.
Qed.

Lemma weixin_version_shape_witness :
  let ua :=
    "Mozilla/5.0 (Linux; Android 13) MicroMessenger/8.0.42.2460 WeChat" in
  weixinVersion (detectEnvironment Text.plain ua "https:") = Some "8.0.42" /\
  dotted_triple "8.0.42".
Proof.
  intros ua.
  assert (H : weixinVersion (detectEnvironment Text.plain ua "https:") =
              Some "8.0.42")
    by (vm_compute; reflexivity).
  split; [exact H|].
  apply (weixin_version_shape Text.plain ua "https:" "8.0.42" H).
Defined.

(** ** The bundle *)

(** X23. What [loadSoundJS] gets from the bundle. It is rejected exactly when
    the bundle was not initialised and the engine is missing, and the
    bundle then stays uninitialised, so that a later call tries again.
    Otherwise it gets a version, which is the engine's own or "1.0.0" when
    the engine is there, but "not-initialized" when the bundle was
    initialised earlier and the engine has gone since: [initialize] then
    returns without looking. *)
Theorem bundle_load w initialized :
  match SoundJSBundle.load w initialized with
  | Js.Returns v =>
      (SoundJSBundle.Sound w = true /\
       v = SoundJSBundle.version_or_default (SoundJSBundle.version w) /\
       v <> "" /\
       snd (fst (SoundJSBundle.initialize w initialized)) = true)
      \/
      (initialized = true /\ SoundJSBundle.Sound w = false /\
       v = "not-initialized" /\
       snd (SoundJSBundle.initialize w initialized) = [])
  | Js.Throws e =>
      initialized = false /\ SoundJSBundle.Sound w = false /\
      snd (fst (SoundJSBundle.initialize w initialized)) = false /\
      snd (SoundJSBundle.initialize w initialized) = [] /\
      e = Js.mkError
            ("Failed to initialize SoundJS: " +:+
             "SoundJS not available: please ensure it is properly imported")
  end.
Proof.
  unfold SoundJSBundle.load, SoundJSBundle.initialize,
    SoundJSBundle.getVersion, SoundJSBundle.isInitialized.
  destruct initialized, (SoundJSBundle.Sound w) eqn:S;
    cbn [negb andb fst snd]; rewrite ?S; cbn [negb andb fst snd].
  - left. repeat split.
    now destruct (SoundJSBundle.version w) as [[|c s]|].
  - right. now repeat split.
  - left. repeat split.
    now destruct (SoundJSBundle.version w) as [[|c s]|].
  - now repeat split.
Qed.

(** X24. When the engine is missing at construction, the pending rejection
    of [initialize] carries the bundle's message wrapped twice. Its
    handling returns, and the first listener it calls is the [onError]
    callback of the configuration, with that error. When [onError] does
    not call back, it is the one listener called, once, and the new player
    ends in the [error] state. *)
Theorem missing_engine_is_reported host depth w src raw window :
  bundle w = SoundJSBundle.load window false ->
  SoundJSBundle.Sound window = false ->
  let e :=
    Js.mkError
      ("Failed to load SoundJS: Error: Failed to initialize SoundJS: " +:+
       "SoundJS not available: please ensure it is properly imported") in
  let q := after (construct w src raw) in
  let callback := Cfg.onError (config q) in
  let r := Live.handleError (Live.calls host depth) e (Live.enter q) in
  result (construct w src raw) = Js.Returns (Js.Throws e) /\
  Live.returned r = Js.Returns tt /\
  (exists rest,
     listener_calls (Live.said r) = (callback, Ev.error, [AError e]) :: rest) /\
  (Live.quiet host callback ->
   state (Live.self (Live.stage r)) = PlayerState.error /\
   listener_calls (Live.said r) = [(callback, Ev.error, [AError e])]).
Proof.
  intros B S e q callback r.
  destruct (construct_says w src raw) as (_ & _ & _ & R).
  split.
  { rewrite R, B. unfold SoundJSBundle.load, SoundJSBundle.initialize.
    now rewrite S. }
  unfold r, callback, q. clear r callback q R.
  assert (N := construct_newly_made w src raw). revert N.
  generalize (after (construct w src raw)). intros q N.
  destruct (live_handleError_new host depth e (Live.enter q) N)
    as (Rt & C & _ & Q).
  cbn [Live.self Live.enter] in Rt, C, Q.
  split; [exact Rt|]. split; [exact C|].
  intros Hq. destruct (Q Hq) as (St & Cq & _).
  split; [now rewrite St|exact Cq].
Qed.

(** The sound panel, whose [onError] calls [destroy()], where the engine
    is missing. *)
Lemma missing_engine_is_reported_witness :
  let window :=
    {| SoundJSBundle.Sound := false; SoundJSBundle.version := None;
       SoundJSBundle.volumeSet := Js.Returns tt |} in
  let w :=
    {| now := 1700000000000; random36 := "0.4fzyo82mvyr";
       navigatorUserAgent := "Mozilla/5.0"; protocol := "https:";
       unicode := Text.plain;
       bundle := SoundJSBundle.load window false; soundjs := false;
       fileloadOn := Js.Returns tt; fileerrorOn := Js.Returns tt |} in
  let e :=
    Js.mkError
      ("Failed to load SoundJS: Error: Failed to initialize SoundJS: " +:+
       "SoundJS not available: please ensure it is properly imported") in
  let q := after (construct w "a.mp3" Sample.panel_config) in
  let r := Live.handleError (Live.calls Sample.panel 2) e (Live.enter q) in
  result (construct w "a.mp3" Sample.panel_config) =
    Js.Returns (Js.Throws e) /\
  Live.returned r = Js.Returns tt /\
  listener_calls (Live.said r) = [(Fn 5 false, Ev.error, [AError e])] /\
  destroyed (Live.self (Live.stage r)) = true /\
  state (Live.self (Live.stage r)) = PlayerState.idle.
Proof.
  intros window w e q r.
  destruct (missing_engine_is_reported Sample.panel 2 w "a.mp3"
              Sample.panel_config window eq_refl eq_refl)
    as (H1 & H2 & _).
  split; [exact H1|]. split; [exact H2|].
  repeat split; vm_compute; reflexivity.
Defined.

(** ** What no call changes, and which calls can throw *)

Lemma fixed_step i : preserves fixed (step i).
Proof.
  destruct i; cbn [step];
    try (first [apply on_preserves | apply off_preserves]; reflexivity);
    unfold_methods; preserves_auto.
Qed.

(** X25. Whatever is called on a player and whatever the engine signals or
    answers, its identifier, its environment and every key of its
    configuration other than [volume], [muted] and [loop] stay as they
    are. *)
Theorem fixed_at_construction inputs p :
  fixed (after (run inputs p)) = fixed p.
Proof.
  revert p. induction inputs as [|i inputs IH]; intros p; [reflexivity|].
  rewrite after_run_cons, IH. apply fixed_step.
Qed.

(** X26. Apart from [play], which rejects, and [setVolume], which throws on its
    guard, no public method and no handler of an engine event ever throws,
    whatever the engine answers and whatever the listeners do. *)
Theorem only_play_and_setVolume_throw i p :
  match i with
  | DoPlay _ | DoSetVolume _ _ => True
  | _ => result (step i p) = Js.Returns tt
  end.
Proof.
  destruct i; cbn [step]; try exact I;
    match goal with
    | |- result (?m p) = _ =>
        assert (H : never_throws m)
          by (unfold_methods; unfold on, off; never_throws_auto);
        destruct (H p) as [[] ->]; reflexivity
    end.
Qed.

(** ** Muting and unmuting *)

(** X27. Muting and then unmuting a player that was not muted restores every
    field. With a handle, the engine is told 0 and then the configured
    volume again, whether or not it accepts them; without one it is told
    nothing. Neither call emits an event. *)
Theorem mute_round_trip a1 a2 p :
  Cfg.muted (config p) = false ->
  let r1 := setMuted true a1 p in
  let r2 := setMuted false a2 (after r1) in
  after r2 = p /\
  told_volumes (trace r1 ++ trace r2) =
    match soundInstance p with
    | Some _ => [0%float; Cfg.volume (config p)]
    | None => []
    end /\
  emissions (trace r1 ++ trace r2) = [].
Proof.
  intros Mu r1 r2. unfold r2, r1, setMuted. run_all.
  destruct (soundInstance p) as [h|] eqn:I; run_all;
    [destruct a1 as [[]|e1]; run_all; rewrite ?I; run_all;
     destruct a2 as [[]|e2]; run_all
    |rewrite ?I; run_all];
    (split; [destruct p as [c]; destruct c; cbn in *; now subst|]);
    split; read_trace; reflexivity.
Qed.

Lemma mute_round_trip_witness :
  let r1 := setMuted true (Js.Returns tt) Sample.started in
  let r2 := setMuted false (Js.Throws (Js.mkError "gone")) (after r1) in
  after r2 = Sample.started /\
  told_volumes (trace r1 ++ trace r2) = [0%float; default_volume] /\
  emissions (trace r1 ++ trace r2) = [].
Proof.
  apply (mute_round_trip (Js.Returns tt) (Js.Throws (Js.mkError "gone"))
           Sample.started).
  reflexivity.
Defined.
